(** * schwab-0dte-analyzer: derived-metrics pipeline

    A shallow embedding of the numeric core of the analyzer
    (max pain, naked-position detection, credit-spread enumeration,
    at-the-money selection, collector start/stop) and the properties
    the specification states about it.

    Numbers.  The TypeScript sources compute on JavaScript numbers,
    which are IEEE 754 binary64 values.  Contract fields arrive through
    JSON and are finite; they are carried as the rationals [Q] they
    denote.  [Binary64] gives the arithmetic of the language: every
    [+], [-], [*], [/] returns the exact result rounded to the nearest
    value of the format, with the infinities and NaN in [JsNum] (zero
    carries no sign); [agrees_with_SpecFloat] compares it with the
    Standard Library's specification of IEEE 754 arithmetic.

    Two readings of the sources follow.  Where a property concerns the
    values a function computes (the test and the ratio of the
    naked-position check, the economics of a spread, the pain sums
    compared by the max-pain scan, the order-flow tests, the P&L
    metrics) the source is embedded with the operations of [Binary64]:
    [DataCollector.checkNakedPosition], [Rounded], [RoundedPnL].  Where
    it concerns which candidates a guard lets through, their order and
    their number, the source is embedded with [+], [-], [*] as the
    exact operations and [/] as [jsdiv], which leaves the finite
    numbers only at a zero divisor: [MaxPain], [CreditSpreadAnalyzer],
    [ATMTradeAnalyzer], [ChainRoute], [PnL]. *)

From Stdlib Require Import String PeanoNat ZArith.
From Stdlib Require Import QArith Qabs Qround Qpower Lqa List Bool Lia.
From Stdlib Require Import Sorted Permutation.
From Stdlib Require SpecFloat.
Import ListNotations.
Open Scope Q_scope.

(* ================================================================== *)
(** ** JavaScript numbers *)
(* ================================================================== *)

Module JsNumber.

Inductive JsNum : Type :=
| Fin (q : Q)
| PosInf
| NegInf
| NaN.

(** [a < b] on finite numbers, as a boolean. *)
Definition Qlt_bool (a b : Q) : bool := negb (Qle_bool b a).

(** [a / b]: a zero divisor yields NaN or an infinity, never an error. *)
Definition jsdiv (a b : Q) : JsNum :=
  if Qeq_bool b 0 then
    if Qeq_bool a 0 then NaN
    else if Qlt_bool 0 a then PosInf else NegInf
  else Fin (a / b).

(** [x - y]. *)
Definition jssub (x y : JsNum) : JsNum :=
  match x, y with
  | NaN, _ | _, NaN => NaN
  | Fin a, Fin b => Fin (a - b)
  | Fin _, PosInf => NegInf
  | Fin _, NegInf => PosInf
  | PosInf, PosInf => NaN
  | PosInf, _ => PosInf
  | NegInf, NegInf => NaN
  | NegInf, _ => NegInf
  end.

(** [x < y]; every comparison with NaN is false. *)
Definition jslt (x y : JsNum) : bool :=
  match x, y with
  | NaN, _ | _, NaN => false
  | Fin a, Fin b => Qlt_bool a b
  | NegInf, NegInf => false
  | NegInf, _ => true
  | _, NegInf => false
  | PosInf, _ => false
  | Fin _, PosInf => true
  end.

Definition jsgt (x y : JsNum) : bool := jslt y x.

(** [x <= y]. *)
Definition jsle (x y : JsNum) : bool :=
  match x, y with
  | NaN, _ | _, NaN => false
  | Fin a, Fin b => Qle_bool a b
  | NegInf, _ => true
  | _, PosInf => true
  | _, _ => false
  end.

Definition is_finite (x : JsNum) : bool :=
  match x with Fin _ => true | _ => false end.

End JsNumber.
Import JsNumber.

(* ================================================================== *)
(** ** Binary64 arithmetic *)
(* ================================================================== *)

(** The arithmetic of the language: a number is an IEEE 754 binary64
    value, and [+], [-], [*], [/] return the exact result rounded to
    the nearest value of the format, ties going to the even
    significand, with gradual underflow and overflow to an infinity.
    A finite value is carried as the rational it denotes; [fl] is the
    rounding.  Zero carries no sign, so a division by a zero that the
    language would hold as [-0] has the sign of a division by [+0]. *)
Module Binary64.

(** Exponent of the least positive value, and of the overflow bound. *)
Definition emin : Z := -1074.
Definition emax : Z := 1024.

(** [floor (log2 q)] for [0 < q]. *)
Definition ilog2 (q : Q) : Z :=
  let k := (Z.log2 (Qnum q) - Z.log2 (Zpos (Qden q)))%Z in
  if Qle_bool (2 ^ k) q then k else (k - 1)%Z.

(** The nearest integer, ties to even. *)
Definition rne (x : Q) : Z :=
  let f := Qfloor x in
  let r := x - inject_Z f in
  if Qlt_bool r (1 # 2) then f
  else if Qlt_bool (1 # 2) r then (f + 1)%Z
  else if Z.even f then f else (f + 1)%Z.

(** Exponent of the unit in the last place of a 53-bit significand at
    the magnitude of [q]. *)
Definition ulp_exp (q : Q) : Z := Z.max (ilog2 (Qabs q) - 52) emin.

(** The nearest multiple of [2 ^ ulp_exp q]. *)
Definition nearest (q : Q) : Q :=
  inject_Z (rne (q / 2 ^ ulp_exp q)) * 2 ^ ulp_exp q.

Definition fl (q : Q) : JsNum :=
  let r := nearest q in
  if Qle_bool (2 ^ emax) r then PosInf
  else if Qle_bool r (- 2 ^ emax) then NegInf
  else Fin (Qred r).

(** The value of a decimal literal of the source text, or of a decimal
    of JSON text, within the range of the format. *)
Definition lit (q : Q) : Q :=
  match fl q with
  | Fin r => r
  | _ => 0
  end.

Definition neg (x : JsNum) : JsNum :=
  match x with
  | Fin a => Fin (- a)
  | PosInf => NegInf
  | NegInf => PosInf
  | NaN => NaN
  end.

(** [Math.abs]. *)
Definition abs (x : JsNum) : JsNum :=
  match x with
  | Fin a => Fin (Qabs a)
  | PosInf | NegInf => PosInf
  | NaN => NaN
  end.

Definition add (x y : JsNum) : JsNum :=
  match x, y with
  | NaN, _ | _, NaN => NaN
  | Fin a, Fin b => fl (a + b)
  | PosInf, NegInf | NegInf, PosInf => NaN
  | PosInf, _ | _, PosInf => PosInf
  | NegInf, _ | _, NegInf => NegInf
  end.

Definition sub (x y : JsNum) : JsNum := add x (neg y).

Definition mul (x y : JsNum) : JsNum :=
  match x, y with
  | NaN, _ | _, NaN => NaN
  | Fin a, Fin b => fl (a * b)
  | Fin a, PosInf | PosInf, Fin a =>
      if Qeq_bool a 0 then NaN else if Qlt_bool 0 a then PosInf else NegInf
  | Fin a, NegInf | NegInf, Fin a =>
      if Qeq_bool a 0 then NaN else if Qlt_bool 0 a then NegInf else PosInf
  | PosInf, PosInf | NegInf, NegInf => PosInf
  | PosInf, NegInf | NegInf, PosInf => NegInf
  end.

Definition div (x y : JsNum) : JsNum :=
  match x, y with
  | NaN, _ | _, NaN => NaN
  | Fin a, Fin b =>
      if Qeq_bool b 0 then
        if Qeq_bool a 0 then NaN
        else if Qlt_bool 0 a then PosInf else NegInf
      else fl (a / b)
  | Fin _, _ => Fin 0
  | PosInf, Fin b => if Qlt_bool b 0 then NegInf else PosInf
  | NegInf, Fin b => if Qlt_bool b 0 then PosInf else NegInf
  | _, _ => NaN
  end.

(** [q] is a value of the format: a significand below [2 ^ 53] at an
    exponent of the format's range. *)
Definition representable (q : Q) : Prop :=
  exists m e : Z,
    (Z.abs m < 2 ^ 53)%Z /\ (emin <= e)%Z /\ (e + 53 <= emax)%Z /\
    q == inject_Z m * 2 ^ e.

End Binary64.

(* ================================================================== *)
(** ** Array.prototype.sort *)
(* ================================================================== *)

(** [Array.prototype.sort(comparefn)] is a stable sort: [a] is placed
    after [b] when [comparefn(a, b) > 0], and a NaN result counts as
    [+0].  For a consistent comparator the outcome is the unique stable
    arrangement, which insertion from the right computes. *)
Module JsArray.
Section Sort.
Context {A : Type}.
Variable comparefn : A -> A -> JsNum.

Definition sorts_after (a b : A) : bool := jsgt (comparefn a b) (Fin 0).

Fixpoint insert (x : A) (l : list A) : list A :=
  match l with
  | [] => [x]
  | y :: t => if sorts_after x y then y :: insert x t else x :: y :: t
  end.

Definition sort (l : list A) : list A := fold_right insert [] l.

End Sort.

(** [arr.slice(start, end)] for non-negative integer indices. *)
Definition slice {A : Type} (start end_ : nat) (l : list A) : list A :=
  firstn (end_ - start) (skipn start l).

End JsArray.

(* ================================================================== *)
(** ** types/schwab.ts *)
(* ================================================================== *)

Module Schwab.

Inductive PutCall : Type := PUT | CALL.

Definition PutCall_eqb (a b : PutCall) : bool :=
  match a, b with
  | PUT, PUT | CALL, CALL => true
  | _, _ => false
  end.

(** [OptionContract], restricted to the fields the analytics read. *)
Record OptionContract : Type := {
  putCall : PutCall;
  symbol : string;
  bid : Q;
  ask : Q;
  mark : Q;
  totalVolume : Q;
  delta : Q;
  openInterest : Q;
  strikePrice : Q
}.

End Schwab.
Import Schwab.

(* ================================================================== *)
(** ** routes/schwab.ts: calculateMaxPain *)
(* ================================================================== *)

Module MaxPain.

Record StrikeOI : Type := { callOI : Q; putOI : Q }.

(** [Map<number, {callOI, putOI}>]: entries in insertion order, keys
    compared by numeric equality (SameValueZero on finite numbers). *)
Definition StrikeMap : Type := list (Q * StrikeOI).

Fixpoint map_get (m : StrikeMap) (k : Q) : option StrikeOI :=
  match m with
  | [] => None
  | (k', v) :: m' => if Qeq_bool k' k then Some v else map_get m' k
  end.

(** [set] overwrites the value of a present key where it stands and
    appends an absent key at the end. *)
Fixpoint map_set (m : StrikeMap) (k : Q) (v : StrikeOI) : StrikeMap :=
  match m with
  | [] => [(k, v)]
  | (k', v') :: m' =>
      if Qeq_bool k' k then (k', v) :: m' else (k', v') :: map_set m' k v
  end.

Definition get_or_zero (m : StrikeMap) (k : Q) : StrikeOI :=
  match map_get m k with
  | Some e => e
  | None => {| callOI := 0; putOI := 0 |}
  end.

(** Body of the first loop: [existing.callOI += call.openInterest]. *)
Definition addCall (m : StrikeMap) (call : OptionContract) : StrikeMap :=
  let existing := get_or_zero m (strikePrice call) in
  map_set m (strikePrice call)
    {| callOI := callOI existing + openInterest call; putOI := putOI existing |}.

(** Body of the second loop: [existing.putOI += put.openInterest]. *)
Definition addPut (m : StrikeMap) (put : OptionContract) : StrikeMap :=
  let existing := get_or_zero m (strikePrice put) in
  map_set m (strikePrice put)
    {| callOI := callOI existing; putOI := putOI existing + openInterest put |}.

Definition buildStrikeMap (calls puts : list OptionContract) : StrikeMap :=
  fold_left addPut puts (fold_left addCall calls []).

(** Body of the inner loop over [strikeMap.entries()]. *)
Definition painStep (strike : Q) (pain : Q) (entry : Q * StrikeOI) : Q :=
  let otherStrike := fst entry in
  let pain :=
    if Qlt_bool otherStrike strike
    then pain + callOI (snd entry) * (strike - otherStrike) * 100
    else pain in
  if Qlt_bool strike otherStrike
  then pain + putOI (snd entry) * (otherStrike - strike) * 100
  else pain.

Definition painAt (m : StrikeMap) (strike : Q) : Q :=
  fold_left (painStep strike) m 0.

(** Body of the outer loop; the state is [(maxPainStrike, minPain)]. *)
Definition scanStep (m : StrikeMap) (st : Q * JsNum) (entry : Q * StrikeOI)
  : Q * JsNum :=
  let pain := painAt m (fst entry) in
  if jslt (Fin pain) (snd st) then (fst entry, Fin pain) else st.

Definition scan (m entries : StrikeMap) (st : Q * JsNum) : Q * JsNum :=
  fold_left (scanStep m) entries st.

Definition calculateMaxPain (calls puts : list OptionContract) : Q :=
  let strikeMap := buildStrikeMap calls puts in
  fst (scan strikeMap strikeMap (0, PosInf)).

(** The pain sum of the specification, read off the two contract lists:
    every call struck below [S] and every put struck above [S]
    contributes open interest x distance x 100. *)
Definition callPain (S : Q) (c : OptionContract) : Q :=
  if Qlt_bool (strikePrice c) S
  then openInterest c * (S - strikePrice c) * 100 else 0.

Definition putPain (S : Q) (p : OptionContract) : Q :=
  if Qlt_bool S (strikePrice p)
  then openInterest p * (strikePrice p - S) * 100 else 0.

Fixpoint Qsum (l : list Q) : Q :=
  match l with
  | [] => 0
  | x :: t => x + Qsum t
  end.

Definition pain_spec (calls puts : list OptionContract) (S : Q) : Q :=
  Qsum (map (callPain S) calls) + Qsum (map (putPain S) puts).

(** [S] is one of the distinct strikes present in either list. *)
Definition is_strike (calls puts : list OptionContract) (S : Q) : Prop :=
  exists c, In c (calls ++ puts) /\ strikePrice c == S.

End MaxPain.

(* ================================================================== *)
(** ** services/data-collector.ts *)
(* ================================================================== *)

Module DataCollector.

(** The value of [NAKED_POSITION_THRESHOLD] when the environment does
    not set it. *)
Definition DEFAULT_NAKED_THRESHOLD : Q := 3 # 2.

(** Argument of [supabaseService.storeNakedPosition]. *)
Record NakedPosition : Type := {
  symbol : string;
  optionSymbol : string;
  strikePrice : Q;
  optionType : PutCall;
  volume : Q;
  openInterest : Q;
  volumeOiRatio : JsNum;
  thresholdMultiplier : Q;
  bid : Q;
  ask : Q;
  mark : Q;
  underlyingPrice : Q
}.

(** [checkNakedPosition]; the persistence collaborator is the list of
    rows handed to it so far, [NAKED_THRESHOLD] is the module constant
    read from the environment.  The quotient and the product are the
    binary64 ones.  Console output is left out. *)
Definition checkNakedPosition (NAKED_THRESHOLD : Q)
    (sym : string) (contract : OptionContract) (underlying : Q)
    (stored : list NakedPosition) : list NakedPosition :=
  let volume := Schwab.totalVolume contract in
  let openInterest := Schwab.openInterest contract in
  if Qeq_bool volume 0 || Qeq_bool openInterest 0 then stored
  else
    let volumeOiRatio := Binary64.div (Fin volume) (Fin openInterest) in
    if jsgt (Fin volume) (Binary64.mul (Fin openInterest) (Fin NAKED_THRESHOLD)) then
      stored ++ [ {| symbol := sym;
                     optionSymbol := Schwab.symbol contract;
                     strikePrice := Schwab.strikePrice contract;
                     optionType := Schwab.putCall contract;
                     volume := volume;
                     openInterest := openInterest;
                     volumeOiRatio := volumeOiRatio;
                     thresholdMultiplier := NAKED_THRESHOLD;
                     bid := Schwab.bid contract;
                     ask := Schwab.ask contract;
                     mark := Schwab.mark contract;
                     underlyingPrice := underlying |} ]
    else stored.

(** *** start / stop *)

Definition Timeout : Type := nat.

(** The fields of the collector object. *)
Record Fields : Type := {
  intervalId : option Timeout;
  isRunning : bool
}.

(** What the collector acts on: the interval timers armed in the event
    loop, the next handle [setInterval] hands out, and the number of
    collection cycles launched directly by [start].  Console output is
    left out. *)
Record Runtime : Type := {
  timers : list Timeout;
  nextHandle : Timeout;
  launched : nat
}.

Definition State : Type := (Fields * Runtime)%type.

Definition initial : State :=
  ({| intervalId := None; isRunning := false |},
   {| timers := []; nextHandle := O; launched := O |}).

(** [this.collectData()], not awaited: one more cycle is under way. *)
Definition collectData (rt : Runtime) : Runtime :=
  {| timers := timers rt; nextHandle := nextHandle rt;
     launched := S (launched rt) |}.

Definition setInterval (rt : Runtime) : Timeout * Runtime :=
  (nextHandle rt,
   {| timers := nextHandle rt :: timers rt; nextHandle := S (nextHandle rt);
      launched := launched rt |}).

Definition clearInterval (id : Timeout) (rt : Runtime) : Runtime :=
  {| timers := filter (fun t => negb (Nat.eqb t id)) (timers rt);
     nextHandle := nextHandle rt;
     launched := launched rt |}.

Definition start (s : State) : State :=
  let (this, rt) := s in
  if isRunning this then (this, rt)
  else
    let rt := collectData rt in
    let (id, rt) := setInterval rt in
    ({| intervalId := Some id; isRunning := true |}, rt).

Definition stop (s : State) : State :=
  let (this, rt) := s in
  match isRunning this, intervalId this with
  | true, Some id =>
      let rt := clearInterval id rt in
      ({| intervalId := None; isRunning := false |}, rt)
  | _, _ => (this, rt)
  end.

Inductive Call : Type := CallStart | CallStop.

Definition call (s : State) (c : Call) : State :=
  match c with
  | CallStart => start s
  | CallStop => stop s
  end.

Definition run (cs : list Call) : State := fold_left call cs initial.

(** [isRunning] holds exactly when a timer handle is held. *)
Definition invariant (s : State) : Prop :=
  isRunning (fst s) = true <-> intervalId (fst s) <> None.

End DataCollector.

(* ================================================================== *)
(** ** services/credit-spread-analyzer.ts *)
(* ================================================================== *)

Module CreditSpreadAnalyzer.

Definition MIN_CREDIT : Q := 1 # 2.
Definition MAX_WIDTH : Q := 50.
Definition MIN_WIDTH : Q := 5.

Record SpreadOpportunity : Type := {
  spreadType : PutCall;
  shortStrike : Q;
  longStrike : Q;
  shortOption : OptionContract;
  longOption : OptionContract;
  creditReceived : Q;
  maxProfit : Q;
  maxLoss : Q;
  breakEven : Q;
  riskRewardRatio : JsNum;
  probabilityOfProfit : Q;
  deltaSpread : Q;
  width : Q
}.

(** The pairs [(l[i], l[j])], [i < j], in the order the two nested
    [for] loops visit them. *)
Fixpoint pairs {A : Type} (l : list A) : list (A * A) :=
  match l with
  | [] => []
  | x :: t => map (pair x) t ++ pairs t
  end.

(** Body of the inner loop for [opt1 = filteredOptions[i]] and
    [opt2 = filteredOptions[j]]: [None] for [continue], [Some] for the
    object pushed. *)
Definition loopBody (optionType : PutCall) (opt1 opt2 : OptionContract)
  : option SpreadOpportunity :=
  let shortOption := match optionType with CALL => opt1 | PUT => opt2 end in
  let longOption := match optionType with CALL => opt2 | PUT => opt1 end in
  let width := Qabs (strikePrice shortOption - strikePrice longOption) in
  if Qlt_bool width MIN_WIDTH || Qlt_bool MAX_WIDTH width then None
  else
    let creditReceived := bid shortOption - ask longOption in
    if Qlt_bool creditReceived MIN_CREDIT then None
    else
      let maxProfit := creditReceived * 100 in
      let maxLoss := (width - creditReceived) * 100 in
      let breakEven :=
        match optionType with
        | CALL => strikePrice shortOption + creditReceived
        | PUT => strikePrice shortOption - creditReceived
        end in
      let riskRewardRatio :=
        if Qlt_bool 0 maxLoss then jsdiv maxProfit maxLoss else Fin 0 in
      let probabilityOfProfit :=
        match optionType with
        | CALL => (1 - Qabs (delta shortOption)) * 100
        | PUT => Qabs (delta shortOption) * 100
        end in
      let deltaSpread := Qabs (delta shortOption - delta longOption) in
      Some {| spreadType := optionType;
              shortStrike := strikePrice shortOption;
              longStrike := strikePrice longOption;
              shortOption := shortOption;
              longOption := longOption;
              creditReceived := creditReceived;
              maxProfit := maxProfit;
              maxLoss := maxLoss;
              breakEven := breakEven;
              riskRewardRatio := riskRewardRatio;
              probabilityOfProfit := probabilityOfProfit;
              deltaSpread := deltaSpread;
              width := width |}.

Definition pushed {A : Type} (o : option A) : list A :=
  match o with
  | Some x => [x]
  | None => []
  end.

Definition filteredOptions (options : list OptionContract) (optionType : PutCall)
  : list OptionContract :=
  JsArray.sort (fun a b => Fin (strikePrice a - strikePrice b))
    (filter (fun opt => PutCall_eqb (putCall opt) optionType) options).

(** The array [spreads] when the loops are done. *)
Definition enumerated (options : list OptionContract) (optionType : PutCall)
  : list SpreadOpportunity :=
  flat_map (fun p => pushed (loopBody optionType (fst p) (snd p)))
    (pairs (filteredOptions options optionType)).

Definition calculateCreditSpreads (options : list OptionContract)
    (optionType : PutCall) (underlyingPrice : Q) : list SpreadOpportunity :=
  JsArray.sort (fun a b => jssub (riskRewardRatio b) (riskRewardRatio a))
    (enumerated options optionType).

End CreditSpreadAnalyzer.

(* ================================================================== *)
(** ** services/atm-trade-analyzer.ts *)
(* ================================================================== *)

Module ATMTradeAnalyzer.

Definition ATM_THRESHOLD : Q := 2 # 100.

Record ATMOption : Type := {
  symbol : string;
  optionType : PutCall;
  contract : OptionContract;
  distanceFromATM : Q;
  isATM : bool
}.

Definition toATMOption (sym : string) (optionType : PutCall)
    (underlyingPrice : Q) (contract : OptionContract) : ATMOption :=
  let distance := Qabs (strikePrice contract - underlyingPrice) in
  let percentDistance := jsdiv distance underlyingPrice in
  {| symbol := sym;
     optionType := optionType;
     contract := contract;
     distanceFromATM := distance;
     isATM := jsle percentDistance (Fin ATM_THRESHOLD) |}.

Definition findNearestStrikes (sym : string) (underlyingPrice : Q)
    (options : list OptionContract) (optionType : PutCall) : list ATMOption :=
  JsArray.slice 0 3
    (JsArray.sort (fun a b => Fin (distanceFromATM a - distanceFromATM b))
       (filter isATM
          (map (toATMOption sym optionType underlyingPrice)
             (filter (fun opt => PutCall_eqb (putCall opt) optionType) options)))).

Record ATMOptions : Type := {
  atmCalls : list ATMOption;
  atmPuts : list ATMOption
}.

Definition findATMOptions (sym : string) (calls puts : list OptionContract)
    (underlyingPrice : Q) : ATMOptions :=
  {| atmCalls := findNearestStrikes sym underlyingPrice calls CALL;
     atmPuts := findNearestStrikes sym underlyingPrice puts PUT |}.

Inductive Signal : Type := BULLISH | BEARISH | NEUTRAL.

Record OrderFlow : Type := {
  hasUnusualVolume : bool;
  volumeOIRatio : JsNum;
  signal : Signal
}.

Definition analyzeOrderFlow (option : ATMOption) : OrderFlow :=
  let volume := totalVolume (contract option) in
  let openInterest := openInterest (contract option) in
  let volumeOIRatio :=
    if Qlt_bool 0 openInterest then jsdiv volume openInterest else Fin 0 in
  let hasUnusualVolume := jsgt volumeOIRatio (Fin (1 # 2)) in
  let signal :=
    if hasUnusualVolume then
      if PutCall_eqb (optionType option) CALL
         && Qlt_bool (ask (contract option) * (9 # 10)) (bid (contract option))
      then BULLISH
      else if PutCall_eqb (optionType option) PUT
              && Qlt_bool (ask (contract option) * (9 # 10)) (bid (contract option))
      then BEARISH
      else NEUTRAL
    else NEUTRAL in
  {| hasUnusualVolume := hasUnusualVolume;
     volumeOIRatio := volumeOIRatio;
     signal := signal |}.

End ATMTradeAnalyzer.

(* ================================================================== *)
(** ** The computed values *)
(* ================================================================== *)

(** [MaxPain] and [CreditSpreadAnalyzer] above take [+], [-] and [*] as
    the exact operations; that reading serves for what the guards let
    through, for orderings and for counts.  The values themselves are
    rounded at every step, and a rounded sum can separate two values
    that are equal as real numbers.  [Rounded] embeds the same
    functions with every operation taken in [Binary64], in the order
    the source applies them. *)
Module Rounded.

Module MaxPain.

Record StrikeOI : Type := { callOI : JsNum; putOI : JsNum }.

Definition StrikeMap : Type := list (Q * StrikeOI).

Fixpoint map_get (m : StrikeMap) (k : Q) : option StrikeOI :=
  match m with
  | [] => None
  | (k', v) :: m' => if Qeq_bool k' k then Some v else map_get m' k
  end.

Fixpoint map_set (m : StrikeMap) (k : Q) (v : StrikeOI) : StrikeMap :=
  match m with
  | [] => [(k, v)]
  | (k', v') :: m' =>
      if Qeq_bool k' k then (k', v) :: m' else (k', v') :: map_set m' k v
  end.

Definition get_or_zero (m : StrikeMap) (k : Q) : StrikeOI :=
  match map_get m k with
  | Some e => e
  | None => {| callOI := Fin 0; putOI := Fin 0 |}
  end.

Definition addCall (m : StrikeMap) (call : OptionContract) : StrikeMap :=
  let existing := get_or_zero m (strikePrice call) in
  map_set m (strikePrice call)
    {| callOI := Binary64.add (callOI existing) (Fin (openInterest call));
       putOI := putOI existing |}.

Definition addPut (m : StrikeMap) (put : OptionContract) : StrikeMap :=
  let existing := get_or_zero m (strikePrice put) in
  map_set m (strikePrice put)
    {| callOI := callOI existing;
       putOI := Binary64.add (putOI existing) (Fin (openInterest put)) |}.

Definition buildStrikeMap (calls puts : list OptionContract) : StrikeMap :=
  fold_left addPut puts (fold_left addCall calls []).

(** [pain += otherCallOI * (strike - otherStrike) * 100], and the same
    for the puts. *)
Definition painStep (strike : Q) (pain : JsNum) (entry : Q * StrikeOI) : JsNum :=
  let otherStrike := fst entry in
  let pain :=
    if Qlt_bool otherStrike strike
    then Binary64.add pain
           (Binary64.mul
              (Binary64.mul (callOI (snd entry))
                 (Binary64.sub (Fin strike) (Fin otherStrike)))
              (Fin 100))
    else pain in
  if Qlt_bool strike otherStrike
  then Binary64.add pain
         (Binary64.mul
            (Binary64.mul (putOI (snd entry))
               (Binary64.sub (Fin otherStrike) (Fin strike)))
            (Fin 100))
  else pain.

Definition painAt (m : StrikeMap) (strike : Q) : JsNum :=
  fold_left (painStep strike) m (Fin 0).

Definition scanStep (m : StrikeMap) (st : Q * JsNum) (entry : Q * StrikeOI)
  : Q * JsNum :=
  let pain := painAt m (fst entry) in
  if jslt pain (snd st) then (fst entry, pain) else st.

Definition scan (m entries : StrikeMap) (st : Q * JsNum) : Q * JsNum :=
  fold_left (scanStep m) entries st.

Definition calculateMaxPain (calls puts : list OptionContract) : Q :=
  let strikeMap := buildStrikeMap calls puts in
  fst (scan strikeMap strikeMap (0, PosInf)).

(** The pain the loop computes for settlement at [strike]. *)
Definition pain (calls puts : list OptionContract) (strike : Q) : JsNum :=
  painAt (buildStrikeMap calls puts) strike.

End MaxPain.

Module CreditSpreadAnalyzer.

Record SpreadOpportunity : Type := {
  spreadType : PutCall;
  shortStrike : Q;
  longStrike : Q;
  shortOption : OptionContract;
  longOption : OptionContract;
  creditReceived : JsNum;
  maxProfit : JsNum;
  maxLoss : JsNum;
  breakEven : JsNum;
  riskRewardRatio : JsNum;
  probabilityOfProfit : JsNum;
  deltaSpread : JsNum;
  width : JsNum
}.

Definition loopBody (optionType : PutCall) (opt1 opt2 : OptionContract)
  : option SpreadOpportunity :=
  let shortOption := match optionType with CALL => opt1 | PUT => opt2 end in
  let longOption := match optionType with CALL => opt2 | PUT => opt1 end in
  let width :=
    Binary64.abs
      (Binary64.sub (Fin (strikePrice shortOption)) (Fin (strikePrice longOption))) in
  if jslt width (Fin CreditSpreadAnalyzer.MIN_WIDTH)
     || jsgt width (Fin CreditSpreadAnalyzer.MAX_WIDTH) then None
  else
    let creditReceived :=
      Binary64.sub (Fin (bid shortOption)) (Fin (ask longOption)) in
    if jslt creditReceived (Fin CreditSpreadAnalyzer.MIN_CREDIT) then None
    else
      let maxProfit := Binary64.mul creditReceived (Fin 100) in
      let maxLoss := Binary64.mul (Binary64.sub width creditReceived) (Fin 100) in
      let breakEven :=
        match optionType with
        | CALL => Binary64.add (Fin (strikePrice shortOption)) creditReceived
        | PUT => Binary64.sub (Fin (strikePrice shortOption)) creditReceived
        end in
      let riskRewardRatio :=
        if jsgt maxLoss (Fin 0) then Binary64.div maxProfit maxLoss else Fin 0 in
      let probabilityOfProfit :=
        match optionType with
        | CALL =>
            Binary64.mul
              (Binary64.sub (Fin 1) (Binary64.abs (Fin (delta shortOption))))
              (Fin 100)
        | PUT => Binary64.mul (Binary64.abs (Fin (delta shortOption))) (Fin 100)
        end in
      let deltaSpread :=
        Binary64.abs
          (Binary64.sub (Fin (delta shortOption)) (Fin (delta longOption))) in
      Some {| spreadType := optionType;
              shortStrike := strikePrice shortOption;
              longStrike := strikePrice longOption;
              shortOption := shortOption;
              longOption := longOption;
              creditReceived := creditReceived;
              maxProfit := maxProfit;
              maxLoss := maxLoss;
              breakEven := breakEven;
              riskRewardRatio := riskRewardRatio;
              probabilityOfProfit := probabilityOfProfit;
              deltaSpread := deltaSpread;
              width := width |}.

Definition filteredOptions (options : list OptionContract) (optionType : PutCall)
  : list OptionContract :=
  JsArray.sort
    (fun a b => Binary64.sub (Fin (strikePrice a)) (Fin (strikePrice b)))
    (filter (fun opt => PutCall_eqb (putCall opt) optionType) options).

Definition enumerated (options : list OptionContract) (optionType : PutCall)
  : list SpreadOpportunity :=
  flat_map
    (fun p => CreditSpreadAnalyzer.pushed (loopBody optionType (fst p) (snd p)))
    (CreditSpreadAnalyzer.pairs (filteredOptions options optionType)).

Definition calculateCreditSpreads (options : list OptionContract)
    (optionType : PutCall) (underlyingPrice : Q) : list SpreadOpportunity :=
  JsArray.sort
    (fun a b => Binary64.sub (riskRewardRatio b) (riskRewardRatio a))
    (enumerated options optionType).

End CreditSpreadAnalyzer.

Module ATMTradeAnalyzer.

(** [analyzeOrderFlow] with the quotient [volume / openInterest] and
    the product [ask * 0.9] as the program computes them; [0.9] is the
    value of the format nearest to nine tenths. *)
Definition analyzeOrderFlow (option : ATMTradeAnalyzer.ATMOption)
  : ATMTradeAnalyzer.OrderFlow :=
  let contract := ATMTradeAnalyzer.contract option in
  let volume := totalVolume contract in
  let openInterest := openInterest contract in
  let volumeOIRatio :=
    if Qlt_bool 0 openInterest
    then Binary64.div (Fin volume) (Fin openInterest) else Fin 0 in
  let hasUnusualVolume := jsgt volumeOIRatio (Fin (1 # 2)) in
  let aggressive :=
    jsgt (Fin (bid contract))
      (Binary64.mul (Fin (ask contract)) (Fin (Binary64.lit (9 # 10)))) in
  let signal :=
    if hasUnusualVolume then
      if PutCall_eqb (ATMTradeAnalyzer.optionType option) CALL && aggressive
      then ATMTradeAnalyzer.BULLISH
      else if PutCall_eqb (ATMTradeAnalyzer.optionType option) PUT && aggressive
      then ATMTradeAnalyzer.BEARISH
      else ATMTradeAnalyzer.NEUTRAL
    else ATMTradeAnalyzer.NEUTRAL in
  {| ATMTradeAnalyzer.hasUnusualVolume := hasUnusualVolume;
     ATMTradeAnalyzer.volumeOIRatio := volumeOIRatio;
     ATMTradeAnalyzer.signal := signal |}.

End ATMTradeAnalyzer.

End Rounded.

(* ================================================================== *)
(** * Properties *)
(* ================================================================== *)

(** ** Numbers *)

Lemma Qlt_bool_iff (a b : Q) : Qlt_bool a b = true <-> a < b.
Proof.
  unfold Qlt_bool. rewrite negb_true_iff.
  split; intro H.
  - apply Qnot_le_lt. intro Hle. apply Qle_bool_iff in Hle. congruence.
  - destruct (Qle_bool b a) eqn:E; [|reflexivity].
    apply Qle_bool_iff in E. lra.
Qed.

Lemma Qlt_bool_false (a b : Q) : Qlt_bool a b = false <-> b <= a.
Proof.
  unfold Qlt_bool. rewrite negb_false_iff. apply Qle_bool_iff.
Qed.

Lemma Qeq_bool_false (a b : Q) : Qeq_bool a b = false <-> ~ a == b.
Proof.
  split.
  - apply Qeq_bool_neq.
  - intro H. destruct (Qeq_bool a b) eqn:E; [|reflexivity].
    apply Qeq_bool_iff in E. contradiction.
Qed.

(** Turns boolean tests on rationals in the context into propositions. *)
Ltac qprop :=
  repeat match goal with
  | H : Qlt_bool _ _ = true |- _ => apply Qlt_bool_iff in H
  | H : Qlt_bool _ _ = false |- _ => apply Qlt_bool_false in H
  | H : Qle_bool _ _ = true |- _ => apply Qle_bool_iff in H
  | H : Qeq_bool _ _ = true |- _ => apply Qeq_bool_iff in H
  | H : Qeq_bool _ _ = false |- _ => apply Qeq_bool_false in H
  | H : _ || _ = false |- _ => apply orb_false_iff in H; destruct H
  | H : _ || _ = true |- _ => apply orb_true_iff in H
  | H : _ && _ = true |- _ => apply andb_true_iff in H; destruct H
  end.

Lemma jsdiv_nonzero (a b : Q) : ~ b == 0 -> jsdiv a b = Fin (a / b).
Proof.
  intro Hb. unfold jsdiv.
  destruct (Qeq_bool b 0) eqn:E; [|reflexivity].
  apply Qeq_bool_iff in E. contradiction.
Qed.

Lemma jsdiv_zero_not_finite (a b : Q) : b == 0 -> is_finite (jsdiv a b) = false.
Proof.
  intro Hb. unfold jsdiv. rewrite (Qeq_eq_bool _ _ Hb).
  destruct (Qeq_bool a 0); [reflexivity|].
  destruct (Qlt_bool 0 a); reflexivity.
Qed.

(** ** Rounding *)

Section Rounding.
Import Binary64.

(** *** Powers of two *)

Lemma p2_pos e : 0 < 2 ^ e.
Proof. apply Qpower_0_lt. reflexivity. Qed.

Lemma p2_add a b : 2 ^ (a + b) == 2 ^ a * 2 ^ b.
Proof. apply Qpower_plus. discriminate. Qed.

Lemma p2_le a b : (a <= b)%Z -> 2 ^ a <= 2 ^ b.
Proof. intros H. apply Qpower_le_compat_l; [exact H | discriminate]. Qed.

Lemma p2_lt_inv a b : 2 ^ a < 2 ^ b -> (a < b)%Z.
Proof. intros H. apply (Qpower_lt_compat_l_inv 2); [exact H | reflexivity]. Qed.

Lemma p2_int e : (0 <= e)%Z -> 2 ^ e == inject_Z (2 ^ e).
Proof. intros H. symmetry. apply (Zpower_Qpower 2 e H). Qed.

Lemma p2_succ e : 2 ^ (e + 1) == 2 * 2 ^ e.
Proof. rewrite p2_add. change (2 ^ 1) with 2. ring. Qed.

Lemma ilog2_aux (q D N K K1 R P : Q) :
  q * D == N -> P <= N -> N < 2 * P -> R <= D -> D < 2 * R ->
  K * R == P -> 2 * K1 == K -> 0 < K -> 0 < R ->
  (K <= q -> q < 2 * K) /\ (q < K -> K1 <= q).
Proof.
  intros HqD HP1 HP2 HR1 HR2 HK HK1 HKpos HRpos. split; intros H.
  - apply Qnot_le_lt. intros Hc.
    assert (2 * K * R <= q * D).
    { apply Qle_trans with (2 * K * D).
      - apply Qmult_le_l; [lra | exact HR1].
      - apply Qmult_le_compat_r; [exact Hc | lra]. }
    lra.
  - apply Qnot_lt_le. intros Hc.
    assert (q * D < K1 * (2 * R)).
    { apply Qle_lt_trans with (K1 * D).
      - apply Qmult_le_compat_r; [lra | lra].
      - apply Qmult_lt_l; [lra | exact HR2]. }
    assert (K1 * (2 * R) == P) by (rewrite <- HK, <- HK1; ring).
    lra.
Qed.

(** *** The binary logarithm *)

Lemma ilog2_spec q : 0 < q -> 2 ^ ilog2 q <= q /\ q < 2 ^ (ilog2 q + 1).
Proof.
  intros Hq. unfold ilog2. destruct q as [n d]. cbn [Qnum Qden].
  assert (Hn : (0 < n)%Z) by (unfold Qlt in Hq; simpl in Hq; lia).
  set (a := Z.log2 n). set (b := Z.log2 (Zpos d)).
  destruct (Z.log2_spec n Hn) as [Ha1 Ha2]. fold a in Ha1, Ha2.
  destruct (Z.log2_spec (Zpos d) eq_refl) as [Hb1 Hb2]. fold b in Hb1, Hb2.
  assert (Ha0 : (0 <= a)%Z) by apply Z.log2_nonneg.
  assert (Hb0 : (0 <= b)%Z) by apply Z.log2_nonneg.
  assert (A1 : 2 ^ a <= inject_Z n) by (rewrite p2_int by exact Ha0; rewrite <- Zle_Qle; exact Ha1).
  assert (A2 : inject_Z n < 2 * 2 ^ a).
  { rewrite <- p2_succ. rewrite p2_int by lia. rewrite <- Zlt_Qlt.
    replace (a + 1)%Z with (Z.succ a) by lia. exact Ha2. }
  assert (B1 : 2 ^ b <= inject_Z (Zpos d)) by (rewrite p2_int by exact Hb0; rewrite <- Zle_Qle; exact Hb1).
  assert (B2 : inject_Z (Zpos d) < 2 * 2 ^ b).
  { rewrite <- p2_succ. rewrite p2_int by lia. rewrite <- Zlt_Qlt.
    replace (b + 1)%Z with (Z.succ b) by lia. exact Hb2. }
  assert (HK : 2 ^ (a - b) * 2 ^ b == 2 ^ a).
  { rewrite <- p2_add. replace (a - b + b)%Z with a by ring. reflexivity. }
  assert (HKm : 2 * 2 ^ (a - b - 1) == 2 ^ (a - b)).
  { rewrite <- p2_succ. replace (a - b - 1 + 1)%Z with (a - b)%Z by ring. reflexivity. }
  assert (Hq' : (n # d) * inject_Z (Zpos d) == inject_Z n).
  { unfold Qeq, Qmult, inject_Z. simpl. lia. }
  destruct (ilog2_aux _ _ _ _ _ _ _ Hq' A1 A2 B1 B2 HK HKm (p2_pos _) (p2_pos _))
    as [Hup Hdown].
  destruct (Qle_bool (2 ^ (a - b)) (n # d)) eqn:E.
  - apply Qle_bool_iff in E. split; [exact E|]. rewrite p2_succ. auto.
  - assert (E' : n # d < 2 ^ (a - b)).
    { apply Qnot_le_lt. intros Hc. apply Qle_bool_iff in Hc. congruence. }
    split; [auto|]. replace (a - b - 1 + 1)%Z with (a - b)%Z by ring. exact E'.
Qed.

(** *** Rounding to an integer *)

Lemma floor_bounds x : inject_Z (Qfloor x) <= x /\ x < inject_Z (Qfloor x) + 1.
Proof.
  split; [apply Qfloor_le|]. pose proof (Qlt_floor x) as H.
  rewrite inject_Z_plus in H. exact H.
Qed.

Lemma rne_cases x :
  (rne x = Qfloor x /\ x - inject_Z (Qfloor x) <= 1 # 2) \/
  (rne x = (Qfloor x + 1)%Z /\ 1 # 2 <= x - inject_Z (Qfloor x)).
Proof.
  unfold rne. destruct (Qlt_bool _ (1 # 2)) eqn:E1.
  - apply Qlt_bool_iff in E1. left. split; [reflexivity | lra].
  - apply Qlt_bool_false in E1. destruct (Qlt_bool (1 # 2) _) eqn:E2.
    + right. split; [reflexivity | exact E1].
    + apply Qlt_bool_false in E2. destruct (Z.even _); [left | right]; split; auto.
Qed.

Lemma rne_le x n : x <= inject_Z n -> (rne x <= n)%Z.
Proof.
  intros H. destruct (floor_bounds x) as [F1 F2].
  destruct (rne_cases x) as [[-> _] | [-> Hr]].
  - rewrite Zle_Qle. lra.
  - assert (inject_Z (Qfloor x) < inject_Z n) by lra.
    rewrite <- Zlt_Qlt in H0. lia.
Qed.

Lemma rne_ge x n : inject_Z n <= x -> (n <= rne x)%Z.
Proof.
  intros H. pose proof (Qfloor_resp_le _ _ H) as Hf. rewrite Qfloor_Z in Hf.
  destruct (rne_cases x) as [[-> _] | [-> _]]; lia.
Qed.

Lemma rne_Z n : rne (inject_Z n) = n.
Proof.
  apply Z.le_antisymm; [apply rne_le | apply rne_ge]; lra.
Qed.

Lemma rne_mono x y : x <= y -> (rne x <= rne y)%Z.
Proof.
  intros H. pose proof (Qfloor_resp_le _ _ H) as Hf.
  destruct (floor_bounds x) as [X1 X2]. destruct (floor_bounds y) as [Y1 Y2].
  destruct (Z.eq_dec (Qfloor x) (Qfloor y)) as [Heq | Hne].
  - unfold rne. rewrite <- Heq in *.
    destruct (Qlt_bool (x - _) (1 # 2)) eqn:Ex1.
    + destruct (Qlt_bool (y - _) (1 # 2)); [lia|].
      destruct (Qlt_bool (1 # 2) (y - _)); [lia|]. destruct (Z.even _); lia.
    + apply Qlt_bool_false in Ex1.
      destruct (Qlt_bool (y - _) (1 # 2)) eqn:Ey1.
      { apply Qlt_bool_iff in Ey1. lra. }
      destruct (Qlt_bool (1 # 2) (x - _)) eqn:Ex2.
      { apply Qlt_bool_iff in Ex2.
        replace (Qlt_bool (1 # 2) (y - inject_Z (Qfloor x))) with true; [lia|].
        symmetry. apply Qlt_bool_iff. lra. }
      destruct (Qlt_bool (1 # 2) (y - _)); [destruct (Z.even _); lia|].
      destruct (Z.even _); lia.
  - assert (Qfloor x + 1 <= Qfloor y)%Z by lia.
    destruct (rne_cases x) as [[-> _] | [-> _]];
    destruct (rne_cases y) as [[-> _] | [-> _]]; lia.
Qed.

Lemma rne_compat x y : x == y -> rne x = rne y.
Proof.
  intros H. apply Z.le_antisymm; apply rne_mono; lra.
Qed.

(** *** Rounding to the grid *)

Lemma scaled_le q e n : q <= inject_Z n * 2 ^ e -> (rne (q / 2 ^ e) <= n)%Z.
Proof.
  intros H. apply rne_le. pose proof (p2_pos e) as Hp.
  apply Qle_shift_div_r; [exact Hp | exact H].
Qed.

Lemma scaled_ge q e n : inject_Z n * 2 ^ e <= q -> (n <= rne (q / 2 ^ e))%Z.
Proof.
  intros H. apply rne_ge. pose proof (p2_pos e) as Hp.
  apply Qle_shift_div_l; [exact Hp | exact H].
Qed.

Lemma nearest_le q n :
  q <= inject_Z n * 2 ^ ulp_exp q -> nearest q <= inject_Z n * 2 ^ ulp_exp q.
Proof.
  intros H. unfold nearest. apply Qmult_le_compat_r.
  - rewrite <- Zle_Qle. apply scaled_le, H.
  - apply Qlt_le_weak, p2_pos.
Qed.

Lemma nearest_ge q n :
  inject_Z n * 2 ^ ulp_exp q <= q -> inject_Z n * 2 ^ ulp_exp q <= nearest q.
Proof.
  intros H. unfold nearest. apply Qmult_le_compat_r.
  - rewrite <- Zle_Qle. apply scaled_ge, H.
  - apply Qlt_le_weak, p2_pos.
Qed.

Lemma nearest_nonneg q : 0 <= q -> 0 <= nearest q.
Proof.
  intros H. pose proof (nearest_ge q 0) as G.
  assert (E : inject_Z 0 * 2 ^ ulp_exp q == 0) by ring.
  rewrite E in G. auto.
Qed.

Lemma nearest_nonpos q : q <= 0 -> nearest q <= 0.
Proof.
  intros H. pose proof (nearest_le q 0) as G.
  assert (E : inject_Z 0 * 2 ^ ulp_exp q == 0) by ring.
  rewrite E in G. auto.
Qed.

(** [2 ^ k] on the grid of exponent [e <= k]. *)
Lemma p2_grid k e : (e <= k)%Z -> inject_Z (2 ^ (k - e)) * 2 ^ e == 2 ^ k.
Proof.
  intros H. rewrite <- p2_int by lia. rewrite <- p2_add.
  replace (k - e + e)%Z with k by ring. reflexivity.
Qed.

Lemma abs_spec q : ~ q == 0 ->
  2 ^ ilog2 (Qabs q) <= Qabs q /\ Qabs q < 2 ^ (ilog2 (Qabs q) + 1).
Proof.
  intros H. apply ilog2_spec.
  pose proof (Qabs_nonneg q) as Hn. apply Qle_lt_or_eq in Hn.
  destruct Hn as [Hn | Hn]; [exact Hn|].
  exfalso. apply H. revert Hn. apply Qabs_case; intros; lra.
Qed.

Lemma nearest_mono_pos q1 q2 : 0 < q1 -> q1 <= q2 -> nearest q1 <= nearest q2.
Proof.
  intros H1 H12.
  assert (A1 : Qabs q1 == q1) by (apply Qabs_pos; lra).
  assert (A2 : Qabs q2 == q2) by (apply Qabs_pos; lra).
  destruct (abs_spec q1) as [L1 U1]; [lra|]. destruct (abs_spec q2) as [L2 U2]; [lra|].
  assert (Hk : (ilog2 (Qabs q1) <= ilog2 (Qabs q2))%Z).
  { assert (ilog2 (Qabs q1) < ilog2 (Qabs q2) + 1)%Z by (apply p2_lt_inv; lra). lia. }
  destruct (Z.eq_dec (ulp_exp q1) (ulp_exp q2)) as [He | Hne].
  - unfold nearest. rewrite He. apply Qmult_le_compat_r.
    + rewrite <- Zle_Qle. apply rne_mono. apply Qmult_le_compat_r; [exact H12|].
      apply Qinv_le_0_compat, Qlt_le_weak, p2_pos.
    + apply Qlt_le_weak, p2_pos.
  - pose proof (eq_refl : ulp_exp q1 = Z.max (ilog2 (Qabs q1) - 52) emin) as D1.
    pose proof (eq_refl : ulp_exp q2 = Z.max (ilog2 (Qabs q2) - 52) emin) as D2.
    set (k1 := ilog2 (Qabs q1)) in *. set (k2 := ilog2 (Qabs q2)) in *.
    unfold emin in D1, D2.
    assert (He2 : ulp_exp q2 = (k2 - 52)%Z) by lia.
    assert (Hk12 : (k1 + 1 <= k2)%Z) by lia.
    assert (He1 : (ulp_exp q1 <= k2)%Z) by lia.
    apply Qle_trans with (2 ^ k2).
    + rewrite <- (p2_grid k2 (ulp_exp q1) He1). apply nearest_le.
      rewrite (p2_grid k2 (ulp_exp q1) He1).
      pose proof (p2_le (k1 + 1) k2 Hk12). lra.
    + assert (He2' : (ulp_exp q2 <= k2)%Z) by lia.
      rewrite <- (p2_grid k2 (ulp_exp q2) He2'). apply nearest_ge.
      rewrite (p2_grid k2 (ulp_exp q2) He2'). lra.
Qed.

Lemma nearest_mono_neg q1 q2 : q2 < 0 -> q1 <= q2 -> nearest q1 <= nearest q2.
Proof.
  intros H2 H12.
  assert (A1 : Qabs q1 == - q1) by (apply Qabs_neg; lra).
  assert (A2 : Qabs q2 == - q2) by (apply Qabs_neg; lra).
  destruct (abs_spec q1) as [L1 U1]; [lra|]. destruct (abs_spec q2) as [L2 U2]; [lra|].
  assert (Hk : (ilog2 (Qabs q2) <= ilog2 (Qabs q1))%Z).
  { assert (ilog2 (Qabs q2) < ilog2 (Qabs q1) + 1)%Z by (apply p2_lt_inv; lra). lia. }
  destruct (Z.eq_dec (ulp_exp q1) (ulp_exp q2)) as [He | Hne].
  - unfold nearest. rewrite He. apply Qmult_le_compat_r.
    + rewrite <- Zle_Qle. apply rne_mono. apply Qmult_le_compat_r; [exact H12|].
      apply Qinv_le_0_compat, Qlt_le_weak, p2_pos.
    + apply Qlt_le_weak, p2_pos.
  - pose proof (eq_refl : ulp_exp q1 = Z.max (ilog2 (Qabs q1) - 52) emin) as D1.
    pose proof (eq_refl : ulp_exp q2 = Z.max (ilog2 (Qabs q2) - 52) emin) as D2.
    set (k1 := ilog2 (Qabs q1)) in *. set (k2 := ilog2 (Qabs q2)) in *.
    unfold emin in D1, D2.
    assert (He1 : ulp_exp q1 = (k1 - 52)%Z) by lia.
    assert (Hk12 : (k2 + 1 <= k1)%Z) by lia.
    assert (He2 : (ulp_exp q2 <= k1)%Z) by lia.
    assert (He1' : (ulp_exp q1 <= k1)%Z) by lia.
    assert (G : forall e, (e <= k1)%Z -> inject_Z (- 2 ^ (k1 - e)) * 2 ^ e == - 2 ^ k1).
    { intros e He. rewrite inject_Z_opp. rewrite <- (p2_grid k1 e He). ring. }
    apply Qle_trans with (- 2 ^ k1).
    + rewrite <- (G _ He1'). apply nearest_le. rewrite (G _ He1'). lra.
    + rewrite <- (G _ He2). apply nearest_ge. rewrite (G _ He2).
      pose proof (p2_le (k2 + 1) k1 Hk12). lra.
Qed.

Lemma nearest_mono q1 q2 : q1 <= q2 -> nearest q1 <= nearest q2.
Proof.
  intros H. destruct (Qlt_le_dec 0 q1) as [P | N].
  - apply nearest_mono_pos; assumption.
  - destruct (Qlt_le_dec q2 0) as [N2 | P2].
    + apply nearest_mono_neg; assumption.
    + apply Qle_trans with 0; [apply nearest_nonpos | apply nearest_nonneg]; assumption.
Qed.

Lemma zero_div (a b : Q) : a == 0 -> a / b == inject_Z 0.
Proof. intros H. unfold Qdiv. rewrite H. ring. Qed.

Lemma nearest_zero q : q == 0 -> nearest q == 0.
Proof.
  intros H. unfold nearest.
  pose proof (zero_div q (2 ^ ulp_exp q) H) as E.
  rewrite (rne_compat _ _ E), rne_Z. ring.
Qed.

(** Every value of the format is a fixed point of the rounding. *)
Lemma nearest_exact q : representable q -> nearest q == q.
Proof.
  intros (m & e0 & Hm & He0 & _ & Hq).
  destruct (Qeq_dec q 0) as [Hz | Hnz].
  { rewrite nearest_zero by exact Hz. symmetry. exact Hz. }
  assert (Hle : (ulp_exp q <= e0)%Z).
  { destruct (abs_spec q Hnz) as [L U].
    assert (Habs : Qabs q == inject_Z (Z.abs m) * 2 ^ e0).
    { rewrite Hq, Qabs_Qmult. change (Qabs (inject_Z m)) with (inject_Z (Z.abs m)).
      rewrite (Qabs_pos (2 ^ e0)); [reflexivity|].
      apply Qlt_le_weak, p2_pos. }
    assert (Hlt : Qabs q < 2 ^ (53 + e0)).
    { rewrite Habs, p2_add. apply Qmult_lt_compat_r; [apply p2_pos|].
      rewrite p2_int by lia. rewrite <- Zlt_Qlt. exact Hm. }
    assert (ilog2 (Qabs q) < 53 + e0)%Z by (apply p2_lt_inv; lra).
    unfold ulp_exp. lia. }
  assert (G : inject_Z (m * 2 ^ (e0 - ulp_exp q)) * 2 ^ ulp_exp q == q).
  { rewrite inject_Z_mult, <- Qmult_assoc, (p2_grid e0 _ Hle). symmetry. exact Hq. }
  apply Qle_antisym.
  - rewrite <- G at 2. apply nearest_le. rewrite G. lra.
  - rewrite <- G at 1. apply nearest_ge. rewrite G. lra.
Qed.

Lemma representable_bound q : representable q -> Qabs q < 2 ^ emax.
Proof.
  intros (m & e & Hm & _ & He & Hq).
  apply Qlt_le_trans with (2 ^ (53 + e)); [|apply p2_le; lia].
  rewrite Hq, Qabs_Qmult. change (Qabs (inject_Z m)) with (inject_Z (Z.abs m)).
  rewrite (Qabs_pos (2 ^ e)) by apply Qlt_le_weak, p2_pos.
  rewrite p2_add. apply Qmult_lt_compat_r; [apply p2_pos|].
  rewrite p2_int by lia. rewrite <- Zlt_Qlt. exact Hm.
Qed.

(** *** The rounded value *)

Lemma fl_cases q :
  (fl q = PosInf /\ 2 ^ emax <= nearest q) \/
  (fl q = NegInf /\ nearest q <= - 2 ^ emax) \/
  (fl q = Fin (Qred (nearest q)) /\
   - 2 ^ emax < nearest q /\ nearest q < 2 ^ emax).
Proof.
  unfold fl. cbv zeta.
  destruct (Qle_bool (2 ^ emax) (nearest q)) eqn:E1.
  { left. split; [reflexivity|]. now apply Qle_bool_iff. }
  destruct (Qle_bool (nearest q) (- 2 ^ emax)) eqn:E2.
  { right. left. split; [reflexivity|]. now apply Qle_bool_iff. }
  right. right. split; [reflexivity|]. split; apply Qnot_le_lt; intro H;
    apply Qle_bool_iff in H; congruence.
Qed.

Lemma fl_not_NaN q : fl q <> NaN.
Proof.
  destruct (fl_cases q) as [[-> _]|[[-> _]|[-> _]]]; discriminate.
Qed.

(** Rounding never reverses an order. *)
Lemma fl_mono q1 q2 : q1 <= q2 -> jsle (fl q1) (fl q2) = true.
Proof.
  intro H. apply nearest_mono in H. pose proof (p2_pos emax) as Hp.
  destruct (fl_cases q1) as [[-> A]|[[-> A]|[-> [A A']]]];
  destruct (fl_cases q2) as [[-> B]|[[-> B]|[-> [B B']]]];
    try reflexivity; try (exfalso; lra).
  cbn [jsle]. apply Qle_bool_iff. now rewrite !Qred_correct.
Qed.

Lemma fl_exact q : representable q -> fl q = Fin (Qred q).
Proof.
  intro R. pose proof (nearest_exact q R) as E.
  pose proof (representable_bound q R) as B.
  apply Qabs_Qlt_condition in B.
  destruct (fl_cases q) as [[_ A]|[[_ A]|[-> _]]]; try (exfalso; lra).
  f_equal. now apply Qred_complete.
Qed.

Lemma jsle_compat_r (x : JsNum) (b b' : Q) :
  b == b' -> jsle x (Fin b) = jsle x (Fin b').
Proof.
  intro E. destruct x; try reflexivity. cbn [jsle].
  destruct (Qle_bool q b) eqn:E1, (Qle_bool q b') eqn:E2; try reflexivity;
    exfalso.
  - apply Qle_bool_iff in E1. rewrite E in E1. apply Qle_bool_iff in E1. congruence.
  - apply Qle_bool_iff in E2. rewrite <- E in E2. apply Qle_bool_iff in E2. congruence.
Qed.

Lemma jsle_compat_l (x : JsNum) (b b' : Q) :
  b == b' -> jsle (Fin b) x = jsle (Fin b') x.
Proof.
  intro E. destruct x; try reflexivity. cbn [jsle].
  destruct (Qle_bool b q) eqn:E1, (Qle_bool b' q) eqn:E2; try reflexivity;
    exfalso.
  - apply Qle_bool_iff in E1. rewrite E in E1. apply Qle_bool_iff in E1. congruence.
  - apply Qle_bool_iff in E2. rewrite <- E in E2. apply Qle_bool_iff in E2. congruence.
Qed.

(** A value of the format bounds the rounded result as it bounds the
    exact one. *)
Lemma fl_le_bound q c : representable c -> q <= c -> jsle (fl q) (Fin c) = true.
Proof.
  intros R H. apply fl_mono in H. rewrite (fl_exact c R) in H.
  rewrite <- H. apply jsle_compat_r. symmetry. apply Qred_correct.
Qed.

Lemma fl_ge_bound q c : representable c -> c <= q -> jsle (Fin c) (fl q) = true.
Proof.
  intros R H. apply fl_mono in H. rewrite (fl_exact c R) in H.
  rewrite <- H. apply jsle_compat_l. symmetry. apply Qred_correct.
Qed.

End Rounding.

(** *** Agreement with the Standard Library's IEEE 754 specification *)

(** [SpecFloat] is the executable specification of binary floating
    point the Standard Library states its primitive floats against.
    [Binary64] is written on rationals, where order and bounds are
    plain arithmetic; on the operands below it returns what [SpecFloat]
    returns at precision 53 and exponent bound 1024. *)
Definition of_spec (x : SpecFloat.spec_float) : JsNum :=
  match x with
  | SpecFloat.S754_zero _ => Fin 0
  | SpecFloat.S754_infinity false => PosInf
  | SpecFloat.S754_infinity true => NegInf
  | SpecFloat.S754_nan => NaN
  | SpecFloat.S754_finite s m e =>
      Fin (Qred ((if s then - inject_Z (Zpos m) else inject_Z (Zpos m)) * 2 ^ e))
  end.

Definition same_number (x y : JsNum) : bool :=
  match x, y with
  | Fin a, Fin b => Qeq_bool a b
  | PosInf, PosInf | NegInf, NegInf | NaN, NaN => true
  | _, _ => false
  end.

(** The whole number [n], and the decimal [n / d] as the format holds it. *)
Definition spec_whole (n : Z) : SpecFloat.spec_float :=
  SpecFloat.binary_normalize 53 1024 n 0 false.

Definition spec_decimal (n d : Z) : SpecFloat.spec_float :=
  SpecFloat.SFdiv 53 1024 (spec_whole n) (spec_whole d).

(** Numbers of the scenarios, the least and the greatest positive value
    of the format, the infinities and NaN. *)
Definition spec_operands : list SpecFloat.spec_float :=
  [ spec_whole 0; spec_whole 1; spec_whole (-1); spec_whole 5; spec_whole 100;
    spec_decimal 12 10; spec_decimal 6 10; spec_decimal 9 10;
    spec_decimal 33 10; spec_decimal 115 100; spec_decimal (-1234) 100;
    spec_decimal 1002 10; spec_decimal 1 3;
    SpecFloat.S754_finite false 1 (-1074);
    SpecFloat.S754_finite false 9007199254740991 971;
    SpecFloat.S754_infinity false; SpecFloat.S754_infinity true;
    SpecFloat.S754_nan ].

Definition agree_on (x y : SpecFloat.spec_float) : bool :=
  same_number (of_spec (SpecFloat.SFadd 53 1024 x y))
    (Binary64.add (of_spec x) (of_spec y))
  && same_number (of_spec (SpecFloat.SFsub 53 1024 x y))
       (Binary64.sub (of_spec x) (of_spec y))
  && same_number (of_spec (SpecFloat.SFmul 53 1024 x y))
       (Binary64.mul (of_spec x) (of_spec y))
  && same_number (of_spec (SpecFloat.SFdiv 53 1024 x y))
       (Binary64.div (of_spec x) (of_spec y))
  && Bool.eqb (SpecFloat.SFltb x y) (jslt (of_spec x) (of_spec y))
  && Bool.eqb (SpecFloat.SFleb x y) (jsle (of_spec x) (of_spec y)).

Lemma agrees_with_SpecFloat :
  forallb (fun x => forallb (agree_on x) spec_operands) spec_operands = true.
Proof. vm_compute. reflexivity. Qed.

(** Proves that a numeral is a value of the format from its significand
    and exponent. *)
Ltac representable m e :=
  exists m, e; split; [|split; [|split]];
  [ reflexivity | unfold Binary64.emin; lia | unfold Binary64.emax; lia
  | reflexivity ].

(** ** Sorting *)

Section SortFacts.
Context {A : Type}.
Variable comparefn : A -> A -> JsNum.

Lemma insert_perm (x : A) (l : list A) :
  Permutation (x :: l) (JsArray.insert comparefn x l).
Proof.
  induction l as [|y t IH]; simpl; [reflexivity|].
  destruct (JsArray.sorts_after comparefn x y); [|reflexivity].
  rewrite perm_swap. now apply perm_skip.
Qed.

Lemma sort_perm (l : list A) : Permutation l (JsArray.sort comparefn l).
Proof.
  induction l as [|x t IH]; simpl; [constructor|].
  rewrite <- insert_perm. now apply perm_skip.
Qed.

Lemma sort_In (l : list A) (x : A) : In x (JsArray.sort comparefn l) <-> In x l.
Proof.
  split; apply Permutation_in; [apply Permutation_sym|]; apply sort_perm.
Qed.

(** Sortedness, for an order [le] that the comparator decides on the
    elements satisfying [P]. *)
Variable P : A -> Prop.
Variable le : A -> A -> Prop.
Hypothesis le_trans : forall a b c, le a b -> le b c -> le a c.
Hypothesis after_true :
  forall a b, P a -> P b -> JsArray.sorts_after comparefn a b = true -> le b a.
Hypothesis after_false :
  forall a b, P a -> P b -> JsArray.sorts_after comparefn a b = false -> le a b.

Lemma insert_sorted (x : A) (l : list A) :
  P x -> Forall P l -> StronglySorted le l ->
  StronglySorted le (JsArray.insert comparefn x l).
Proof.
  intros Px HP HS. induction HS as [|y t HSt IH Hy]; simpl.
  - constructor; constructor.
  - inversion HP as [|? ? Py HPt]; subst.
    destruct (JsArray.sorts_after comparefn x y) eqn:E.
    + constructor; [now apply IH|].
      apply Forall_forall. intros z Hz.
      apply (Permutation_in _ (Permutation_sym (insert_perm x t))) in Hz.
      destruct Hz as [<-|Hz].
      * now apply after_true.
      * rewrite Forall_forall in Hy. now apply Hy.
    + assert (Hxy : le x y) by now apply after_false.
      constructor; [now constructor|].
      constructor; [assumption|].
      apply Forall_forall. intros z Hz.
      rewrite Forall_forall in Hy. eauto.
Qed.

Lemma sort_sorted (l : list A) :
  Forall P l -> StronglySorted le (JsArray.sort comparefn l).
Proof.
  induction l as [|x t IH]; intro HP; simpl; [constructor|].
  inversion HP as [|? ? Px HPt]; subst.
  apply insert_sorted; [assumption| |now apply IH].
  apply Forall_forall. intros z Hz. apply (proj1 (sort_In t z)) in Hz.
  rewrite Forall_forall in HPt. now apply HPt.
Qed.

End SortFacts.

(** A comparator [a.key - b.key] sorts ascending by [key]. *)
Lemma sort_by_key_sorted {A : Type} (key : A -> Q) (l : list A) :
  StronglySorted (fun a b => key a <= key b)
    (JsArray.sort (fun a b => Fin (key a - key b)) l).
Proof.
  apply (sort_sorted _ (fun _ => True)).
  - intros a b c Hab Hbc. lra.
  - intros a b _ _ H. unfold JsArray.sorts_after, jsgt, jslt in H. qprop. lra.
  - intros a b _ _ H. unfold JsArray.sorts_after, jsgt, jslt in H. qprop. lra.
  - apply Forall_forall. trivial.
Qed.

Lemma StronglySorted_nth {A : Type} (R : A -> A -> Prop) (l : list A) :
  StronglySorted R l ->
  forall i j a b, (i < j)%nat ->
    nth_error l i = Some a -> nth_error l j = Some b -> R a b.
Proof.
  induction 1 as [|x t HS IH Hx]; intros i j a b Hij Ha Hb.
  - destruct i; discriminate.
  - destruct j as [|j]; [lia|]. simpl in Hb.
    destruct i as [|i]; simpl in Ha.
    + inversion Ha; subst. rewrite Forall_forall in Hx.
      apply Hx. eapply nth_error_In; eassumption.
    + apply (IH i j); [lia|assumption|assumption].
Qed.

Lemma firstn_incl {A : Type} (n : nat) (l : list A) (x : A) :
  In x (firstn n l) -> In x l.
Proof.
  intro H. rewrite <- (firstn_skipn n l). apply in_or_app. now left.
Qed.

Lemma StronglySorted_firstn {A : Type} (R : A -> A -> Prop) (n : nat) (l : list A) :
  StronglySorted R l -> StronglySorted R (firstn n l).
Proof.
  intro HS. revert n. induction HS as [|x t HS IH Hx]; intro n.
  - rewrite firstn_nil. constructor.
  - destruct n; simpl; constructor; [apply IH|].
    apply Forall_forall. intros z Hz.
    rewrite Forall_forall in Hx. apply Hx.
    eapply firstn_incl; eassumption.
Qed.

(** ** Credit spreads *)

Section CreditSpreads.
Import CreditSpreadAnalyzer.

Definition shortLeg (ty : PutCall) (opt1 opt2 : OptionContract) : OptionContract :=
  match ty with CALL => opt1 | PUT => opt2 end.

Definition longLeg (ty : PutCall) (opt1 opt2 : OptionContract) : OptionContract :=
  match ty with CALL => opt2 | PUT => opt1 end.

(** What a pushed object looks like. *)
Record built (ty : PutCall) (opt1 opt2 : OptionContract) (s : SpreadOpportunity)
  : Prop := {
  b_type : spreadType s = ty;
  b_short : shortOption s = shortLeg ty opt1 opt2;
  b_long : longOption s = longLeg ty opt1 opt2;
  b_shortStrike : shortStrike s = strikePrice (shortOption s);
  b_longStrike : longStrike s = strikePrice (longOption s);
  b_width : width s = Qabs (shortStrike s - longStrike s);
  b_width_min : MIN_WIDTH <= width s;
  b_width_max : width s <= MAX_WIDTH;
  b_credit : creditReceived s = bid (shortOption s) - ask (longOption s);
  b_credit_min : MIN_CREDIT <= creditReceived s;
  b_maxProfit : maxProfit s = creditReceived s * 100;
  b_maxLoss : maxLoss s = (width s - creditReceived s) * 100;
  b_breakEven :
    breakEven s = match ty with
                  | CALL => shortStrike s + creditReceived s
                  | PUT => shortStrike s - creditReceived s
                  end;
  b_ratio :
    riskRewardRatio s =
    if Qlt_bool 0 (maxLoss s) then jsdiv (maxProfit s) (maxLoss s) else Fin 0
}.

Lemma loopBody_built (ty : PutCall) (opt1 opt2 : OptionContract) (s : SpreadOpportunity) :
  loopBody ty opt1 opt2 = Some s -> built ty opt1 opt2 s.
Proof.
  unfold loopBody. fold (shortLeg ty opt1 opt2). fold (longLeg ty opt1 opt2).
  destruct (Qlt_bool _ MIN_WIDTH || Qlt_bool MAX_WIDTH _) eqn:Hw; [discriminate|].
  destruct (Qlt_bool _ MIN_CREDIT) eqn:Hc; [discriminate|].
  intro H. inversion H; subst; clear H. qprop.
  constructor; simpl; try reflexivity; assumption.
Qed.

(** In a sorted array, the element at [i] comes before that at [j > i]. *)
Lemma pairs_sorted {A : Type} (R : A -> A -> Prop) (l : list A) (a b : A) :
  StronglySorted R l -> In (a, b) (pairs l) -> R a b.
Proof.
  induction 1 as [|x t HS IH Hx]; simpl; [tauto|].
  intro H. apply in_app_or in H. destruct H as [H|H].
  - apply in_map_iff in H. destruct H as [y [Hy Hin]].
    inversion Hy; subst. rewrite Forall_forall in Hx. now apply Hx.
  - now apply IH.
Qed.

(** The loops visit exactly the index pairs [i < j]. *)
Lemma pairs_index {A : Type} (l : list A) (a b : A) :
  In (a, b) (pairs l) <->
  exists i j, (i < j)%nat /\ nth_error l i = Some a /\ nth_error l j = Some b.
Proof.
  induction l as [|x t IH]; simpl.
  - split; [tauto|]. intros [i [j [_ [H _]]]]. destruct i; discriminate.
  - rewrite in_app_iff, in_map_iff, IH. split.
    + intros [[y [Hy Hin]]|[i [j [Hij [Hi Hj]]]]].
      * inversion Hy; subst.
        apply In_nth_error in Hin. destruct Hin as [n Hn].
        exists O, (S n). repeat split; [lia|assumption].
      * exists (S i), (S j). repeat split; [lia|assumption|assumption].
    + intros [i [j [Hij [Hi Hj]]]].
      destruct j as [|j]; [lia|]. simpl in Hj.
      destruct i as [|i]; simpl in Hi.
      * left. inversion Hi; subst. exists b. split; [reflexivity|].
        eapply nth_error_In; eassumption.
      * right. exists i, j. repeat split; [lia|assumption|assumption].
Qed.

Lemma enumerated_inv (options : list OptionContract) (ty : PutCall)
    (s : SpreadOpportunity) :
  In s (enumerated options ty) ->
  exists opt1 opt2,
    In (opt1, opt2) (pairs (filteredOptions options ty)) /\
    loopBody ty opt1 opt2 = Some s.
Proof.
  unfold enumerated. intro H. apply in_flat_map in H.
  destruct H as [[opt1 opt2] [Hp Hs]]. simpl in Hs.
  exists opt1, opt2. split; [assumption|].
  destruct (loopBody ty opt1 opt2) as [s'|]; simpl in Hs; [|tauto].
  destruct Hs as [->|[]]. reflexivity.
Qed.

Lemma returned_inv (options : list OptionContract) (ty : PutCall) (u : Q)
    (s : SpreadOpportunity) :
  In s (calculateCreditSpreads options ty u) ->
  exists opt1 opt2,
    In (opt1, opt2) (pairs (filteredOptions options ty)) /\
    built ty opt1 opt2 s.
Proof.
  unfold calculateCreditSpreads. intro H. apply sort_In in H.
  apply enumerated_inv in H. destruct H as [opt1 [opt2 [Hp Hs]]].
  exists opt1, opt2. split; [assumption|now apply loopBody_built].
Qed.

Lemma filteredOptions_ordered (options : list OptionContract) (ty : PutCall)
    (opt1 opt2 : OptionContract) :
  In (opt1, opt2) (pairs (filteredOptions options ty)) ->
  strikePrice opt1 <= strikePrice opt2.
Proof.
  apply (pairs_sorted (fun a b => strikePrice a <= strikePrice b)).
  apply sort_by_key_sorted.
Qed.

(** Every pushed ratio is a finite number: the division is guarded by
    [maxLoss > 0]. *)
Lemma built_ratio_finite (ty : PutCall) (opt1 opt2 : OptionContract)
    (s : SpreadOpportunity) :
  built ty opt1 opt2 s -> is_finite (riskRewardRatio s) = true.
Proof.
  intros B. rewrite (b_ratio _ _ _ _ B).
  destruct (Qlt_bool 0 (maxLoss s)) eqn:E; [|reflexivity].
  qprop. rewrite jsdiv_nonzero; [reflexivity|]. lra.
Qed.

End CreditSpreads.

Definition contract (ty : PutCall) (strike bid_ ask_ : Q) : OptionContract :=
  {| putCall := ty; symbol := EmptyString; bid := bid_; ask := ask_;
     mark := (bid_ + ask_) / 2; totalVolume := 0; delta := 3 # 10;
     openInterest := 0; strikePrice := strike |}.

(** The call spread of the end-to-end scenario: short 650 (bid 1.20),
    long 655 (ask 0.60). *)
Definition scenario_spread_chain : list OptionContract :=
  [ contract CALL 650 (120 # 100) (130 # 100);
    contract CALL 655 (50 # 100) (60 # 100) ].

(** A pair whose credit is 0.40: short bid 2.00, long ask 1.60. *)
Definition thin_credit_chain : list OptionContract :=
  [ contract CALL 650 2 (210 # 100);
    contract CALL 655 (150 # 100) (160 # 100) ].



(** *** The computed economics *)

Section RoundedSpreads.
Import Rounded.CreditSpreadAnalyzer.

(** What a pushed object looks like when every operation is rounded. *)
Record computed (ty : PutCall) (opt1 opt2 : OptionContract) (s : SpreadOpportunity)
  : Prop := {
  r_type : spreadType s = ty;
  r_short : shortOption s = shortLeg ty opt1 opt2;
  r_long : longOption s = longLeg ty opt1 opt2;
  r_shortStrike : shortStrike s = strikePrice (shortOption s);
  r_longStrike : longStrike s = strikePrice (longOption s);
  r_width :
    width s = Binary64.abs (Binary64.sub (Fin (shortStrike s)) (Fin (longStrike s)));
  r_width_min : jslt (width s) (Fin CreditSpreadAnalyzer.MIN_WIDTH) = false;
  r_width_max : jsgt (width s) (Fin CreditSpreadAnalyzer.MAX_WIDTH) = false;
  r_credit :
    creditReceived s
    = Binary64.sub (Fin (bid (shortOption s))) (Fin (ask (longOption s)));
  r_credit_min : jslt (creditReceived s) (Fin CreditSpreadAnalyzer.MIN_CREDIT) = false;
  r_maxProfit : maxProfit s = Binary64.mul (creditReceived s) (Fin 100);
  r_maxLoss :
    maxLoss s = Binary64.mul (Binary64.sub (width s) (creditReceived s)) (Fin 100);
  r_breakEven :
    breakEven s = match ty with
                  | CALL => Binary64.add (Fin (shortStrike s)) (creditReceived s)
                  | PUT => Binary64.sub (Fin (shortStrike s)) (creditReceived s)
                  end;
  r_ratio :
    riskRewardRatio s =
    if jsgt (maxLoss s) (Fin 0) then Binary64.div (maxProfit s) (maxLoss s)
    else Fin 0
}.

Lemma loopBody_computed (ty : PutCall) (opt1 opt2 : OptionContract)
    (s : SpreadOpportunity) :
  loopBody ty opt1 opt2 = Some s -> computed ty opt1 opt2 s.
Proof.
  unfold loopBody. fold (shortLeg ty opt1 opt2). fold (longLeg ty opt1 opt2).
  destruct (jslt _ (Fin CreditSpreadAnalyzer.MIN_WIDTH)
            || jsgt _ (Fin CreditSpreadAnalyzer.MAX_WIDTH)) eqn:Hw; [discriminate|].
  destruct (jslt _ (Fin CreditSpreadAnalyzer.MIN_CREDIT)) eqn:Hc; [discriminate|].
  intro H. inversion H; subst; clear H.
  apply orb_false_iff in Hw. destruct Hw as [Hw1 Hw2].
  constructor; cbn [spreadType shortOption longOption shortStrike longStrike
                    width creditReceived maxProfit maxLoss breakEven
                    riskRewardRatio]; try reflexivity; assumption.
Qed.

Lemma computed_inv (options : list OptionContract) (ty : PutCall) (u : Q)
    (s : SpreadOpportunity) :
  In s (calculateCreditSpreads options ty u) ->
  exists opt1 opt2,
    In (opt1, opt2) (CreditSpreadAnalyzer.pairs (filteredOptions options ty)) /\
    computed ty opt1 opt2 s.
Proof.
  unfold calculateCreditSpreads. intro H. apply sort_In in H.
  unfold enumerated in H. apply in_flat_map in H.
  destruct H as [[opt1 opt2] [Hp Hs]]. simpl in Hs.
  exists opt1, opt2. split; [assumption|].
  destruct (loopBody ty opt1 opt2) as [s'|] eqn:E; simpl in Hs; [|tauto].
  destruct Hs as [->|[]]. now apply loopBody_computed.
Qed.

End RoundedSpreads.

(** A contract as [JSON.parse] delivers it: every decimal of the text
    is the value of the format nearest to it. *)
Definition parsed (c : OptionContract) : OptionContract :=
  {| putCall := putCall c; symbol := symbol c;
     bid := Binary64.lit (bid c); ask := Binary64.lit (ask c);
     mark := Binary64.lit (mark c);
     totalVolume := Binary64.lit (totalVolume c);
     delta := Binary64.lit (delta c);
     openInterest := Binary64.lit (openInterest c);
     strikePrice := Binary64.lit (strikePrice c) |}.

(** The one spread of the scenario, as the program computes it. *)
Lemma scenario_spread_computed (u : Q) :
  exists e,
    Rounded.CreditSpreadAnalyzer.calculateCreditSpreads
      (map parsed scenario_spread_chain) CALL u = [e] /\
    Rounded.CreditSpreadAnalyzer.shortStrike e = 650 /\
    Rounded.CreditSpreadAnalyzer.longStrike e = 655 /\
    Rounded.CreditSpreadAnalyzer.creditReceived e = Fin (Binary64.lit (6 # 10)) /\
    Rounded.CreditSpreadAnalyzer.width e = Fin 5 /\
    Rounded.CreditSpreadAnalyzer.maxProfit e = Fin 60 /\
    Rounded.CreditSpreadAnalyzer.maxLoss e = Fin (440 + (1 # 2 ^ 44)) /\
    Rounded.CreditSpreadAnalyzer.breakEven e = Fin (Binary64.lit (6506 # 10)) /\
    Rounded.CreditSpreadAnalyzer.riskRewardRatio e
    = Binary64.fl (60 / (440 + (1 # 2 ^ 44))).
Proof.
  eexists. split; [vm_compute; reflexivity|].
  repeat split; vm_compute; reflexivity.
Qed.

(** C4 as stated fails: for the spread of the claim, short strike 650
    (bid 1.20) and long strike 655 (ask 0.60), the program computes
    maxLoss 440.00000000000006, the value of the format next above 440,
    which is neither 440 nor the exact (width - creditReceived) x 100 of
    the numbers it holds. *)
Lemma C4_counterexample :
  exists e loss,
    Rounded.CreditSpreadAnalyzer.calculateCreditSpreads
      (map parsed scenario_spread_chain) CALL 648 = [e] /\
    Rounded.CreditSpreadAnalyzer.maxLoss e = Fin loss /\
    ~ loss == 440 /\
    ~ loss == (5 - Binary64.lit (6 # 10)) * 100.
Proof.
  destruct (scenario_spread_computed 648) as [e [He [_ [_ [_ [_ [_ [Hl _]]]]]]]].
  exists e, (440 + (1 # 2 ^ 44)). split; [exact He|]. split; [exact Hl|].
  split; intro H; vm_compute in H; discriminate H.
Qed.

(** C4, amended: for every returned candidate, with [-], [+], [x] and
    [/] the binary64 operations of the program (each result rounded to
    the nearest value of the format), creditReceived = short.bid -
    long.ask, maxProfit = creditReceived x 100, maxLoss = (width -
    creditReceived) x 100, breakEven = short strike + creditReceived
    for CALL and short strike - creditReceived for PUT, riskRewardRatio
    = maxProfit / maxLoss when maxLoss > 0 and 0 otherwise; the CALL
    spread 650 (bid 1.20) / 655 (ask 0.60) yields credit 0.6, width 5,
    maxProfit 60, breakEven 650.6 (the values of the format nearest to
    these decimals) and maxLoss 440 + 2^-44, printed
    440.00000000000006. *)
Theorem C4_spread_economics
    (options : list OptionContract) (optionType : PutCall) (underlyingPrice : Q)
    (s : Rounded.CreditSpreadAnalyzer.SpreadOpportunity) :
  In s (Rounded.CreditSpreadAnalyzer.calculateCreditSpreads
          options optionType underlyingPrice) ->
  let credit := Rounded.CreditSpreadAnalyzer.creditReceived s in
  let profit := Rounded.CreditSpreadAnalyzer.maxProfit s in
  let loss := Rounded.CreditSpreadAnalyzer.maxLoss s in
  (credit = Binary64.sub
              (Fin (bid (Rounded.CreditSpreadAnalyzer.shortOption s)))
              (Fin (ask (Rounded.CreditSpreadAnalyzer.longOption s))) /\
   profit = Binary64.mul credit (Fin 100) /\
   loss = Binary64.mul
            (Binary64.sub (Rounded.CreditSpreadAnalyzer.width s) credit) (Fin 100) /\
   (Rounded.CreditSpreadAnalyzer.spreadType s = CALL ->
    Rounded.CreditSpreadAnalyzer.breakEven s
    = Binary64.add (Fin (Rounded.CreditSpreadAnalyzer.shortStrike s)) credit) /\
   (Rounded.CreditSpreadAnalyzer.spreadType s = PUT ->
    Rounded.CreditSpreadAnalyzer.breakEven s
    = Binary64.sub (Fin (Rounded.CreditSpreadAnalyzer.shortStrike s)) credit) /\
   (jsgt loss (Fin 0) = true ->
    Rounded.CreditSpreadAnalyzer.riskRewardRatio s = Binary64.div profit loss) /\
   (jsgt loss (Fin 0) = false ->
    Rounded.CreditSpreadAnalyzer.riskRewardRatio s = Fin 0))
  /\
  (exists e,
     Rounded.CreditSpreadAnalyzer.calculateCreditSpreads
       (map parsed scenario_spread_chain) CALL underlyingPrice = [e] /\
     Rounded.CreditSpreadAnalyzer.shortStrike e = 650 /\
     Rounded.CreditSpreadAnalyzer.longStrike e = 655 /\
     Rounded.CreditSpreadAnalyzer.creditReceived e = Fin (Binary64.lit (6 # 10)) /\
     Rounded.CreditSpreadAnalyzer.width e = Fin 5 /\
     Rounded.CreditSpreadAnalyzer.maxProfit e = Fin 60 /\
     Rounded.CreditSpreadAnalyzer.maxLoss e = Fin (440 + (1 # 2 ^ 44)) /\
     Rounded.CreditSpreadAnalyzer.breakEven e = Fin (Binary64.lit (6506 # 10)) /\
     Rounded.CreditSpreadAnalyzer.riskRewardRatio e
     = Binary64.fl (60 / (440 + (1 # 2 ^ 44)))).
Proof.
  intro H. apply computed_inv in H. destruct H as [opt1 [opt2 [_ B]]].
  split; [|apply scenario_spread_computed].
  cbv zeta. repeat split.
  - apply (r_credit _ _ _ _ B).
  - apply (r_maxProfit _ _ _ _ B).
  - apply (r_maxLoss _ _ _ _ B).
  - intro Hty. rewrite (r_breakEven _ _ _ _ B), <- (r_type _ _ _ _ B), Hty.
    reflexivity.
  - intro Hty. rewrite (r_breakEven _ _ _ _ B), <- (r_type _ _ _ _ B), Hty.
    reflexivity.
  - intro Hl. rewrite (r_ratio _ _ _ _ B), Hl. reflexivity.
  - intro Hl. rewrite (r_ratio _ _ _ _ B), Hl. reflexivity.
Qed.

Lemma C4_witness :
  exists s,
    In s (Rounded.CreditSpreadAnalyzer.calculateCreditSpreads
            (map parsed scenario_spread_chain) CALL 648) /\
    Rounded.CreditSpreadAnalyzer.maxProfit s
    = Binary64.mul (Rounded.CreditSpreadAnalyzer.creditReceived s) (Fin 100) /\
    Rounded.CreditSpreadAnalyzer.maxLoss s = Fin (440 + (1 # 2 ^ 44)).
Proof.
  destruct (scenario_spread_computed 648) as [e [He [_ [_ [_ [_ [_ [Hl _]]]]]]]].
  exists e. rewrite He. split; [left; reflexivity|].
  split; [|exact Hl].
  apply (C4_spread_economics (map parsed scenario_spread_chain) CALL 648).
  rewrite He. left. reflexivity.
Defined.

(** [a] may stand before [b] in the returned list: both ratios are
    finite numbers and the one of [a] is at least the one of [b]. *)
Definition ratio_ge (a b : CreditSpreadAnalyzer.SpreadOpportunity) : Prop :=
  exists x y,
    CreditSpreadAnalyzer.riskRewardRatio a = Fin x /\
    CreditSpreadAnalyzer.riskRewardRatio b = Fin y /\ y <= x.

Lemma calculateCreditSpreads_sorted
    (options : list OptionContract) (optionType : PutCall) (underlyingPrice : Q) :
  StronglySorted ratio_ge
    (CreditSpreadAnalyzer.calculateCreditSpreads options optionType underlyingPrice).
Proof.
  unfold CreditSpreadAnalyzer.calculateCreditSpreads.
  apply (sort_sorted _
           (fun s => is_finite (CreditSpreadAnalyzer.riskRewardRatio s) = true)).
  - intros a b c [x [y [Ha [Hb Hxy]]]] [y' [z [Hb' [Hc Hyz]]]].
    rewrite Hb in Hb'. inversion Hb'; subst.
    exists x, z. repeat split; try assumption. lra.
  - intros a b Ha Hb H. unfold JsArray.sorts_after, jsgt in H. unfold ratio_ge.
    destruct (CreditSpreadAnalyzer.riskRewardRatio a) as [x| | |]; try discriminate.
    destruct (CreditSpreadAnalyzer.riskRewardRatio b) as [y| | |]; try discriminate.
    cbn [jslt jssub] in H. qprop. exists y, x. repeat split. lra.
  - intros a b Ha Hb H. unfold JsArray.sorts_after, jsgt in H. unfold ratio_ge.
    destruct (CreditSpreadAnalyzer.riskRewardRatio a) as [x| | |]; try discriminate.
    destruct (CreditSpreadAnalyzer.riskRewardRatio b) as [y| | |]; try discriminate.
    cbn [jslt jssub] in H. qprop. exists x, y. repeat split. lra.
  - apply Forall_forall. intros s Hs.
    apply enumerated_inv in Hs. destruct Hs as [opt1 [opt2 [_ Hs]]].
    apply loopBody_built in Hs. eapply built_ratio_finite; eassumption.
Qed.

(** Three call strikes; the spreads are enumerated as 650/655, 650/660,
    655/660 and returned as 655/660, 650/660, 650/655. *)
Definition three_strike_chain : list OptionContract :=
  [ contract CALL 650 (300 # 100) (310 # 100);
    contract CALL 655 (200 # 100) (210 # 100);
    contract CALL 660 (50 # 100) (60 # 100) ].




Definition put_chain : list OptionContract :=
  [ contract PUT 640 (50 # 100) (60 # 100);
    contract PUT 645 (200 # 100) (210 # 100) ].


(** ** At-the-money selection *)

Lemma findNearestStrikes_inv (sym : string) (spot : Q)
    (options : list OptionContract) (ty : PutCall) (a : ATMTradeAnalyzer.ATMOption) :
  In a (ATMTradeAnalyzer.findNearestStrikes sym spot options ty) ->
  ATMTradeAnalyzer.distanceFromATM a
    = Qabs (strikePrice (ATMTradeAnalyzer.contract a) - spot) /\
  jsle (jsdiv (Qabs (strikePrice (ATMTradeAnalyzer.contract a) - spot)) spot)
       (Fin ATMTradeAnalyzer.ATM_THRESHOLD) = true /\
  In (ATMTradeAnalyzer.contract a) options /\
  putCall (ATMTradeAnalyzer.contract a) = ty.
Proof.
  unfold ATMTradeAnalyzer.findNearestStrikes, JsArray.slice.
  cbn [Nat.sub skipn]. intro H.
  apply firstn_incl in H. apply sort_In in H.
  apply filter_In in H. destruct H as [H Hatm].
  apply in_map_iff in H. destruct H as [c [<- Hc]].
  apply filter_In in Hc. destruct Hc as [Hc Hty].
  simpl in *. repeat split; try assumption.
  destruct (putCall c), ty; simpl in Hty; congruence.
Qed.

Lemma findNearestStrikes_sorted (sym : string) (spot : Q)
    (options : list OptionContract) (ty : PutCall) :
  StronglySorted
    (fun a b => ATMTradeAnalyzer.distanceFromATM a <= ATMTradeAnalyzer.distanceFromATM b)
    (ATMTradeAnalyzer.findNearestStrikes sym spot options ty).
Proof.
  unfold ATMTradeAnalyzer.findNearestStrikes, JsArray.slice.
  cbn [Nat.sub skipn].
  apply StronglySorted_firstn.
  apply (sort_by_key_sorted ATMTradeAnalyzer.distanceFromATM).
Qed.

(** A ratio test that passed was made on a non-zero spot price. *)
Lemma within_threshold_inv (d spot t : Q) :
  0 <= d -> jsle (jsdiv d spot) (Fin t) = true -> ~ spot == 0 /\ d / spot <= t.
Proof.
  intros Hd. unfold jsdiv.
  destruct (Qeq_bool spot 0) eqn:Hs.
  - destruct (Qeq_bool d 0) eqn:Hz; [discriminate|].
    destruct (Qlt_bool 0 d) eqn:Hp; [discriminate|].
    qprop. exfalso. apply Hz. lra.
  - simpl. intro H. qprop. split; assumption.
Qed.

Definition atm_chain : list OptionContract :=
  [ contract CALL 630 1 2; contract CALL 644 1 2; contract CALL 645 1 2;
    contract CALL 647 1 2; contract CALL 650 1 2; contract CALL 700 1 2 ].

(** C8: [findATMOptions] returns at most 3 contracts per side; every
    returned contract satisfies |strike - spot| / spot <= 0.02; each
    side's list is sorted ascending by |strike - spot|. *)
Theorem C8_atm_selection
    (sym : string) (calls puts : list OptionContract) (spot : Q) :
  let r := ATMTradeAnalyzer.findATMOptions sym calls puts spot in
  let dist := fun a => Qabs (strikePrice (ATMTradeAnalyzer.contract a) - spot) in
  ((length (ATMTradeAnalyzer.atmCalls r) <= 3)%nat /\
   (length (ATMTradeAnalyzer.atmPuts r) <= 3)%nat) /\
  (forall a,
     In a (ATMTradeAnalyzer.atmCalls r) \/ In a (ATMTradeAnalyzer.atmPuts r) ->
     jsle (jsdiv (dist a) spot) (Fin (2 # 100)) = true /\
     ~ spot == 0 /\ dist a / spot <= 2 # 100) /\
  (forall side i a b,
     side = ATMTradeAnalyzer.atmCalls r \/ side = ATMTradeAnalyzer.atmPuts r ->
     nth_error side i = Some a -> nth_error side (S i) = Some b ->
     dist a <= dist b).
Proof.
  cbv zeta. unfold ATMTradeAnalyzer.findATMOptions.
  cbn [ATMTradeAnalyzer.atmCalls ATMTradeAnalyzer.atmPuts].
  split; [|split].
  - unfold ATMTradeAnalyzer.findNearestStrikes, JsArray.slice.
  cbn [Nat.sub skipn].
    split; apply firstn_le_length.
  - intros a [H|H]; apply findNearestStrikes_inv in H;
      destruct H as [_ [H _]]; (split; [exact H|]);
      (apply within_threshold_inv; [apply Qabs_nonneg|exact H]).
  - intros side i a b Hside Ha Hb.
    assert (Hsorted : StronglySorted
              (fun a b => ATMTradeAnalyzer.distanceFromATM a
                          <= ATMTradeAnalyzer.distanceFromATM b) side)
      by (destruct Hside; subst side; apply findNearestStrikes_sorted).
    pose proof (StronglySorted_nth _ _ Hsorted i (S i) a b (le_n (S i)) Ha Hb) as Hab.
    assert (Hin : forall x, In x side ->
              ATMTradeAnalyzer.distanceFromATM x
              = Qabs (strikePrice (ATMTradeAnalyzer.contract x) - spot)).
    { intros x Hx. destruct Hside; subst side;
        apply findNearestStrikes_inv in Hx; tauto. }
    rewrite <- (Hin a), <- (Hin b); [assumption| |];
      eapply nth_error_In; eassumption.
Qed.

Lemma C8_witness :
  let r := ATMTradeAnalyzer.findATMOptions EmptyString atm_chain [] 645 in
  map (fun a => strikePrice (ATMTradeAnalyzer.contract a)) (ATMTradeAnalyzer.atmCalls r)
    = [645; 644; 647] /\
  (forall a, In a (ATMTradeAnalyzer.atmCalls r) ->
     Qabs (strikePrice (ATMTradeAnalyzer.contract a) - 645) / 645 <= 2 # 100).
Proof.
  split; [reflexivity|].
  intros a Ha.
  apply (C8_atm_selection EmptyString atm_chain [] 645).
  left. exact Ha.
Defined.

(** ** Order flow *)

(** C10: for every option whose contract has openInterest = 0,
    [analyzeOrderFlow] returns volumeOIRatio = 0, hasUnusualVolume =
    false and signal = NEUTRAL, whatever the volume; the division is
    guarded, so the ratio is always a finite number and a bullish or
    bearish signal implies positive open interest. *)
Theorem C10_zero_open_interest_is_neutral (option : ATMTradeAnalyzer.ATMOption) :
  let flow := ATMTradeAnalyzer.analyzeOrderFlow option in
  (openInterest (ATMTradeAnalyzer.contract option) == 0 ->
   ATMTradeAnalyzer.volumeOIRatio flow = Fin 0 /\
   ATMTradeAnalyzer.hasUnusualVolume flow = false /\
   ATMTradeAnalyzer.signal flow = ATMTradeAnalyzer.NEUTRAL) /\
  is_finite (ATMTradeAnalyzer.volumeOIRatio flow) = true /\
  (ATMTradeAnalyzer.signal flow <> ATMTradeAnalyzer.NEUTRAL ->
   0 < openInterest (ATMTradeAnalyzer.contract option)).
Proof.
  cbv zeta. unfold ATMTradeAnalyzer.analyzeOrderFlow. simpl.
  destruct (Qlt_bool 0 (openInterest (ATMTradeAnalyzer.contract option))) eqn:E.
  - apply Qlt_bool_iff in E. split; [intro H; lra|].
    rewrite jsdiv_nonzero by lra. split; [reflexivity|]. intros _. exact E.
  - split; [intros _; repeat split|].
    split; [reflexivity|]. intro H. exfalso. apply H. reflexivity.
Qed.

Lemma C10_witness :
  let option :=
    ATMTradeAnalyzer.toATMOption EmptyString CALL 645
      {| putCall := CALL; symbol := EmptyString; bid := 199 # 100; ask := 2;
         mark := 2; totalVolume := 5000; delta := 1 # 2; openInterest := 0;
         strikePrice := 645 |} in
  ATMTradeAnalyzer.signal (ATMTradeAnalyzer.analyzeOrderFlow option)
    = ATMTradeAnalyzer.NEUTRAL.
Proof.
  apply (C10_zero_open_interest_is_neutral
           (ATMTradeAnalyzer.toATMOption EmptyString CALL 645
              {| putCall := CALL; symbol := EmptyString; bid := 199 # 100; ask := 2;
                 mark := 2; totalVolume := 5000; delta := 1 # 2; openInterest := 0;
                 strikePrice := 645 |})).
  reflexivity.
Defined.

(** ** Naked-position detection *)

(** The row [checkNakedPosition] hands to the store when it fires. *)
Definition nakedRow (thr : Q) (sym : string) (c : OptionContract) (u : Q)
  : DataCollector.NakedPosition :=
  {| DataCollector.symbol := sym;
     DataCollector.optionSymbol := symbol c;
     DataCollector.strikePrice := strikePrice c;
     DataCollector.optionType := putCall c;
     DataCollector.volume := totalVolume c;
     DataCollector.openInterest := openInterest c;
     DataCollector.volumeOiRatio :=
       Binary64.div (Fin (totalVolume c)) (Fin (openInterest c));
     DataCollector.thresholdMultiplier := thr;
     DataCollector.bid := bid c;
     DataCollector.ask := ask c;
     DataCollector.mark := mark c;
     DataCollector.underlyingPrice := u |}.

(** The test [volume > openInterest * NAKED_THRESHOLD] as the program
    evaluates it: the product is rounded before it is compared. *)
Definition exceeds (thr : Q) (c : OptionContract) : bool :=
  jsgt (Fin (totalVolume c)) (Binary64.mul (Fin (openInterest c)) (Fin thr)).

Lemma checkNakedPosition_fires (thr : Q) (sym : string) (c : OptionContract)
    (u : Q) (stored : list DataCollector.NakedPosition) :
  ~ totalVolume c == 0 -> ~ openInterest c == 0 ->
  exceeds thr c = true ->
  DataCollector.checkNakedPosition thr sym c u stored
  = stored ++ [nakedRow thr sym c u].
Proof.
  intros Hv Ho Ht. unfold DataCollector.checkNakedPosition.
  apply Qeq_bool_false in Hv as ->. apply Qeq_bool_false in Ho as Ho'.
  rewrite Ho'. simpl orb. cbv iota. cbv zeta.
  unfold exceeds in Ht. rewrite Ht. reflexivity.
Qed.

Lemma checkNakedPosition_silent (thr : Q) (sym : string) (c : OptionContract)
    (u : Q) (stored : list DataCollector.NakedPosition) :
  totalVolume c == 0 \/ openInterest c == 0 \/ exceeds thr c = false ->
  DataCollector.checkNakedPosition thr sym c u stored = stored.
Proof.
  intro H. unfold DataCollector.checkNakedPosition.
  destruct (Qeq_bool (totalVolume c) 0) eqn:Hv; [reflexivity|].
  destruct (Qeq_bool (openInterest c) 0) eqn:Ho; [reflexivity|].
  simpl orb. cbv iota. cbv zeta. fold (exceeds thr c).
  destruct (exceeds thr c) eqn:Ht; [|reflexivity].
  qprop. exfalso. destruct H as [H|[H|H]]; [tauto|tauto|discriminate].
Qed.

Lemma app_one_neq {A : Type} (l : list A) (x : A) : l ++ [x] <> l.
Proof.
  intro H. apply (f_equal (@length A)) in H.
  rewrite length_app in H. simpl in H. lia.
Qed.

(** Where the product is a value of the format nothing is rounded, and
    the test is the comparison of the exact numbers. *)
Lemma exceeds_exact (thr : Q) (c : OptionContract) :
  Binary64.representable (openInterest c * thr) ->
  (exceeds thr c = true <-> openInterest c * thr < totalVolume c).
Proof.
  intro R. unfold exceeds, jsgt. cbn [Binary64.mul].
  rewrite (fl_exact _ R). cbn [jslt].
  rewrite Qlt_bool_iff, Qred_correct. reflexivity.
Qed.

(** One and a half times a count below [2 ^ 51] is a value of the
    format. *)
Lemma default_threshold_product (oi thr : Q) (n : Z) :
  (0 <= n < 2 ^ 51)%Z -> oi == inject_Z n ->
  thr == DataCollector.DEFAULT_NAKED_THRESHOLD ->
  Binary64.representable (oi * thr).
Proof.
  intros Hn Hoi Hthr. exists (3 * n)%Z, (-1)%Z.
  repeat split; [lia | unfold Binary64.emin; lia | unfold Binary64.emax; lia |].
  rewrite Hoi, Hthr, inject_Z_mult. unfold DataCollector.DEFAULT_NAKED_THRESHOLD.
  change (2 ^ (-1)) with (1 # 2). change (inject_Z 3) with 3. ring.
Qed.

Definition quote (vol oi : Q) : OptionContract :=
  {| putCall := CALL; symbol := EmptyString; bid := 1; ask := 2; mark := 3 # 2;
     totalVolume := vol; delta := 1 # 2; openInterest := oi; strikePrice := 645 |}.

(** The threshold the collector holds when the environment sets
    [NAKED_POSITION_THRESHOLD=1.15]: the value of the format nearest to
    1.15, which lies below it. *)
Definition threshold_115 : Q := Binary64.lit (115 # 100).

(** With that threshold the rounded product of 20 is 23 and that of 100
    is the value of the format just below 115. *)
Lemma threshold_115_products :
  threshold_115 < 115 # 100 /\
  Binary64.mul (Fin 20) (Fin threshold_115) = Fin 23 /\
  exists p, Binary64.mul (Fin 100) (Fin threshold_115) = Fin p /\ p < 115.
Proof.
  split; [reflexivity|]. split; [reflexivity|].
  eexists. split; [vm_compute; reflexivity|reflexivity].
Qed.

(** C2 as stated fails: with the threshold set to 1.15, volume 23 on
    open interest 20 exceeds the product of open interest and the
    threshold held, yet nothing is recorded, because the rounded product
    is 23.  Read with the decimal 1.15 instead, the claim fails at
    volume 115 on open interest 100, which is recorded although 115 is
    not above 100 x 1.15. *)
Lemma C2_counterexample :
  ~ (forall (threshold : Q) (sym : string) (c : OptionContract) (u : Q)
            (stored : list DataCollector.NakedPosition),
       0 <= totalVolume c -> 0 <= openInterest c ->
       ((exists e,
           DataCollector.checkNakedPosition threshold sym c u stored
           = stored ++ [e]) <->
        0 < totalVolume c /\ 0 < openInterest c /\
        openInterest c * threshold < totalVolume c)) /\
  (exists e,
     DataCollector.checkNakedPosition threshold_115 EmptyString (quote 115 100)
       645 [] = [e]) /\
  ~ 100 * (115 # 100) < 115.
Proof.
  split; [|split].
  - intro H.
    destruct (H threshold_115 EmptyString (quote 23 20) 645 []) as [_ Hback];
      [discriminate | discriminate |].
    destruct Hback as [e He]; [repeat split|].
    vm_compute in He. discriminate He.
  - eexists. vm_compute. reflexivity.
  - intro H. vm_compute in H. discriminate H.
Qed.

(** C2, amended: [checkNakedPosition] records an event iff volume > 0,
    open interest > 0 and volume exceeds the binary64 product of open
    interest and threshold.  Where that product is a value of the
    format, as it is for the default threshold 1.5 and every count
    below [2 ^ 51], the test is volume > openInterest x threshold on
    the exact numbers.  No event is recorded when open interest = 0 or
    volume = 0; a recorded event carries the binary64 quotient
    volume / openInterest and the threshold in effect.  Volume and open
    interest are counts, hence non-negative. *)
Theorem C2_naked_position_detection
    (threshold : Q) (sym : string) (c : OptionContract) (u : Q)
    (stored : list DataCollector.NakedPosition) :
  let after := DataCollector.checkNakedPosition threshold sym c u stored in
  let recorded := exists e, after = stored ++ [e] in
  (0 <= totalVolume c -> 0 <= openInterest c ->
   (recorded <->
    0 < totalVolume c /\ 0 < openInterest c /\
    jsgt (Fin (totalVolume c))
      (Binary64.mul (Fin (openInterest c)) (Fin threshold)) = true) /\
   (Binary64.representable (openInterest c * threshold) ->
    (recorded <->
     0 < totalVolume c /\ 0 < openInterest c /\
     openInterest c * threshold < totalVolume c)) /\
   (forall n : Z,
      (0 <= n < 2 ^ 51)%Z -> openInterest c == inject_Z n ->
      threshold == DataCollector.DEFAULT_NAKED_THRESHOLD ->
      (recorded <->
       0 < totalVolume c /\ 0 < openInterest c /\
       openInterest c * (3 # 2) < totalVolume c))) /\
  (~ recorded -> after = stored) /\
  (totalVolume c == 0 \/ openInterest c == 0 -> ~ recorded) /\
  (forall e, after = stored ++ [e] ->
     ~ openInterest c == 0 /\
     DataCollector.volumeOiRatio e
     = Binary64.fl (totalVolume c / openInterest c) /\
     DataCollector.thresholdMultiplier e = threshold /\
     DataCollector.volume e = totalVolume c /\
     DataCollector.openInterest e = openInterest c).
Proof.
  cbv zeta. fold (exceeds threshold c).
  assert (Hnot : forall e, stored <> stored ++ [e]).
  { intros e He. symmetry in He. now apply app_one_neq in He. }
  assert (Hcases :
            (totalVolume c == 0 \/ openInterest c == 0 \/
             exceeds threshold c = false) \/
            (~ totalVolume c == 0 /\ ~ openInterest c == 0 /\
             exceeds threshold c = true)).
  { destruct (Qeq_dec (totalVolume c) 0); [tauto|].
    destruct (Qeq_dec (openInterest c) 0); [tauto|].
    destruct (exceeds threshold c); tauto. }
  assert (Hrepr :
            Binary64.representable (openInterest c * threshold) ->
            (exceeds threshold c = true <->
             openInterest c * threshold < totalVolume c))
    by apply exceeds_exact.
  assert (Hdef :
            forall n : Z,
              (0 <= n < 2 ^ 51)%Z -> openInterest c == inject_Z n ->
              threshold == DataCollector.DEFAULT_NAKED_THRESHOLD ->
              (exceeds threshold c = true <->
               openInterest c * (3 # 2) < totalVolume c)).
  { intros n Hn Hoi Hthr.
    rewrite (exceeds_exact threshold c
               (default_threshold_product _ _ n Hn Hoi Hthr)).
    rewrite Hthr. reflexivity. }
  destruct Hcases as [H|[Hv [Ho Ht]]].
  - rewrite checkNakedPosition_silent by exact H.
    split; [|split; [|split]].
    + intros Hv0 Ho0.
      assert (Hno : ~ (0 < totalVolume c /\ 0 < openInterest c /\
                       exceeds threshold c = true)).
      { intros [H1 [H2 H3]]. destruct H as [H|[H|H]]; [lra|lra|congruence]. }
      split; [|split].
      * split; [intros [e He]; exfalso; apply (Hnot e He)|tauto].
      * intro R. split; [intros [e He]; exfalso; apply (Hnot e He)|].
        intros [H1 [H2 H3]]. exfalso. apply Hno. rewrite (Hrepr R). tauto.
      * intros n Hn Hoi Hthr.
        split; [intros [e He]; exfalso; apply (Hnot e He)|].
        intros [H1 [H2 H3]]. exfalso. apply Hno.
        rewrite (Hdef n Hn Hoi Hthr). tauto.
    + reflexivity.
    + intros _ [e He]. apply (Hnot e He).
    + intros e He. exfalso. apply (Hnot e He).
  - rewrite checkNakedPosition_fires by assumption.
    assert (Hrec : exists e, stored ++ [nakedRow threshold sym c u] = stored ++ [e])
      by (eexists; reflexivity).
    split; [|split; [|split]].
    + intros Hv0 Ho0.
      assert (Hpos : 0 < totalVolume c /\ 0 < openInterest c).
      { split; apply Qnot_le_lt; intro Hc.
        - apply Hv. lra.
        - apply Ho. lra. }
      split; [|split].
      * split; [intros _; tauto|intros _; exact Hrec].
      * intro R. split; [|intros _; exact Hrec].
        intros _. rewrite <- (Hrepr R). tauto.
      * intros n Hn Hoi Hthr. split; [|intros _; exact Hrec].
        intros _. rewrite <- (Hdef n Hn Hoi Hthr). tauto.
    + intro H. exfalso. apply H. exact Hrec.
    + intros [H|H]; contradiction.
    + intros e He. apply app_inj_tail in He. destruct He as [_ <-].
      cbn [nakedRow DataCollector.volumeOiRatio DataCollector.thresholdMultiplier
           DataCollector.volume DataCollector.openInterest].
      split; [assumption|]. split; [|repeat split].
      cbn [Binary64.div]. apply Qeq_bool_false in Ho. rewrite Ho. reflexivity.
Qed.

(** At the default threshold 1.5: volume 200 on open interest 100 is
    recorded with ratio 2, volume 140 is not. *)
Lemma C2_witness :
  (exists e,
     DataCollector.checkNakedPosition DataCollector.DEFAULT_NAKED_THRESHOLD
       EmptyString (quote 200 100) 645 [] = [e] /\
     DataCollector.volumeOiRatio e = Fin 2) /\
  DataCollector.checkNakedPosition DataCollector.DEFAULT_NAKED_THRESHOLD
    EmptyString (quote 140 100) 645 [] = [].
Proof.
  split; [|reflexivity].
  destruct (C2_naked_position_detection DataCollector.DEFAULT_NAKED_THRESHOLD
              EmptyString (quote 200 100) 645 []) as [Hiff [_ [_ Hrow]]].
  assert (H0v : 0 <= totalVolume (quote 200 100)) by (simpl; lra).
  assert (H0o : 0 <= openInterest (quote 200 100)) by (simpl; lra).
  destruct (Hiff H0v H0o) as [_ [_ Hdef]].
  destruct (proj2 (Hdef 100%Z ltac:(lia) ltac:(reflexivity) ltac:(reflexivity)))
    as [e He].
  { simpl. lra. }
  exists e. split; [exact He|].
  destruct (Hrow e He) as [_ [Hr _]].
  rewrite Hr. reflexivity.
Defined.

(** ** Collector start / stop *)

Section Collector.
Import DataCollector.

(** The timers armed in the event loop are exactly the one whose handle
    the collector holds. *)
Definition owns_timers (s : State) : Prop :=
  match intervalId (fst s), isRunning (fst s) with
  | Some id, true => timers (snd s) = [id]
  | None, false => timers (snd s) = []
  | _, _ => False
  end.

Lemma owns_timers_invariant (s : State) : owns_timers s -> invariant s.
Proof.
  unfold owns_timers, invariant.
  destruct (intervalId (fst s)), (isRunning (fst s)); intro H;
    try contradiction; split; congruence.
Qed.

Lemma start_owns_timers (s : State) : owns_timers s -> owns_timers (start s).
Proof.
  destruct s as [[id run] rt]. unfold owns_timers, start. simpl.
  destruct id as [id|], run; simpl; try tauto.
  intros ->. reflexivity.
Qed.

Lemma stop_owns_timers (s : State) : owns_timers s -> owns_timers (stop s).
Proof.
  destruct s as [[id run] rt]. unfold owns_timers, stop. simpl.
  destruct id as [id|], run; simpl; try tauto.
  intros ->. simpl. rewrite Nat.eqb_refl. reflexivity.
Qed.

Lemma run_snoc (cs : list Call) (c : Call) : run (cs ++ [c]) = call (run cs) c.
Proof. unfold run. rewrite fold_left_app. reflexivity. Qed.

Lemma run_owns_timers (cs : list Call) : owns_timers (run cs).
Proof.
  induction cs as [|c cs IH] using rev_ind.
  - reflexivity.
  - rewrite run_snoc. destruct c; simpl.
    + now apply start_owns_timers.
    + now apply stop_owns_timers.
Qed.

Lemma start_invariant (s : State) : invariant s -> invariant (start s).
Proof.
  destruct s as [[id run] rt]. unfold invariant, start. simpl.
  destruct run; simpl; [tauto|]. intros _. split; congruence.
Qed.

Lemma stop_invariant (s : State) : invariant s -> invariant (stop s).
Proof.
  destruct s as [[id run] rt]. unfold invariant, stop. simpl.
  destruct run, id as [id|]; simpl; try tauto.
  intros _. split; congruence.
Qed.

End Collector.

(** C9: the collector keeps isRunning = true iff a timer handle is held;
    [start] while running leaves the state unchanged, so two consecutive
    [start] calls leave exactly one active timer; [stop] while stopped
    leaves the state unchanged (and, like every call here, returns). *)
Theorem C9_collector_start_stop (s : DataCollector.State) :
  let fields := fun st : DataCollector.State => fst st in
  let armed := fun st : DataCollector.State => DataCollector.timers (snd st) in
  (DataCollector.invariant s ->
   DataCollector.invariant (DataCollector.start s) /\
   DataCollector.invariant (DataCollector.stop s)) /\
  (DataCollector.isRunning (fields s) = true ->
   fields (DataCollector.start s) = fields s /\
   armed (DataCollector.start s) = armed s /\
   DataCollector.launched (snd (DataCollector.start s))
     = DataCollector.launched (snd s)) /\
  (DataCollector.isRunning (fields s) = false ->
   fields (DataCollector.stop s) = fields s /\
   armed (DataCollector.stop s) = armed s) /\
  (fields (DataCollector.stop (DataCollector.stop s)) = fields (DataCollector.stop s) /\
   armed (DataCollector.stop (DataCollector.stop s)) = armed (DataCollector.stop s)) /\
  (forall calls,
     s = DataCollector.run calls ->
     DataCollector.invariant s /\
     length (armed (DataCollector.start (DataCollector.start s))) = 1%nat /\
     DataCollector.isRunning (fields (DataCollector.start (DataCollector.start s)))
       = true /\
     armed (DataCollector.stop s) = []).
Proof.
  cbv zeta. split; [|split; [|split; [|split]]].
  - intro H. split; [now apply start_invariant|now apply stop_invariant].
  - destruct s as [[id run] rt]. simpl. intros ->. simpl. auto.
  - destruct s as [[id run] rt]. simpl. intros ->. simpl. auto.
  - destruct s as [[id run] rt]. unfold DataCollector.stop. simpl.
    destruct run, id as [id|]; simpl; auto.
  - intros calls ->.
    pose proof (run_owns_timers calls) as Hown.
    split; [now apply owns_timers_invariant|].
    pose proof (start_owns_timers _ (start_owns_timers _ Hown)) as H2.
    pose proof (stop_owns_timers _ Hown) as H3.
    destruct (DataCollector.run calls) as [[id run] rt].
    unfold owns_timers in *. simpl in *.
    destruct run, id as [id|]; simpl in *; try contradiction.
    + rewrite Hown. simpl. rewrite Nat.eqb_refl. auto.
    + rewrite Hown. auto.
Qed.

Lemma C9_witness :
  let s := DataCollector.run [DataCollector.CallStart] in
  DataCollector.invariant (DataCollector.start s) /\
  fst (DataCollector.start s) = fst s /\
  length (DataCollector.timers (snd (DataCollector.start s))) = 1%nat /\
  fst (DataCollector.stop DataCollector.initial) = fst DataCollector.initial.
Proof.
  cbv zeta.
  destruct (C9_collector_start_stop (DataCollector.run [DataCollector.CallStart]))
    as [Hinv [Hstart _]].
  destruct (C9_collector_start_stop DataCollector.initial) as [_ [_ [Hstop _]]].
  assert (Hi : DataCollector.invariant (DataCollector.run [DataCollector.CallStart])).
  { simpl. split; [discriminate|reflexivity]. }
  destruct (Hinv Hi) as [Hs _].
  destruct (Hstart eq_refl) as [Hf [Ht _]].
  destruct (Hstop eq_refl) as [Hf0 _].
  split; [exact Hs|]. split; [exact Hf|]. split; [|exact Hf0].
  rewrite Ht. reflexivity.
Defined.

(** ** Max pain *)

Section MaxPainFacts.
Import MaxPain.

Definition keys (m : StrikeMap) : list Q := map fst m.

Definition has_key (ks : list Q) (k : Q) : bool :=
  existsb (fun k' => Qeq_bool k' k) ks.

Definition addKey (ks : list Q) (k : Q) : list Q :=
  if has_key ks k then ks else ks ++ [k].

(** The distinct strikes of the chain in the order they are first met:
    the calls in list order, then the puts. *)
Definition strikeOrder (calls puts : list OptionContract) : list Q :=
  fold_left addKey (map strikePrice (calls ++ puts)) [].

Lemma keys_map_set (m : StrikeMap) (k : Q) (v : StrikeOI) :
  keys (map_set m k v) = addKey (keys m) k.
Proof.
  unfold addKey. induction m as [|[k' v'] m IH]; simpl; [reflexivity|].
  destruct (Qeq_bool k' k); simpl; [reflexivity|].
  rewrite IH. destruct (has_key (keys m) k); reflexivity.
Qed.

Lemma keys_fold_addCall (calls : list OptionContract) (m : StrikeMap) :
  keys (fold_left addCall calls m) = fold_left addKey (map strikePrice calls) (keys m).
Proof.
  revert m. induction calls as [|c t IH]; intro m; simpl; [reflexivity|].
  rewrite IH. unfold addCall. rewrite keys_map_set. reflexivity.
Qed.

Lemma keys_fold_addPut (puts : list OptionContract) (m : StrikeMap) :
  keys (fold_left addPut puts m) = fold_left addKey (map strikePrice puts) (keys m).
Proof.
  revert m. induction puts as [|c t IH]; intro m; simpl; [reflexivity|].
  rewrite IH. unfold addPut. rewrite keys_map_set. reflexivity.
Qed.

Lemma keys_buildStrikeMap (calls puts : list OptionContract) :
  keys (buildStrikeMap calls puts) = strikeOrder calls puts.
Proof.
  unfold buildStrikeMap, strikeOrder.
  rewrite keys_fold_addPut, keys_fold_addCall, map_app, fold_left_app.
  reflexivity.
Qed.

Lemma addKey_keeps (ks : list Q) (k x : Q) : In x ks -> In x (addKey ks k).
Proof.
  unfold addKey. destruct (has_key ks k); [trivial|].
  intro H. apply in_or_app. now left.
Qed.

Lemma addKey_has (ks : list Q) (k : Q) : exists k', In k' (addKey ks k) /\ k' == k.
Proof.
  unfold addKey. destruct (has_key ks k) eqn:E.
  - apply existsb_exists in E. destruct E as [k' [Hin Heq]].
    exists k'. split; [assumption|now apply Qeq_bool_iff].
  - exists k. split; [|reflexivity]. apply in_or_app. right. now left.
Qed.

Lemma fold_addKey_keeps (l ks : list Q) (x : Q) :
  In x ks -> In x (fold_left addKey l ks).
Proof.
  revert ks. induction l as [|k t IH]; intros ks H; simpl; [assumption|].
  apply IH. now apply addKey_keeps.
Qed.

Lemma fold_addKey_complete (l ks : list Q) (x : Q) :
  In x l -> exists k, In k (fold_left addKey l ks) /\ k == x.
Proof.
  revert ks. induction l as [|y t IH]; intros ks H; simpl; [destruct H|].
  destruct H as [->|H]; [|now apply IH].
  destruct (addKey_has ks x) as [k [Hin Heq]].
  exists k. split; [now apply fold_addKey_keeps|assumption].
Qed.

Lemma fold_addKey_sound (l ks : list Q) (k : Q) :
  In k (fold_left addKey l ks) -> In k ks \/ In k l.
Proof.
  revert ks. induction l as [|y t IH]; intros ks H; simpl in *; [now left|].
  apply IH in H. destruct H as [H|H]; [|now (right; right)].
  unfold addKey in H. destruct (has_key ks y); [now left|].
  apply in_app_or in H. destruct H as [H|[<-|[]]]; [now left|].
  right. now left.
Qed.

Lemma strikeOrder_complete (calls puts : list OptionContract) (S : Q) :
  is_strike calls puts S -> exists k, In k (strikeOrder calls puts) /\ k == S.
Proof.
  intros [c [Hin Heq]].
  destruct (fold_addKey_complete (map strikePrice (calls ++ puts)) [] (strikePrice c))
    as [k [Hk Hkc]]; [now apply in_map|].
  exists k. split; [assumption|]. now rewrite Hkc.
Qed.

Lemma strikeOrder_sound (calls puts : list OptionContract) (k : Q) :
  In k (strikeOrder calls puts) -> is_strike calls puts k.
Proof.
  intro H. apply fold_addKey_sound in H. destruct H as [[]|H].
  apply in_map_iff in H. destruct H as [c [<- Hc]].
  exists c. split; [assumption|reflexivity].
Qed.

(** *** The inner loop computes the pain sum of the specification *)

Lemma Qsum_ext {A : Type} (f g : A -> Q) (l : list A) :
  (forall x, In x l -> f x == g x) -> Qsum (map f l) == Qsum (map g l).
Proof.
  induction l as [|x t IH]; intro H; simpl; [reflexivity|].
  rewrite (H x) by now left. rewrite IH; [reflexivity|].
  intros y Hy. apply H. now right.
Qed.

(** Open interest of one side, weighted by strike, summed over the map. *)
Definition oiSum (side : StrikeOI -> Q) (w : Q -> Q) (m : StrikeMap) : Q :=
  Qsum (map (fun e => side (snd e) * w (fst e)) m).

Variable w : Q -> Q.
Hypothesis w_compat : forall a b, a == b -> w a == w b.

Lemma map_set_oiSum (side : StrikeOI -> Q) (m : StrikeMap) (k : Q) (v : StrikeOI) :
  side {| callOI := 0; putOI := 0 |} == 0 ->
  oiSum side w (map_set m k v)
  == oiSum side w m + (side v - side (get_or_zero m k)) * w k.
Proof.
  intro Hz. unfold oiSum, get_or_zero. induction m as [|[k' v'] m IH]; simpl.
  - rewrite Hz. ring.
  - destruct (Qeq_bool k' k) eqn:E; simpl.
    + apply Qeq_bool_iff in E. rewrite (w_compat _ _ E). ring.
    + rewrite IH. ring.
Qed.

Lemma addCall_sums (m : StrikeMap) (c : OptionContract) :
  oiSum callOI w (addCall m c) == oiSum callOI w m + openInterest c * w (strikePrice c) /\
  oiSum putOI w (addCall m c) == oiSum putOI w m.
Proof.
  unfold addCall. rewrite !map_set_oiSum by reflexivity. simpl. split; ring.
Qed.

Lemma addPut_sums (m : StrikeMap) (p : OptionContract) :
  oiSum callOI w (addPut m p) == oiSum callOI w m /\
  oiSum putOI w (addPut m p) == oiSum putOI w m + openInterest p * w (strikePrice p).
Proof.
  unfold addPut. rewrite !map_set_oiSum by reflexivity. simpl. split; ring.
Qed.

Definition weighted (l : list OptionContract) : Q :=
  Qsum (map (fun c => openInterest c * w (strikePrice c)) l).

Lemma fold_addCall_sums (calls : list OptionContract) (m : StrikeMap) :
  oiSum callOI w (fold_left addCall calls m) == oiSum callOI w m + weighted calls /\
  oiSum putOI w (fold_left addCall calls m) == oiSum putOI w m.
Proof.
  revert m. induction calls as [|c t IH]; intro m; simpl.
  - unfold weighted. simpl. split; ring.
  - destruct (IH (addCall m c)) as [H1 H2].
    destruct (addCall_sums m c) as [H3 H4].
    rewrite H1, H2, H3, H4. unfold weighted. simpl. split; ring.
Qed.

Lemma fold_addPut_sums (puts : list OptionContract) (m : StrikeMap) :
  oiSum callOI w (fold_left addPut puts m) == oiSum callOI w m /\
  oiSum putOI w (fold_left addPut puts m) == oiSum putOI w m + weighted puts.
Proof.
  revert m. induction puts as [|c t IH]; intro m; simpl.
  - unfold weighted. simpl. split; ring.
  - destruct (IH (addPut m c)) as [H1 H2].
    destruct (addPut_sums m c) as [H3 H4].
    rewrite H1, H2, H3, H4. unfold weighted. simpl. split; ring.
Qed.

Lemma buildStrikeMap_sums (calls puts : list OptionContract) :
  oiSum callOI w (buildStrikeMap calls puts) == weighted calls /\
  oiSum putOI w (buildStrikeMap calls puts) == weighted puts.
Proof.
  unfold buildStrikeMap.
  destruct (fold_addPut_sums puts (fold_left addCall calls [])) as [H1 H2].
  destruct (fold_addCall_sums calls []) as [H3 H4].
  rewrite H1, H2, H3, H4. unfold oiSum. simpl. split; ring.
Qed.

End MaxPainFacts.

Section PainRefinement.
Import MaxPain.

(** Distance factor of a call struck at [k] when settling at [S]. *)
Definition callWeight (S k : Q) : Q :=
  if Qlt_bool k S then (S - k) * 100 else 0.

(** Distance factor of a put struck at [k] when settling at [S]. *)
Definition putWeight (S k : Q) : Q :=
  if Qlt_bool S k then (k - S) * 100 else 0.

Lemma Qlt_bool_compat (a a' b b' : Q) :
  a == a' -> b == b' -> Qlt_bool a b = Qlt_bool a' b'.
Proof.
  intros Ha Hb. unfold Qlt_bool. now rewrite Ha, Hb.
Qed.

Lemma callWeight_compat (S S' k k' : Q) :
  S == S' -> k == k' -> callWeight S k == callWeight S' k'.
Proof.
  intros HS Hk. unfold callWeight.
  rewrite (Qlt_bool_compat k k' S S') by assumption.
  destruct (Qlt_bool k' S'); [|reflexivity]. now rewrite HS, Hk.
Qed.

Lemma putWeight_compat (S S' k k' : Q) :
  S == S' -> k == k' -> putWeight S k == putWeight S' k'.
Proof.
  intros HS Hk. unfold putWeight.
  rewrite (Qlt_bool_compat S S' k k') by assumption.
  destruct (Qlt_bool S' k'); [|reflexivity]. now rewrite HS, Hk.
Qed.

Lemma painStep_sum (S : Q) (m : StrikeMap) (pain : Q) :
  fold_left (painStep S) m pain
  == pain + oiSum callOI (callWeight S) m + oiSum putOI (putWeight S) m.
Proof.
  revert pain. unfold oiSum.
  induction m as [|[k e] m IH]; intro pain; simpl.
  - ring.
  - rewrite IH. unfold painStep, callWeight, putWeight. simpl.
    destruct (Qlt_bool k S), (Qlt_bool S k); ring.
Qed.

Lemma pain_spec_sums (calls puts : list OptionContract) (S : Q) :
  pain_spec calls puts S
  == weighted (callWeight S) calls + weighted (putWeight S) puts.
Proof.
  unfold pain_spec, weighted.
  rewrite (Qsum_ext (callPain S) (fun c => openInterest c * callWeight S (strikePrice c))).
  - rewrite (Qsum_ext (putPain S) (fun c => openInterest c * putWeight S (strikePrice c)));
      [reflexivity|].
    intros p _. unfold putPain, putWeight.
    destruct (Qlt_bool S (strikePrice p)); ring.
  - intros c _. unfold callPain, callWeight.
    destruct (Qlt_bool (strikePrice c) S); ring.
Qed.

(** The sum the inner loop accumulates over the strike map is the pain
    sum of the specification over the two lists. *)
Lemma painAt_refines (calls puts : list OptionContract) (S : Q) :
  painAt (buildStrikeMap calls puts) S == pain_spec calls puts S.
Proof.
  unfold painAt. rewrite painStep_sum, pain_spec_sums.
  destruct (buildStrikeMap_sums (callWeight S)
              (fun a b H => callWeight_compat S S a b (Qeq_refl S) H) calls puts)
    as [Hc _].
  destruct (buildStrikeMap_sums (putWeight S)
              (fun a b H => putWeight_compat S S a b (Qeq_refl S) H) calls puts)
    as [_ Hp].
  rewrite Hc, Hp. ring.
Qed.

Lemma pain_spec_compat (calls puts : list OptionContract) (S S' : Q) :
  S == S' -> pain_spec calls puts S == pain_spec calls puts S'.
Proof.
  intro H. rewrite !pain_spec_sums. unfold weighted.
  rewrite (Qsum_ext (fun c => openInterest c * callWeight S (strikePrice c))
             (fun c => openInterest c * callWeight S' (strikePrice c))).
  - rewrite (Qsum_ext (fun c => openInterest c * putWeight S (strikePrice c))
               (fun c => openInterest c * putWeight S' (strikePrice c)));
      [reflexivity|].
    intros p _. now rewrite (putWeight_compat S S' _ _ H (Qeq_refl _)).
  - intros c _. now rewrite (callWeight_compat S S' _ _ H (Qeq_refl _)).
Qed.

(** *** The outer loop keeps the first strike of least pain *)

Lemma scan_cons (m t : StrikeMap) (x : Q * StrikeOI) (st : Q * JsNum) :
  scan m (x :: t) st = scan m t (scanStep m st x).
Proof. reflexivity. Qed.

Lemma scanStep_finite (m : StrikeMap) (x : Q * StrikeOI) (k0 p0 : Q) :
  scanStep m (k0, Fin p0) x
  = if Qlt_bool (painAt m (fst x)) p0
    then (fst x, Fin (painAt m (fst x))) else (k0, Fin p0).
Proof. reflexivity. Qed.

Lemma scanStep_first (m : StrikeMap) (x : Q * StrikeOI) (k0 : Q) :
  scanStep m (k0, PosInf) x = (fst x, Fin (painAt m (fst x))).
Proof. reflexivity. Qed.

Lemma scan_from_finite (m entries : StrikeMap) (k0 p0 : Q) :
  (scan m entries (k0, Fin p0) = (k0, Fin p0) /\
   forall x, In x entries -> p0 <= painAt m (fst x))
  \/
  (exists pre e post,
     entries = pre ++ e :: post /\
     scan m entries (k0, Fin p0) = (fst e, Fin (painAt m (fst e))) /\
     painAt m (fst e) < p0 /\
     (forall x, In x pre -> painAt m (fst e) < painAt m (fst x)) /\
     (forall x, In x post -> painAt m (fst e) <= painAt m (fst x))).
Proof.
  revert k0 p0. induction entries as [|x t IH]; intros k0 p0.
  - left. split; [reflexivity|]. intros x [].
  - rewrite scan_cons, scanStep_finite.
    destruct (Qlt_bool (painAt m (fst x)) p0) eqn:E; qprop.
    + right. destruct (IH (fst x) (painAt m (fst x))) as [[Hs Hall]|Hex].
      * exists [], x, t. simpl app. repeat split; try assumption.
        intros y [].
      * destruct Hex as [pre [e [post [Ht [Hs [Hlt [Hpre Hpost]]]]]]].
        exists (x :: pre), e, post. subst t. simpl app.
        repeat split; try assumption; [lra|].
        intros y [<-|Hy]; [assumption|now apply Hpre].
    + destruct (IH k0 p0) as [[Hs Hall]|Hex].
      * left. split; [assumption|].
        intros y [<-|Hy]; [assumption|now apply Hall].
      * right. destruct Hex as [pre [e [post [Ht [Hs [Hlt [Hpre Hpost]]]]]]].
        exists (x :: pre), e, post. subst t. simpl app.
        repeat split; try assumption.
        intros y [<-|Hy]; [lra|now apply Hpre].
Qed.

Lemma scan_first_least (m entries : StrikeMap) :
  entries <> [] ->
  exists pre e post,
    entries = pre ++ e :: post /\
    scan m entries (0, PosInf) = (fst e, Fin (painAt m (fst e))) /\
    (forall x, In x pre -> painAt m (fst e) < painAt m (fst x)) /\
    (forall x, In x post -> painAt m (fst e) <= painAt m (fst x)).
Proof.
  destruct entries as [|x t]; [congruence|]. intros _.
  rewrite scan_cons, scanStep_first.
  destruct (scan_from_finite m t (fst x) (painAt m (fst x))) as [[Hs Hall]|Hex].
  - exists [], x, t. simpl app. repeat split; try assumption. intros y [].
  - destruct Hex as [pre [e [post [Ht [Hs [Hlt [Hpre Hpost]]]]]]].
    exists (x :: pre), e, post. subst t. simpl app.
    repeat split; try assumption.
    intros y [<-|Hy]; [assumption|now apply Hpre].
Qed.

(** The returned strike splits the strikes in first-met order: strictly
    more pain before it, at least as much after it. *)
Lemma calculateMaxPain_first_least (calls puts : list OptionContract) :
  calls ++ puts <> [] ->
  exists pre post,
    strikeOrder calls puts = pre ++ calculateMaxPain calls puts :: post /\
    (forall k, In k pre ->
       pain_spec calls puts (calculateMaxPain calls puts) < pain_spec calls puts k) /\
    (forall k, In k post ->
       pain_spec calls puts (calculateMaxPain calls puts) <= pain_spec calls puts k).
Proof.
  intro Hne.
  assert (Hm : buildStrikeMap calls puts <> []).
  { intro Hnil. destruct (calls ++ puts) as [|c t] eqn:E; [congruence|].
    destruct (strikeOrder_complete calls puts (strikePrice c)) as [k [Hk _]].
    - exists c. rewrite E. split; [now left|reflexivity].
    - rewrite <- keys_buildStrikeMap, Hnil in Hk. destruct Hk. }
  destruct (scan_first_least (buildStrikeMap calls puts) _ Hm)
    as [pre [e [post [Hsplit [Hs [Hpre Hpost]]]]]].
  unfold calculateMaxPain. cbv zeta. rewrite Hs. simpl fst.
  exists (keys pre), (keys post). split; [|split].
  - rewrite <- keys_buildStrikeMap. rewrite Hsplit at 1.
    unfold keys. rewrite map_app. reflexivity.
  - intros k Hk. apply in_map_iff in Hk. destruct Hk as [x [<- Hx]].
    rewrite <- !painAt_refines. now apply Hpre.
  - intros k Hk. apply in_map_iff in Hk. destruct Hk as [x [<- Hx]].
    rewrite <- !painAt_refines. now apply Hpost.
Qed.

End PainRefinement.

Definition holding (ty : PutCall) (strike oi : Q) : OptionContract :=
  {| putCall := ty; symbol := EmptyString; bid := 1; ask := 2; mark := 3 # 2;
     totalVolume := 0; delta := 1 # 2; openInterest := oi; strikePrice := strike |}.

(** The chain of the end-to-end scenario. *)
Definition scenario_calls : list OptionContract :=
  [ holding CALL 640 100; holding CALL 645 50; holding CALL 650 30 ].

Definition scenario_puts : list OptionContract :=
  [ holding PUT 640 40; holding PUT 645 60; holding PUT 650 90 ].

(** A chain whose lowest strike is listed among the puts only: the
    strikes are met in the order 645, 650, 640, and 640 and 645 both
    have pain 0. *)
Definition tie_calls : list OptionContract :=
  [ holding CALL 645 10; holding CALL 650 20 ].

Definition tie_puts : list OptionContract :=
  [ holding PUT 640 7; holding PUT 645 0; holding PUT 650 0 ].



(** The tie chain: 640 and 645 both attain the least pain 0, and 645,
    met first, is returned. *)
Lemma tie_chain_result :
  MaxPain.calculateMaxPain tie_calls tie_puts == 645 /\
  strikeOrder tie_calls tie_puts = [645; 650; 640] /\
  MaxPain.is_strike tie_calls tie_puts 640 /\
  MaxPain.pain_spec tie_calls tie_puts 640 == 0 /\
  MaxPain.pain_spec tie_calls tie_puts 645 == 0 /\
  MaxPain.pain_spec tie_calls tie_puts 650 == 5000.
Proof.
  repeat split.
  exists (holding PUT 640 7). split; [|reflexivity].
  right. right. left. reflexivity.
Qed.

(** C5 as stated fails: the returned strike need not be the smallest
    strike among those of least pain. *)
Lemma C5_counterexample :
  ~ (forall calls puts S,
       MaxPain.is_strike calls puts S ->
       MaxPain.pain_spec calls puts S
       <= MaxPain.pain_spec calls puts (MaxPain.calculateMaxPain calls puts) ->
       MaxPain.calculateMaxPain calls puts <= S).
Proof.
  intro H.
  destruct tie_chain_result as [Hr [_ [Hs [H640 [H645 _]]]]].
  specialize (H tie_calls tie_puts 640 Hs).
  rewrite (pain_spec_compat tie_calls tie_puts _ 645 Hr), H640, H645 in H.
  specialize (H (Qle_refl 0)). rewrite Hr in H.
  revert H. apply Qlt_not_le. reflexivity.
Qed.

Lemma sorted_after {A : Type} (R : A -> A -> Prop) (pre post : list A) (x y : A) :
  StronglySorted R (pre ++ x :: post) -> In y post -> R x y.
Proof.
  induction pre as [|z pre IH]; simpl; intros HS Hy.
  - inversion HS as [|? ? _ Hall]; subst.
    rewrite Forall_forall in Hall. now apply Hall.
  - inversion HS; subst. now apply IH.
Qed.

(** *** The scan over the computed pains *)

Lemma jslt_trans (a b c : JsNum) :
  jslt a b = true -> jslt b c = true -> jslt a c = true.
Proof.
  destruct a, b, c; cbn [jslt]; intros H1 H2; try discriminate; try reflexivity.
  qprop. apply Qlt_bool_iff. lra.
Qed.

Lemma jslt_le_trans (a b c : JsNum) :
  jslt a b = true -> jsle b c = true -> jslt a c = true.
Proof.
  destruct a, b, c; cbn [jslt jsle]; intros H1 H2; try discriminate; try reflexivity.
  qprop. apply Qlt_bool_iff. lra.
Qed.

Lemma jslt_false_le (a b : JsNum) :
  a <> NaN -> b <> NaN -> jslt a b = false -> jsle b a = true.
Proof.
  destruct a, b; cbn [jslt jsle]; intros Ha Hb H; try discriminate;
    try reflexivity; try congruence.
  qprop. now apply Qle_bool_iff.
Qed.

Lemma jsle_not_lt (a b : JsNum) : jsle a b = true -> jslt b a = false.
Proof.
  destruct a, b; cbn [jslt jsle]; intros H; try discriminate; try reflexivity.
  qprop. now apply Qlt_bool_false.
Qed.

Lemma finite_not_NaN (a : JsNum) : is_finite a = true -> a <> NaN.
Proof. destruct a; simpl; congruence. Qed.

Section RoundedMaxPain.
Import Rounded.MaxPain.

Definition rkeys (m : StrikeMap) : list Q := map fst m.

Lemma rkeys_map_set (m : StrikeMap) (k : Q) (v : StrikeOI) :
  rkeys (map_set m k v) = addKey (rkeys m) k.
Proof.
  unfold addKey. induction m as [|[k' v'] m IH]; simpl; [reflexivity|].
  destruct (Qeq_bool k' k); simpl; [reflexivity|].
  rewrite IH. destruct (has_key (rkeys m) k); reflexivity.
Qed.

Lemma rkeys_fold_addCall (calls : list OptionContract) (m : StrikeMap) :
  rkeys (fold_left addCall calls m)
  = fold_left addKey (map strikePrice calls) (rkeys m).
Proof.
  revert m. induction calls as [|c t IH]; intro m; simpl; [reflexivity|].
  rewrite IH. unfold addCall. rewrite rkeys_map_set. reflexivity.
Qed.

Lemma rkeys_fold_addPut (puts : list OptionContract) (m : StrikeMap) :
  rkeys (fold_left addPut puts m)
  = fold_left addKey (map strikePrice puts) (rkeys m).
Proof.
  revert m. induction puts as [|c t IH]; intro m; simpl; [reflexivity|].
  rewrite IH. unfold addPut. rewrite rkeys_map_set. reflexivity.
Qed.

(** The rounded map has the keys of the exact one, in the same order. *)
Lemma rkeys_buildStrikeMap (calls puts : list OptionContract) :
  rkeys (buildStrikeMap calls puts) = strikeOrder calls puts.
Proof.
  unfold buildStrikeMap, strikeOrder.
  rewrite rkeys_fold_addPut, rkeys_fold_addCall, map_app, fold_left_app.
  reflexivity.
Qed.

Variable m : StrikeMap.

Lemma rscan_snoc (entries : StrikeMap) (x : Q * StrikeOI) (st : Q * JsNum) :
  scan m (entries ++ [x]) st = scanStep m (scan m entries st) x.
Proof. unfold scan. now rewrite fold_left_app. Qed.

(** The scan either keeps its initial state, no pain being below the
    initial bound, or stops at the first entry of least pain. *)
Lemma rscan_first_least (entries : StrikeMap) (st : Q * JsNum) :
  (forall e, In e entries -> painAt m (fst e) <> NaN) ->
  snd st <> NaN ->
  (scan m entries st = st /\
   forall e, In e entries -> jslt (painAt m (fst e)) (snd st) = false) \/
  (exists pre e post,
     entries = pre ++ e :: post /\
     scan m entries st = (fst e, painAt m (fst e)) /\
     jslt (painAt m (fst e)) (snd st) = true /\
     (forall x, In x pre -> jslt (painAt m (fst e)) (painAt m (fst x)) = true) /\
     (forall x, In x post -> jsle (painAt m (fst e)) (painAt m (fst x)) = true)).
Proof.
  induction entries as [|x l IH] using rev_ind; intros Hnum Hst.
  - left. split; [reflexivity|]. intros e [].
  - assert (Hl : forall e, In e l -> painAt m (fst e) <> NaN).
    { intros e He. apply Hnum, in_or_app. now left. }
    assert (Hx : painAt m (fst x) <> NaN).
    { apply Hnum, in_or_app. right. now left. }
    assert (Hscan : scan m (l ++ [x]) st
                    = if jslt (painAt m (fst x)) (snd (scan m l st))
                      then (fst x, painAt m (fst x)) else scan m l st)
      by (rewrite rscan_snoc; reflexivity).
    rewrite Hscan. clear Hscan.
    destruct (IH Hl Hst) as [[Heq Hall] | (pre & e & post & Hsplit & Heq & Hlt & Hpre & Hpost)];
      rewrite Heq; cbn [snd fst].
    + destruct (jslt (painAt m (fst x)) (snd st)) eqn:E.
      * right. exists l, x, [].
        split; [reflexivity|]. split; [reflexivity|]. split; [exact E|].
        split; [|intros y []].
        intros y Hy. apply jslt_le_trans with (snd st); [exact E|].
        apply jslt_false_le; auto.
      * left. split; [reflexivity|]. intros e He.
        apply in_app_or in He. destruct He as [He|[<-|[]]]; auto.
    + destruct (jslt (painAt m (fst x)) (painAt m (fst e))) eqn:E.
      * right. exists (pre ++ e :: post), x, []. rewrite Hsplit.
        split; [reflexivity|]. split; [reflexivity|].
        split; [apply jslt_trans with (painAt m (fst e)); assumption|].
        split; [|intros y []].
        intros y Hy. apply in_app_or in Hy. destruct Hy as [Hy|[<-|Hy]].
        -- apply jslt_trans with (painAt m (fst e)); auto.
        -- exact E.
        -- apply jslt_le_trans with (painAt m (fst e)); auto.
      * right. exists pre, e, (post ++ [x]). rewrite Hsplit, <- app_assoc.
        split; [reflexivity|]. split; [reflexivity|]. split; [exact Hlt|].
        split; [exact Hpre|].
        intros y Hy. apply in_app_or in Hy. destruct Hy as [Hy|[<-|[]]]; auto.
        apply jslt_false_le; auto.
        apply Hl. rewrite Hsplit. apply in_or_app. right. now left.
Qed.

End RoundedMaxPain.

(** Calls at 100.2 (open interest 9), puts at 100.4 (2) and 101.1 (7):
    settlement at 100.2 and at 100.4 both cost 670 in exact decimal
    arithmetic. *)
Definition close_calls : list OptionContract := [holding CALL (1002 # 10) 9].
Definition close_puts : list OptionContract :=
  [holding PUT (1004 # 10) 2; holding PUT (1011 # 10) 7].

(** On that chain the pains the program computes differ in the last
    places, and the strike met second is returned. *)
Lemma rounding_separates_tied_strikes :
  MaxPain.pain_spec close_calls close_puts (1002 # 10) == 670 /\
  MaxPain.pain_spec close_calls close_puts (1004 # 10) == 670 /\
  strikeOrder (map parsed close_calls) (map parsed close_puts)
  = [Binary64.lit (1002 # 10); Binary64.lit (1004 # 10); Binary64.lit (1011 # 10)] /\
  jslt
    (Rounded.MaxPain.pain (map parsed close_calls) (map parsed close_puts)
       (Binary64.lit (1004 # 10)))
    (Rounded.MaxPain.pain (map parsed close_calls) (map parsed close_puts)
       (Binary64.lit (1002 # 10))) = true /\
  Rounded.MaxPain.calculateMaxPain (map parsed close_calls) (map parsed close_puts)
  = Binary64.lit (1004 # 10).
Proof.
  repeat split; vm_compute; reflexivity.
Qed.

(** C5, amended: among the strikes of least pain, the pain being the
    sum the program computes in binary64 arithmetic and every such sum
    being finite, [calculateMaxPain] returns the one met first when the
    distinct strikes are taken in the order of the calls list followed
    by the puts list; that is the smallest such strike whenever this
    order is ascending. *)
Theorem C5_first_met_minimizer (calls puts : list OptionContract) :
  calls ++ puts <> [] ->
  (forall k, In k (strikeOrder calls puts) ->
     is_finite (Rounded.MaxPain.pain calls puts k) = true) ->
  let r := Rounded.MaxPain.calculateMaxPain calls puts in
  let pain := Rounded.MaxPain.pain calls puts in
  (exists pre post,
     strikeOrder calls puts = pre ++ r :: post /\
     (forall k, In k pre -> jslt (pain r) (pain k) = true) /\
     (forall k, In k post -> jsle (pain r) (pain k) = true)) /\
  (StronglySorted Qlt (strikeOrder calls puts) ->
   forall S,
     In S (strikeOrder calls puts) -> jsle (pain S) (pain r) = true -> r <= S).
Proof.
  intros Hne Hfin r pain.
  set (m := Rounded.MaxPain.buildStrikeMap calls puts).
  assert (Hkeys : rkeys m = strikeOrder calls puts) by apply rkeys_buildStrikeMap.
  assert (Hnum : forall e, In e m -> Rounded.MaxPain.painAt m (fst e) <> NaN).
  { intros e He. apply finite_not_NaN. apply (Hfin (fst e)).
    rewrite <- Hkeys. now apply in_map. }
  assert (Hsplit : exists pre post,
            strikeOrder calls puts = pre ++ r :: post /\
            (forall k, In k pre -> jslt (pain r) (pain k) = true) /\
            (forall k, In k post -> jsle (pain r) (pain k) = true)).
  { destruct (rscan_first_least m m (0, PosInf) Hnum ltac:(discriminate))
      as [[_ Hall] | (pre & e & post & Hm & Hscan & _ & Hpre & Hpost)].
    - exfalso.
      destruct (calls ++ puts) as [|c t] eqn:Ec; [now apply Hne|].
      destruct (strikeOrder_complete calls puts (strikePrice c)) as [k [Hin _]].
      { exists c. split; [rewrite Ec; now left|reflexivity]. }
      pose proof (Hfin k Hin) as Hf.
      rewrite <- Hkeys in Hin. apply in_map_iff in Hin.
      destruct Hin as [e [<- He]]. specialize (Hall e He). cbn [snd] in Hall.
      unfold Rounded.MaxPain.pain in Hf. fold m in Hf.
      destruct (Rounded.MaxPain.painAt m (fst e)); discriminate.
    - assert (Hr : r = fst e).
      { unfold r, Rounded.MaxPain.calculateMaxPain. fold m. now rewrite Hscan. }
      exists (map fst pre), (map fst post). rewrite Hr. split.
      + rewrite <- Hkeys. unfold rkeys. rewrite Hm, map_app. reflexivity.
      + split; intros k Hk; apply in_map_iff in Hk; destruct Hk as [x [<- Hx]];
          [now apply Hpre | now apply Hpost]. }
  split; [exact Hsplit|].
  destruct Hsplit as (pre & post & Hs & Hpre & Hpost).
  intros Hsorted S HS Hle. rewrite Hs in HS, Hsorted.
  apply in_app_or in HS. destruct HS as [HS|[<-|HS]].
  - apply Hpre in HS. apply jsle_not_lt in Hle. congruence.
  - apply Qle_refl.
  - apply Qlt_le_weak. eapply sorted_after; eassumption.
Qed.

(** On the tie chain, whose numbers are integers, the first strike of
    least pain is 645; on the chain of
    [rounding_separates_tied_strikes] it is the strike met second. *)
Lemma C5_witness :
  Rounded.MaxPain.calculateMaxPain tie_calls tie_puts = 645 /\
  Rounded.MaxPain.calculateMaxPain (map parsed close_calls) (map parsed close_puts)
  = Binary64.lit (1004 # 10) /\
  (let r := Rounded.MaxPain.calculateMaxPain tie_calls tie_puts in
   let pain := Rounded.MaxPain.pain tie_calls tie_puts in
   exists pre post,
     strikeOrder tie_calls tie_puts = pre ++ r :: post /\
     (forall k, In k pre -> jslt (pain r) (pain k) = true) /\
     (forall k, In k post -> jsle (pain r) (pain k) = true)) /\
  (let r := Rounded.MaxPain.calculateMaxPain
              (map parsed close_calls) (map parsed close_puts) in
   let pain := Rounded.MaxPain.pain (map parsed close_calls) (map parsed close_puts) in
   exists pre post,
     strikeOrder (map parsed close_calls) (map parsed close_puts)
     = pre ++ r :: post /\
     (forall k, In k pre -> jslt (pain r) (pain k) = true) /\
     (forall k, In k post -> jsle (pain r) (pain k) = true)).
Proof.
  split; [vm_compute; reflexivity|]. split; [vm_compute; reflexivity|]. split.
  - apply (C5_first_met_minimizer tie_calls tie_puts); [discriminate|].
    intros k Hk.
    assert (E : strikeOrder tie_calls tie_puts = [645; 650; 640]) by reflexivity.
    rewrite E in Hk.
    destruct Hk as [<-|[<-|[<-|[]]]]; vm_compute; reflexivity.
  - apply (C5_first_met_minimizer (map parsed close_calls) (map parsed close_puts));
      [discriminate|].
    intros k Hk.
    assert (E : strikeOrder (map parsed close_calls) (map parsed close_puts)
                = [Binary64.lit (1002 # 10); Binary64.lit (1004 # 10);
                   Binary64.lit (1011 # 10)]) by (vm_compute; reflexivity).
    rewrite E in Hk.
    destruct Hk as [<-|[<-|[<-|[]]]]; vm_compute; reflexivity.
Defined.

(* ================================================================== *)
(** * Further properties of the credit-spread enumeration *)
(* ================================================================== *)

Lemma sort_length {A : Type} (comparefn : A -> A -> JsNum) (l : list A) :
  length (JsArray.sort comparefn l) = length l.
Proof. symmetry. apply Permutation_length, sort_perm. Qed.

Lemma pairs_members {A : Type} (l : list A) (a b : A) :
  In (a, b) (CreditSpreadAnalyzer.pairs l) -> In a l /\ In b l.
Proof.
  induction l as [|x t IH]; simpl; [tauto|].
  intro H. apply in_app_or in H. destruct H as [H|H].
  - apply in_map_iff in H. destruct H as [y [Hy Hin]].
    inversion Hy; subst. auto.
  - destruct (IH H). auto.
Qed.

Lemma pairs_length {A : Type} (l : list A) :
  (2 * length (CreditSpreadAnalyzer.pairs l) = length l * (length l - 1))%nat.
Proof.
  induction l as [|x t IH]; simpl; [reflexivity|].
  rewrite length_app, length_map, Nat.sub_0_r.
  destruct t as [|y t']; simpl in *; lia.
Qed.

Lemma pushed_length {A : Type} (o : option A) :
  (length (CreditSpreadAnalyzer.pushed o) <= 1)%nat.
Proof. destruct o; simpl; lia. Qed.

Lemma flat_map_length_le {A B : Type} (f : A -> list B) (l : list A) :
  (forall x, length (f x) <= 1)%nat -> (length (flat_map f l) <= length l)%nat.
Proof.
  intro H. induction l as [|x t IH]; simpl; [lia|].
  rewrite length_app. specialize (H x). lia.
Qed.

Lemma filteredOptions_from_input (options : list OptionContract) (ty : PutCall)
    (opt : OptionContract) :
  In opt (CreditSpreadAnalyzer.filteredOptions options ty) ->
  In opt options /\ putCall opt = ty.
Proof.
  unfold CreditSpreadAnalyzer.filteredOptions. intro H. apply sort_In in H.
  apply filter_In in H. destruct H as [Hin Hty]. split; [assumption|].
  destruct (putCall opt), ty; simpl in Hty; congruence.
Qed.

(** As the program computes them, every returned spread has a width
    between 5 and 50, a maxProfit of at least 50 and a maxLoss of at
    most 4950; its riskRewardRatio is a number, never NaN, that is
    positive exactly when maxLoss is positive and is 0 otherwise. *)
Theorem spread_profit_and_loss_bounds
    (options : list OptionContract) (optionType : PutCall) (underlyingPrice : Q)
    (s : Rounded.CreditSpreadAnalyzer.SpreadOpportunity) :
  In s (Rounded.CreditSpreadAnalyzer.calculateCreditSpreads
          options optionType underlyingPrice) ->
  (exists w, Rounded.CreditSpreadAnalyzer.width s = Fin w /\ 5 <= w <= 50) /\
  jsle (Fin 50) (Rounded.CreditSpreadAnalyzer.maxProfit s) = true /\
  jsle (Rounded.CreditSpreadAnalyzer.maxLoss s) (Fin 4950) = true /\
  Rounded.CreditSpreadAnalyzer.riskRewardRatio s <> NaN /\
  (jsgt (Rounded.CreditSpreadAnalyzer.maxLoss s) (Fin 0) = true ->
   jsgt (Rounded.CreditSpreadAnalyzer.riskRewardRatio s) (Fin 0) = true) /\
  (jsgt (Rounded.CreditSpreadAnalyzer.maxLoss s) (Fin 0) = false ->
   Rounded.CreditSpreadAnalyzer.riskRewardRatio s = Fin 0).
Proof.
  intro H. apply computed_inv in H. destruct H as [opt1 [opt2 [_ B]]].
  pose proof (r_width _ _ _ _ B) as Hw.
  pose proof (r_width_min _ _ _ _ B) as Hwmin.
  pose proof (r_width_max _ _ _ _ B) as Hwmax.
  pose proof (r_credit _ _ _ _ B) as Hc.
  pose proof (r_credit_min _ _ _ _ B) as Hcmin.
  pose proof (r_maxProfit _ _ _ _ B) as Hp.
  pose proof (r_maxLoss _ _ _ _ B) as Hl.
  pose proof (r_ratio _ _ _ _ B) as Hr.
  unfold CreditSpreadAnalyzer.MIN_WIDTH, CreditSpreadAnalyzer.MAX_WIDTH,
    CreditSpreadAnalyzer.MIN_CREDIT in *.
  set (width := Rounded.CreditSpreadAnalyzer.width s) in *.
  set (credit := Rounded.CreditSpreadAnalyzer.creditReceived s) in *.
  set (profit := Rounded.CreditSpreadAnalyzer.maxProfit s) in *.
  set (loss := Rounded.CreditSpreadAnalyzer.maxLoss s) in *.
  set (ratio := Rounded.CreditSpreadAnalyzer.riskRewardRatio s) in *.
  (* the width is a finite number between 5 and 50 *)
  assert (HW : exists w, width = Fin w /\ 5 <= w <= 50).
  { cbn [Binary64.sub Binary64.neg Binary64.add] in Hw.
    pose proof (fl_not_NaN (Rounded.CreditSpreadAnalyzer.shortStrike s
                            + - Rounded.CreditSpreadAnalyzer.longStrike s)) as Hn.
    destruct (Binary64.fl _) as [d| | |]; [| | |congruence];
      cbn [Binary64.abs] in Hw; rewrite Hw in Hwmin, Hwmax;
      unfold jsgt in Hwmax; cbn [jslt] in Hwmin, Hwmax; try discriminate.
    exists (Qabs d). split; [exact Hw|]. qprop. lra. }
  destruct HW as [w [Ew Hwb]].
  (* the credit is at least one half, or infinite *)
  assert (HC : credit = PosInf \/ exists c, credit = Fin c /\ 1 # 2 <= c).
  { cbn [Binary64.sub Binary64.neg Binary64.add] in Hc.
    pose proof (fl_not_NaN (bid (Rounded.CreditSpreadAnalyzer.shortOption s)
                            + - ask (Rounded.CreditSpreadAnalyzer.longOption s))) as Hn.
    rewrite <- Hc in Hn. destruct credit as [c| | |]; [right|left|..].
    - exists c. split; [reflexivity|]. cbn [jslt] in Hcmin. qprop. exact Hcmin.
    - reflexivity.
    - cbn [jslt] in Hcmin. discriminate.
    - congruence. }
  assert (R50 : Binary64.representable 50) by (representable 50%Z 0%Z).
  assert (R4950 : Binary64.representable 4950) by (representable 4950%Z 0%Z).
  assert (R99 : Binary64.representable (99 # 2)) by (representable 99%Z (-1)%Z).
  assert (R128 : Binary64.representable (1 # 128)) by (representable 1%Z (-7)%Z).
  (* profit *)
  assert (HP : jsle (Fin 50) profit = true).
  { rewrite Hp. destruct HC as [-> | [c [-> Hcb]]]; [reflexivity|].
    cbn [Binary64.mul]. apply fl_ge_bound; [exact R50 | lra]. }
  (* loss *)
  assert (HL : jsle loss (Fin 4950) = true).
  { rewrite Hl, Ew. destruct HC as [-> | [c [-> Hcb]]]; [reflexivity|].
    cbn [Binary64.sub Binary64.neg Binary64.add].
    pose proof (fl_le_bound (w + - c) (99 # 2) R99 ltac:(lra)) as Hd.
    destruct (Binary64.fl (w + - c)) as [d| | |]; cbn [jsle] in Hd;
      try discriminate; [|reflexivity].
    cbn [Binary64.mul]. apply fl_le_bound; [exact R4950|]. qprop. lra. }
  split; [exists w; split; [exact Ew | exact Hwb]|].
  split; [exact HP|]. split; [exact HL|].
  rewrite Hr. unfold jsgt in *.
  destruct (jslt (Fin 0) loss) eqn:Epos.
  - assert (Hratio : jsle (Fin (1 # 128)) (Binary64.div profit loss) = true).
    { destruct loss as [l| | |]; cbn [jslt jsle] in Epos, HL; try discriminate.
      qprop.
      destruct profit as [q| | |]; cbn [jsle] in HP; try discriminate.
      - cbn [Binary64.div].
        assert (Hz' : Qeq_bool l 0 = false) by (apply Qeq_bool_false; lra).
        rewrite Hz'. apply fl_ge_bound; [exact R128|].
        apply Qle_shift_div_l; [exact Epos|]. qprop. lra.
      - cbn [Binary64.div].
        assert (Hn : Qlt_bool l 0 = false) by (apply Qlt_bool_false; lra).
        rewrite Hn. reflexivity. }
    split; [|split; [|discriminate]].
    + intro E. rewrite E in Hratio. discriminate.
    + intros _. destruct (Binary64.div profit loss) as [q| | |];
        cbn [jsle jslt] in *; try discriminate; try reflexivity.
      qprop. apply Qlt_bool_iff. lra.
  - split; [discriminate|]. split; [discriminate|reflexivity].
Qed.

Lemma spread_profit_and_loss_bounds_witness :
  exists s,
    In s (Rounded.CreditSpreadAnalyzer.calculateCreditSpreads
            (map parsed scenario_spread_chain) CALL 648) /\
    jsle (Fin 50) (Rounded.CreditSpreadAnalyzer.maxProfit s) = true /\
    jsle (Rounded.CreditSpreadAnalyzer.maxLoss s) (Fin 4950) = true.
Proof.
  destruct (scenario_spread_computed 648) as [e [He _]].
  exists e. rewrite He. split; [left; reflexivity|].
  destruct (spread_profit_and_loss_bounds (map parsed scenario_spread_chain)
              CALL 648 e) as [_ [Hp [Hl _]]].
  - rewrite He. left. reflexivity.
  - split; [exact Hp | exact Hl].
Defined.




(* ================================================================== *)
(** * Further properties of the at-the-money selection *)
(* ================================================================== *)

Lemma filter_map_swap {A B : Type} (f : B -> bool) (g : A -> B) (l : list A) :
  filter f (map g l) = map g (filter (fun x => f (g x)) l).
Proof.
  induction l as [|x t IH]; simpl; [reflexivity|].
  rewrite IH. destruct (f (g x)); reflexivity.
Qed.

Lemma filter_andb {A : Type} (f g : A -> bool) (l : list A) :
  filter g (filter f l) = filter (fun x => f x && g x) l.
Proof.
  induction l as [|x t IH]; simpl; [reflexivity|].
  destruct (f x); simpl; [|assumption].
  destruct (g x); simpl; now rewrite IH.
Qed.

Lemma sorted_app_cross {A : Type} (R : A -> A -> Prop) (l1 l2 : list A) :
  StronglySorted R (l1 ++ l2) ->
  forall a b, In a l1 -> In b l2 -> R a b.
Proof.
  induction l1 as [|x t IH]; simpl; intros HS a b Ha Hb; [destruct Ha|].
  inversion HS as [|? ? HSt Hall]; subst.
  destruct Ha as [<-|Ha].
  - rewrite Forall_forall in Hall. apply Hall. apply in_or_app. now right.
  - now apply IH.
Qed.

(** The test [isATM] of a contract: [|strike - spot| / spot <= 0.02]. *)
Definition within_atm (spot : Q) (c : OptionContract) : bool :=
  jsle (jsdiv (Qabs (strikePrice c - spot)) spot) (Fin (2 # 100)).

(** The contracts [findNearestStrikes] chooses from. *)
Definition eligible (spot : Q) (ty : PutCall) (c : OptionContract) : bool :=
  PutCall_eqb (putCall c) ty && within_atm spot c.

Lemma findNearestStrikes_shape (sym : string) (spot : Q)
    (options : list OptionContract) (ty : PutCall) :
  ATMTradeAnalyzer.findNearestStrikes sym spot options ty
  = firstn 3
      (JsArray.sort
         (fun a b => Fin (ATMTradeAnalyzer.distanceFromATM a
                          - ATMTradeAnalyzer.distanceFromATM b))
         (map (ATMTradeAnalyzer.toATMOption sym ty spot)
            (filter (eligible spot ty) options))).
Proof.
  unfold ATMTradeAnalyzer.findNearestStrikes, JsArray.slice.
  cbn [Nat.sub skipn]. rewrite filter_map_swap, filter_andb. reflexivity.
Qed.

(** A contract of the requested side within 2% of spot is either among
    the (at most three) selected ones, or three were selected and none
    of them is farther from spot than it. *)
Theorem atm_selection_keeps_nearest (sym : string) (spot : Q)
    (options : list OptionContract) (ty : PutCall) (c : OptionContract) :
  In c options -> putCall c = ty -> within_atm spot c = true ->
  let selected := ATMTradeAnalyzer.findNearestStrikes sym spot options ty in
  (exists a, In a selected /\ ATMTradeAnalyzer.contract a = c) \/
  (length selected = 3%nat /\
   forall a, In a selected ->
     Qabs (strikePrice (ATMTradeAnalyzer.contract a) - spot)
     <= Qabs (strikePrice c - spot)).
Proof.
  intros Hin Hty Hatm selected.
  assert (Hinv : forall a, In a selected ->
            ATMTradeAnalyzer.distanceFromATM a
            = Qabs (strikePrice (ATMTradeAnalyzer.contract a) - spot)).
  { intros a Ha. apply findNearestStrikes_inv in Ha. tauto. }
  assert (Hsorted : StronglySorted
            (fun a b => ATMTradeAnalyzer.distanceFromATM a
                        <= ATMTradeAnalyzer.distanceFromATM b)
            (JsArray.sort
               (fun a b => Fin (ATMTradeAnalyzer.distanceFromATM a
                                - ATMTradeAnalyzer.distanceFromATM b))
               (map (ATMTradeAnalyzer.toATMOption sym ty spot)
                  (filter (eligible spot ty) options))))
    by apply (sort_by_key_sorted ATMTradeAnalyzer.distanceFromATM).
  subst selected. rewrite findNearestStrikes_shape in *.
  set (sorted := JsArray.sort _ _) in *.
  assert (Hc : In (ATMTradeAnalyzer.toATMOption sym ty spot c) sorted).
  { apply sort_In. apply in_map. apply filter_In. split; [assumption|].
    unfold eligible. rewrite Hty, Hatm. destruct ty; reflexivity. }
  rewrite <- (firstn_skipn 3 sorted) in Hc, Hsorted.
  apply in_app_or in Hc. destruct Hc as [Hc|Hc].
  - left. eexists. split; [exact Hc|reflexivity].
  - right. split.
    + rewrite length_firstn. apply Nat.min_l.
      destruct (Nat.le_gt_cases 3 (length sorted)) as [Hl|Hl]; [assumption|].
      rewrite skipn_all2 in Hc by lia. destruct Hc.
    + intros a Ha. rewrite <- (Hinv a Ha).
      apply (sorted_app_cross _ _ _ Hsorted a _ Ha Hc).
Qed.

Lemma atm_selection_keeps_nearest_witness :
  let selected := ATMTradeAnalyzer.findNearestStrikes EmptyString 645 atm_chain CALL in
  length selected = 3%nat /\
  forall a, In a selected ->
    Qabs (strikePrice (ATMTradeAnalyzer.contract a) - 645) <= 5.
Proof.
  destruct (atm_selection_keeps_nearest EmptyString 645 atm_chain CALL
              (contract CALL 650 1 2))
    as [[a [Ha Hc]]|[Hlen Hfar]].
  - right. right. right. right. left. reflexivity.
  - reflexivity.
  - reflexivity.
  - exfalso. simpl in Ha.
    destruct Ha as [<-|[<-|[<-|[]]]]; simpl in Hc; discriminate.
  - split; [exact Hlen|]. intros a Ha.
    apply Qle_trans with (Qabs (strikePrice (contract CALL 650 1 2) - 645)).
    + now apply Hfar.
    + simpl. apply Qle_bool_iff. reflexivity.
Defined.

(** The number of contracts selected on a side is the number of
    eligible contracts, capped at 3; with a spot price of 0 nothing is
    selected, whatever the chain. *)
Theorem atm_selection_count (sym : string) (spot : Q)
    (options : list OptionContract) (ty : PutCall) :
  length (ATMTradeAnalyzer.findNearestStrikes sym spot options ty)
  = Nat.min 3 (length (filter (eligible spot ty) options)) /\
  (spot == 0 -> ATMTradeAnalyzer.findNearestStrikes sym spot options ty = []).
Proof.
  rewrite findNearestStrikes_shape. split.
  - rewrite length_firstn, sort_length, length_map. reflexivity.
  - intro Hz.
    assert (Hnone : filter (eligible spot ty) options = []).
    { induction options as [|c t IH]; simpl; [reflexivity|].
      assert (Hc : eligible spot ty c = false).
      { unfold eligible, within_atm, jsdiv.
        rewrite (Qeq_eq_bool _ _ Hz).
        destruct (Qeq_bool (Qabs (strikePrice c - spot)) 0) eqn:E0;
          [apply andb_false_r|].
        destruct (Qlt_bool 0 (Qabs (strikePrice c - spot))) eqn:E1;
          [apply andb_false_r|].
        qprop. exfalso. apply E0.
        pose proof (Qabs_nonneg (strikePrice c - spot)). lra. }
      rewrite Hc. exact IH. }
    rewrite Hnone. reflexivity.
Qed.

Lemma atm_selection_count_witness :
  ATMTradeAnalyzer.findNearestStrikes EmptyString 0 atm_chain CALL = [] /\
  length (ATMTradeAnalyzer.findNearestStrikes EmptyString 645 atm_chain CALL) = 3%nat.
Proof.
  split.
  - apply (atm_selection_count EmptyString 0 atm_chain CALL). reflexivity.
  - reflexivity.
Defined.

(** ** Order flow *)

Lemma half_lt_ratio (vol oi : Q) : 0 < oi -> ((1 # 2) < vol / oi <-> oi < 2 * vol).
Proof.
  intro Hoi. split; intro H.
  - apply (Qmult_lt_compat_r _ _ oi Hoi) in H.
    assert (E : vol / oi * oi == vol) by (field; lra).
    rewrite E in H. lra.
  - apply Qlt_shift_div_l; [assumption|]. lra.
Qed.

(** As the program computes it, [analyzeOrderFlow] flags unusual
    volume only when open interest is positive and less than twice the
    volume, and for whole counts with open interest up to [2 ^ 52] it
    flags every such contract: the rounding of the quotient never
    decides the flag.  It answers BULLISH only for calls and BEARISH
    only for puts, in both cases exactly when the volume is unusual and
    the bid exceeds the rounded product of the ask and 0.9. *)
Theorem order_flow_signal_characterisation (option : ATMTradeAnalyzer.ATMOption) :
  let flow := Rounded.ATMTradeAnalyzer.analyzeOrderFlow option in
  let c := ATMTradeAnalyzer.contract option in
  let aggressive :=
    jsgt (Fin (bid c)) (Binary64.mul (Fin (ask c)) (Fin (Binary64.lit (9 # 10)))) in
  (ATMTradeAnalyzer.hasUnusualVolume flow = true ->
   0 < openInterest c /\ openInterest c < 2 * totalVolume c) /\
  (forall v n : Z,
     (0 < n <= 2 ^ 52)%Z ->
     totalVolume c == inject_Z v -> openInterest c == inject_Z n ->
     (ATMTradeAnalyzer.hasUnusualVolume flow = true <-> (n < 2 * v)%Z)) /\
  (ATMTradeAnalyzer.signal flow = ATMTradeAnalyzer.BULLISH <->
   ATMTradeAnalyzer.hasUnusualVolume flow = true /\
   ATMTradeAnalyzer.optionType option = CALL /\ aggressive = true) /\
  (ATMTradeAnalyzer.signal flow = ATMTradeAnalyzer.BEARISH <->
   ATMTradeAnalyzer.hasUnusualVolume flow = true /\
   ATMTradeAnalyzer.optionType option = PUT /\ aggressive = true).
Proof.
  cbv zeta. unfold Rounded.ATMTradeAnalyzer.analyzeOrderFlow. cbv zeta.
  cbn [ATMTradeAnalyzer.hasUnusualVolume ATMTradeAnalyzer.signal].
  set (c := ATMTradeAnalyzer.contract option).
  set (aggressive := jsgt (Fin (bid c)) _).
  set (unusual := jsgt _ (Fin (1 # 2))).
  assert (Rhalf : Binary64.representable (1 # 2)) by (representable 1%Z (-1)%Z).
  assert (Rnext : Binary64.representable ((2 ^ 52 + 1) # 2 ^ 53))
    by (representable (2 ^ 52 + 1)%Z (-53)%Z).
  assert (Hsound : unusual = true ->
                   0 < openInterest c /\ openInterest c < 2 * totalVolume c).
  { subst unusual. unfold jsgt.
    destruct (Qlt_bool 0 (openInterest c)) eqn:E; [|discriminate].
    apply Qlt_bool_iff in E. intro H. split; [exact E|].
    apply half_lt_ratio; [exact E|].
    apply Qnot_le_lt. intro Hle.
    cbn [Binary64.div] in H.
    assert (Hz : Qeq_bool (openInterest c) 0 = false) by (apply Qeq_bool_false; lra).
    rewrite Hz in H.
    pose proof (fl_le_bound _ _ Rhalf Hle) as Hb.
    apply jsle_not_lt in Hb. congruence. }
  split; [exact Hsound|]. split.
  { intros v n Hn Hv Ho. split.
    - intro H. apply Hsound in H. destruct H as [_ H]. rewrite Hv, Ho in H.
      assert (H' : inject_Z n < inject_Z (2 * v)) by (rewrite inject_Z_mult; exact H).
      rewrite <- Zlt_Qlt in H'. exact H'.
    - intro Hlt. subst unusual. unfold jsgt.
      assert (Hpos : 0 < openInterest c).
      { rewrite Ho. change 0 with (inject_Z 0). rewrite <- Zlt_Qlt. lia. }
      apply Qlt_bool_iff in Hpos as Hb. rewrite Hb. cbn [Binary64.div].
      assert (Hz : Qeq_bool (openInterest c) 0 = false) by (apply Qeq_bool_false; lra).
      rewrite Hz.
      assert (Hge : (2 ^ 52 + 1) # 2 ^ 53 <= totalVolume c / openInterest c).
      { apply Qle_shift_div_l; [exact Hpos|]. rewrite Hv, Ho.
        assert (H1 : inject_Z n + 1 <= 2 * inject_Z v).
        { change 1 with (inject_Z 1). change 2 with (inject_Z 2).
          rewrite <- inject_Z_plus, <- inject_Z_mult, <- Zle_Qle. lia. }
        assert (H2 : inject_Z n <= inject_Z (2 ^ 52)) by (rewrite <- Zle_Qle; lia).
        change (inject_Z (2 ^ 52)) with (4503599627370496 # 1) in H2.
        change ((2 ^ 52 + 1) # 2 ^ 53) with (4503599627370497 # 9007199254740992).
        lra. }
      pose proof (fl_ge_bound _ _ Rnext Hge) as Hf.
      destruct (Binary64.fl (totalVolume c / openInterest c)) as [q| | |];
        cbn [jsle jslt] in *; try discriminate; try reflexivity.
      qprop. apply Qlt_bool_iff.
      change ((2 ^ 52 + 1) # 2 ^ 53) with (4503599627370497 # 9007199254740992) in Hf.
      lra. }
  destruct unusual, (ATMTradeAnalyzer.optionType option), aggressive; simpl;
    split; split; intro H; try discriminate; try tauto;
    destruct H as [H1 [H2 H3]]; discriminate.
Qed.

(** Bid 2.97 on ask 3.30 with unusual volume: the bid is nine tenths of
    the ask as decimals, yet above the rounded product, and the call is
    reported BULLISH. *)
Lemma order_flow_signal_characterisation_witness :
  let option :=
    ATMTradeAnalyzer.toATMOption EmptyString CALL 645
      (parsed {| putCall := CALL; symbol := EmptyString; bid := 297 # 100;
                 ask := 330 # 100; mark := 3; totalVolume := 600;
                 delta := 1 # 2; openInterest := 1000;
                 strikePrice := 645 |}) in
  ATMTradeAnalyzer.hasUnusualVolume (Rounded.ATMTradeAnalyzer.analyzeOrderFlow option)
  = true /\
  ATMTradeAnalyzer.signal (Rounded.ATMTradeAnalyzer.analyzeOrderFlow option)
  = ATMTradeAnalyzer.BULLISH /\
  ~ (330 # 100) * (9 # 10) < 297 # 100.
Proof.
  cbv zeta. split; [|split].
  - match goal with
    | |- ATMTradeAnalyzer.hasUnusualVolume
           (Rounded.ATMTradeAnalyzer.analyzeOrderFlow ?o) = true =>
        destruct (order_flow_signal_characterisation o) as [_ [Hcounts _]]
    end.
    apply (Hcounts 600%Z 1000%Z); [|vm_compute; reflexivity|vm_compute; reflexivity|lia].
    split; [reflexivity|]. vm_compute. discriminate.
  - vm_compute. reflexivity.
  - intro H. vm_compute in H. discriminate H.
Defined.

(* ================================================================== *)
(** * analyzeATMTrades and findBestSpreads *)
(* ================================================================== *)

(** The two drivers hand each candidate to the AI collaborator and to
    the store.  The collaborator is an argument: its answer to the
    [i]-th request of a run.  The store is the list of rows handed to
    it.  Console output is left out. *)

Fixpoint indexed_from {A : Type} (i : nat) (l : list A) : list (nat * A) :=
  match l with
  | [] => []
  | x :: t => (i, x) :: indexed_from (S i) t
  end.

Module ATMTrades.

(** Result of [predictTradeWithAI]. *)
Record Prediction : Type := {
  signal : string;
  confidence : Q;
  reasoning : string;
  predictedDirection : option string;
  predictedMovePercent : option Q;
  model : string
}.

(** Argument of [supabaseService.storeTradeSignal]. *)
Record TradeSignal : Type := {
  symbol : string;
  optionType : PutCall;
  signalType : string;
  optionSymbol : string;
  strikePrice : Q;
  isAtm : bool;
  currentPrice : Q;
  underlyingPrice : Q;
  aiConfidence : Q;
  aiReasoning : string;
  aiModelUsed : string;
  rowPredictedDirection : option string;
  rowPredictedMovePercent : option Q;
  expiresAt : Z
}.

(** Element of the returned array [signals]. *)
Record Actionable : Type := {
  option : ATMTradeAnalyzer.ATMOption;
  prediction : Prediction;
  orderFlow : ATMTradeAnalyzer.OrderFlow
}.

Section Run.
Variable predictTradeWithAI :
  nat -> ATMTradeAnalyzer.ATMOption -> Q -> ATMTradeAnalyzer.OrderFlow -> Prediction.
(** [Date.now()] during the [i]-th iteration. *)
Variable now : nat -> Z.

Definition actionable (p : Prediction) : bool :=
  negb (String.eqb (signal p) "HOLD"%string) && Qle_bool 60 (confidence p).

(** Body of the loop over [allATMOptions]; the state is the store and
    the array [signals]. *)
Definition loopBody (sym : string) (underlying : Q)
    (st : list TradeSignal * list Actionable)
    (io : nat * ATMTradeAnalyzer.ATMOption) : list TradeSignal * list Actionable :=
  let (i, opt) := io in
  let flow := ATMTradeAnalyzer.analyzeOrderFlow opt in
  let p := predictTradeWithAI i opt underlying flow in
  if actionable p then
    (fst st ++
       [ {| symbol := sym;
            optionType := ATMTradeAnalyzer.optionType opt;
            signalType := signal p;
            optionSymbol := Schwab.symbol (ATMTradeAnalyzer.contract opt);
            strikePrice := Schwab.strikePrice (ATMTradeAnalyzer.contract opt);
            isAtm := ATMTradeAnalyzer.isATM opt;
            currentPrice := Schwab.mark (ATMTradeAnalyzer.contract opt);
            underlyingPrice := underlying;
            aiConfidence := confidence p;
            aiReasoning := reasoning p;
            aiModelUsed := model p;
            rowPredictedDirection := predictedDirection p;
            rowPredictedMovePercent := predictedMovePercent p;
            expiresAt := (now i + 6 * 60 * 60 * 1000)%Z |} ],
     snd st ++ [ {| option := opt; prediction := p; orderFlow := flow |} ])
  else st.

(** Returns the store afterwards and the array [signals]. *)
Definition analyzeATMTrades (sym : string) (calls puts : list OptionContract)
    (underlying : Q) (stored : list TradeSignal)
  : list TradeSignal * list Actionable :=
  let found := ATMTradeAnalyzer.findATMOptions sym calls puts underlying in
  let allATMOptions :=
    ATMTradeAnalyzer.atmCalls found ++ ATMTradeAnalyzer.atmPuts found in
  fold_left (loopBody sym underlying) (indexed_from 0 allATMOptions) (stored, []).

End Run.
End ATMTrades.

Module BestSpreads.

Definition TOP_SPREADS_COUNT : nat := 20.

(** Result of [analyzeSpreadWithAI]. *)
Record Analysis : Type := {
  score : Q;
  confidence : Q;
  reasoning : string;
  model : string
}.

(** Element of [analyzedSpreads]: the spread with the four AI fields. *)
Record Analyzed : Type := {
  spread : CreditSpreadAnalyzer.SpreadOpportunity;
  aiScore : Q;
  aiConfidence : Q;
  aiReasoning : string;
  aiModelUsed : string
}.

(** Argument of [supabaseService.storeCreditSpread]. *)
Record CreditSpreadRow : Type := {
  symbol : string;
  spreadType : PutCall;
  shortStrike : Q;
  longStrike : Q;
  shortOptionSymbol : string;
  longOptionSymbol : string;
  creditReceived : Q;
  maxProfit : Q;
  maxLoss : Q;
  breakEven : Q;
  riskRewardRatio : JsNum;
  probabilityOfProfit : Q;
  deltaSpread : Q;
  rowAiScore : Q;
  rowAiConfidence : Q;
  rowAiReasoning : string;
  rowAiModelUsed : string;
  underlyingPrice : Q;
  expirationDate : string;
  rank : nat
}.

(** [x || 0] on a finite number. *)
Definition or_zero (x : Q) : Q := if Qeq_bool x 0 then 0 else x.

Section Run.
Variable analyzeSpreadWithAI :
  nat -> CreditSpreadAnalyzer.SpreadOpportunity -> Q -> Analysis.

Definition topSpreads (calls puts : list OptionContract) (underlying : Q)
  : list CreditSpreadAnalyzer.SpreadOpportunity :=
  let callSpreads := CreditSpreadAnalyzer.calculateCreditSpreads calls CALL underlying in
  let putSpreads := CreditSpreadAnalyzer.calculateCreditSpreads puts PUT underlying in
  JsArray.slice 0 (TOP_SPREADS_COUNT / 2) callSpreads
  ++ JsArray.slice 0 (TOP_SPREADS_COUNT / 2) putSpreads.

(** Body of the loop over [topSpreads]; the state is the store and the
    array [analyzedSpreads]. *)
Definition loopBody (underlying : Q) (expiration : string)
    (st : list CreditSpreadRow * list Analyzed)
    (item : nat * CreditSpreadAnalyzer.SpreadOpportunity)
  : list CreditSpreadRow * list Analyzed :=
  let (i, s) := item in
  let a := analyzeSpreadWithAI i s underlying in
  (fst st ++
     [ {| symbol := "SPX"%string;
          spreadType := CreditSpreadAnalyzer.spreadType s;
          shortStrike := CreditSpreadAnalyzer.shortStrike s;
          longStrike := CreditSpreadAnalyzer.longStrike s;
          shortOptionSymbol := Schwab.symbol (CreditSpreadAnalyzer.shortOption s);
          longOptionSymbol := Schwab.symbol (CreditSpreadAnalyzer.longOption s);
          creditReceived := CreditSpreadAnalyzer.creditReceived s;
          maxProfit := CreditSpreadAnalyzer.maxProfit s;
          maxLoss := CreditSpreadAnalyzer.maxLoss s;
          breakEven := CreditSpreadAnalyzer.breakEven s;
          riskRewardRatio := CreditSpreadAnalyzer.riskRewardRatio s;
          probabilityOfProfit := CreditSpreadAnalyzer.probabilityOfProfit s;
          deltaSpread := CreditSpreadAnalyzer.deltaSpread s;
          rowAiScore := score a;
          rowAiConfidence := confidence a;
          rowAiReasoning := reasoning a;
          rowAiModelUsed := model a;
          underlyingPrice := underlying;
          expirationDate := expiration;
          rank := S i |} ],
   snd st ++
     [ {| spread := s;
          aiScore := score a;
          aiConfidence := confidence a;
          aiReasoning := reasoning a;
          aiModelUsed := model a |} ]).

(** Returns the store afterwards and the sorted array. *)
Definition findBestSpreads (calls puts : list OptionContract)
    (underlying : Q) (expiration : string) (stored : list CreditSpreadRow)
  : list CreditSpreadRow * list Analyzed :=
  let st :=
    fold_left (loopBody underlying expiration)
      (indexed_from 0 (topSpreads calls puts underlying)) (stored, []) in
  (fst st,
   JsArray.sort (fun a b => Fin (or_zero (aiScore b) - or_zero (aiScore a))) (snd st)).

End Run.
End BestSpreads.

Lemma indexed_from_snd {A : Type} (k : nat) (l : list A) :
  map snd (indexed_from k l) = l.
Proof.
  revert k. induction l as [|x t IH]; intro k; simpl; [reflexivity|].
  now rewrite IH.
Qed.

Lemma indexed_from_fst {A : Type} (k : nat) (l : list A) :
  map fst (indexed_from k l) = seq k (length l).
Proof.
  revert k. induction l as [|x t IH]; intro k; simpl; [reflexivity|].
  now rewrite IH.
Qed.

Lemma indexed_from_length {A : Type} (k : nat) (l : list A) :
  length (indexed_from k l) = length l.
Proof. rewrite <- (length_map snd), indexed_from_snd. reflexivity. Qed.

Lemma indexed_from_In {A : Type} (k i : nat) (l : list A) (x : A) :
  In (i, x) (indexed_from k l) -> In x l.
Proof.
  intro H. apply (in_map snd) in H. now rewrite indexed_from_snd in H.
Qed.

Lemma filter_length_le {A : Type} (f : A -> bool) (l : list A) :
  (length (filter f l) <= length l)%nat.
Proof.
  induction l as [|x t IH]; simpl; [lia|]. destruct (f x); simpl; lia.
Qed.

Section ATMTradesFacts.
Import ATMTrades.
Variable predict :
  nat -> ATMTradeAnalyzer.ATMOption -> Q -> ATMTradeAnalyzer.OrderFlow -> Prediction.
Variable now : nat -> Z.
Variable sym : string.
Variable underlying : Q.

Definition answer (io : nat * ATMTradeAnalyzer.ATMOption) : Prediction :=
  predict (fst io) (snd io) underlying (ATMTradeAnalyzer.analyzeOrderFlow (snd io)).

Definition kept (io : nat * ATMTradeAnalyzer.ATMOption) : bool :=
  actionable (answer io).

Definition entryOf (io : nat * ATMTradeAnalyzer.ATMOption) : Actionable :=
  {| option := snd io; prediction := answer io;
     orderFlow := ATMTradeAnalyzer.analyzeOrderFlow (snd io) |}.

Definition rowOf (io : nat * ATMTradeAnalyzer.ATMOption) : TradeSignal :=
  {| symbol := sym;
     optionType := ATMTradeAnalyzer.optionType (snd io);
     signalType := signal (answer io);
     optionSymbol := Schwab.symbol (ATMTradeAnalyzer.contract (snd io));
     strikePrice := Schwab.strikePrice (ATMTradeAnalyzer.contract (snd io));
     isAtm := ATMTradeAnalyzer.isATM (snd io);
     currentPrice := Schwab.mark (ATMTradeAnalyzer.contract (snd io));
     underlyingPrice := underlying;
     aiConfidence := confidence (answer io);
     aiReasoning := reasoning (answer io);
     aiModelUsed := model (answer io);
     rowPredictedDirection := predictedDirection (answer io);
     rowPredictedMovePercent := predictedMovePercent (answer io);
     expiresAt := (now (fst io) + 6 * 60 * 60 * 1000)%Z |}.

Lemma atm_loopBody_eq (st : list TradeSignal * list Actionable)
    (io : nat * ATMTradeAnalyzer.ATMOption) :
  loopBody predict now sym underlying st io
  = if kept io then (fst st ++ [rowOf io], snd st ++ [entryOf io]) else st.
Proof. destruct io as [i opt]. reflexivity. Qed.

Lemma atm_fold (l : list (nat * ATMTradeAnalyzer.ATMOption))
    (st : list TradeSignal * list Actionable) :
  fold_left (loopBody predict now sym underlying) l st
  = (fst st ++ map rowOf (filter kept l), snd st ++ map entryOf (filter kept l)).
Proof.
  revert st. induction l as [|io t IH]; intros [rows sigs]; simpl fold_left.
  - simpl. now rewrite !app_nil_r.
  - rewrite IH, atm_loopBody_eq. simpl filter.
    destruct (kept io); simpl; [|reflexivity].
    now rewrite <- !app_assoc.
Qed.

Lemma actionable_iff (p : Prediction) :
  actionable p = true <-> signal p <> "HOLD"%string /\ 60 <= confidence p.
Proof.
  unfold actionable. rewrite andb_true_iff, negb_true_iff, Qle_bool_iff.
  split; intros [H1 H2]; (split; [|assumption]).
  - intro E. rewrite E in H1. now rewrite String.eqb_refl in H1.
  - destruct (String.eqb_spec (signal p) "HOLD"); [contradiction|reflexivity].
Qed.

End ATMTradesFacts.


Section BestSpreadsFacts.
Import BestSpreads.
Variable analyze : nat -> CreditSpreadAnalyzer.SpreadOpportunity -> Q -> Analysis.
Variable underlying : Q.
Variable expiration : string.

Definition analysisOf (item : nat * CreditSpreadAnalyzer.SpreadOpportunity) : Analysis :=
  analyze (fst item) (snd item) underlying.

Definition analyzedOf (item : nat * CreditSpreadAnalyzer.SpreadOpportunity) : Analyzed :=
  {| spread := snd item;
     aiScore := score (analysisOf item);
     aiConfidence := confidence (analysisOf item);
     aiReasoning := reasoning (analysisOf item);
     aiModelUsed := model (analysisOf item) |}.

Definition spreadRowOf (item : nat * CreditSpreadAnalyzer.SpreadOpportunity)
  : CreditSpreadRow :=
  {| symbol := "SPX"%string;
     spreadType := CreditSpreadAnalyzer.spreadType (snd item);
     shortStrike := CreditSpreadAnalyzer.shortStrike (snd item);
     longStrike := CreditSpreadAnalyzer.longStrike (snd item);
     shortOptionSymbol := Schwab.symbol (CreditSpreadAnalyzer.shortOption (snd item));
     longOptionSymbol := Schwab.symbol (CreditSpreadAnalyzer.longOption (snd item));
     creditReceived := CreditSpreadAnalyzer.creditReceived (snd item);
     maxProfit := CreditSpreadAnalyzer.maxProfit (snd item);
     maxLoss := CreditSpreadAnalyzer.maxLoss (snd item);
     breakEven := CreditSpreadAnalyzer.breakEven (snd item);
     riskRewardRatio := CreditSpreadAnalyzer.riskRewardRatio (snd item);
     probabilityOfProfit := CreditSpreadAnalyzer.probabilityOfProfit (snd item);
     deltaSpread := CreditSpreadAnalyzer.deltaSpread (snd item);
     rowAiScore := score (analysisOf item);
     rowAiConfidence := confidence (analysisOf item);
     rowAiReasoning := reasoning (analysisOf item);
     rowAiModelUsed := model (analysisOf item);
     underlyingPrice := underlying;
     expirationDate := expiration;
     rank := S (fst item) |}.

Lemma spreads_fold (l : list (nat * CreditSpreadAnalyzer.SpreadOpportunity))
    (st : list CreditSpreadRow * list Analyzed) :
  fold_left (loopBody analyze underlying expiration) l st
  = (fst st ++ map spreadRowOf l, snd st ++ map analyzedOf l).
Proof.
  revert st. induction l as [|[i s] t IH]; intros [rows done]; simpl fold_left.
  - simpl. now rewrite !app_nil_r.
  - rewrite IH. simpl. now rewrite <- !app_assoc.
Qed.

Lemma or_zero_eq (x : Q) : or_zero x == x.
Proof.
  unfold or_zero. destruct (Qeq_bool x 0) eqn:E; [|reflexivity].
  apply Qeq_bool_iff in E. now rewrite E.
Qed.

Lemma topSpreads_length (calls puts : list OptionContract) :
  (length (topSpreads calls puts underlying) <= 20)%nat.
Proof.
  unfold topSpreads, JsArray.slice. cbv zeta. rewrite length_app.
  change (TOP_SPREADS_COUNT / 2 - 0)%nat with 10%nat. cbn [skipn].
  pose proof (firstn_le_length 10
    (CreditSpreadAnalyzer.calculateCreditSpreads calls CALL underlying)).
  pose proof (firstn_le_length 10
    (CreditSpreadAnalyzer.calculateCreditSpreads puts PUT underlying)).
  lia.
Qed.

Lemma topSpreads_In (calls puts : list OptionContract)
    (s : CreditSpreadAnalyzer.SpreadOpportunity) :
  In s (topSpreads calls puts underlying) ->
  In s (CreditSpreadAnalyzer.calculateCreditSpreads calls CALL underlying) \/
  In s (CreditSpreadAnalyzer.calculateCreditSpreads puts PUT underlying).
Proof.
  unfold topSpreads, JsArray.slice. cbv zeta. cbn [skipn].
  intro H. apply in_app_or in H.
  destruct H as [H|H]; apply firstn_incl in H; auto.
Qed.

End BestSpreadsFacts.



(* ================================================================== *)
(** * The collection cycle (services/data-collector.ts) *)
(* ================================================================== *)

Module Collection.

(** [Object.values] of the per-strike map of one expiration date: the
    contract arrays in property order. *)
Definition OptionDateMap : Type := list (list OptionContract).

(** [Object.values] of [callExpDateMap] / [putExpDateMap]. *)
Definition ExpDateMap : Type := list OptionDateMap.

(** [SchwabOptionsChainResponse], restricted to what the cycle reads. *)
Record Chain : Type := {
  underlyingPrice : Q;
  callExpDateMap : option ExpDateMap;
  putExpDateMap : option ExpDateMap
}.

(** Argument of [supabaseService.storeOptionsQuote], restricted to the
    contract fields of the embedding. *)
Record OptionsQuote : Type := {
  symbol : string;
  optionSymbol : string;
  strikePrice : Q;
  expirationDate : string;
  optionType : PutCall;
  bid : Q;
  ask : Q;
  mark : Q;
  volume : Q;
  openInterest : Q;
  delta : Q;
  quoteUnderlyingPrice : Q
}.

(** The rows handed to the persistence collaborator so far. *)
Record Store : Type := {
  quotes : list OptionsQuote;
  nakedPositions : list DataCollector.NakedPosition
}.

Section Cycle.
Variable NAKED_THRESHOLD : Q.
(** [new Date().toISOString().split('T')[0]]. *)
Variable today : string.

Definition storeOption (sym : string) (contract : OptionContract)
    (underlying : Q) (expiration : string) (st : Store) : Store :=
  {| quotes :=
       quotes st ++
       [ {| symbol := sym;
            optionSymbol := Schwab.symbol contract;
            strikePrice := Schwab.strikePrice contract;
            expirationDate := expiration;
            optionType := Schwab.putCall contract;
            bid := Schwab.bid contract;
            ask := Schwab.ask contract;
            mark := Schwab.mark contract;
            volume := Schwab.totalVolume contract;
            openInterest := Schwab.openInterest contract;
            delta := Schwab.delta contract;
            quoteUnderlyingPrice := underlying |} ];
     nakedPositions := nakedPositions st |}.

Definition checkNakedPosition (sym : string) (contract : OptionContract)
    (underlying : Q) (st : Store) : Store :=
  {| quotes := quotes st;
     nakedPositions :=
       DataCollector.checkNakedPosition NAKED_THRESHOLD sym contract underlying
         (nakedPositions st) |}.

(** Body of the innermost loop. *)
Definition perContract (sym : string) (underlying : Q) (st : Store)
    (contract : OptionContract) : Store :=
  checkNakedPosition sym contract underlying
    (storeOption sym contract underlying today st).

Definition perSide (sym : string) (underlying : Q) (m : option ExpDateMap)
    (st : Store) : Store :=
  match m with
  | Some dates =>
      fold_left
        (fun st dateMap =>
           fold_left
             (fun st contracts => fold_left (perContract sym underlying) contracts st)
             dateMap st)
        dates st
  | None => st
  end.

Definition processOptionsChain (sym : string) (chain : Chain) (st : Store) : Store :=
  let underlying := underlyingPrice chain in
  perSide sym underlying (putExpDateMap chain)
    (perSide sym underlying (callExpDateMap chain) st).

(** [fetchOptionsChain] at the [i]-th symbol of the cycle: the chain,
    or [None] for the [null] every failure is turned into. *)
Variable fetchOptionsChain : nat -> string -> option Chain.
(** [String.prototype.trim]. *)
Variable trim : string -> string.

Definition perSymbol (st : Store) (item : nat * string) : Store :=
  match fetchOptionsChain (fst item) (trim (snd item)) with
  | Some chain => processOptionsChain (trim (snd item)) chain st
  | None => st
  end.

Definition collectData (TRACKED_SYMBOLS : list string) (st : Store) : Store :=
  fold_left perSymbol (indexed_from 0 TRACKED_SYMBOLS) st.

End Cycle.

(** The contracts of one side in the order the loops visit them; also
    the array [calls] / [puts] the chain route builds. *)
Definition contractsOf (m : option ExpDateMap) : list OptionContract :=
  match m with
  | Some dates => concat (concat dates)
  | None => []
  end.

End Collection.

Section CollectionFacts.
Import Collection.
Variable thr : Q.
Variable today : string.

Definition quoteRow (sym : string) (underlying : Q) (c : OptionContract)
  : OptionsQuote :=
  {| symbol := sym;
     optionSymbol := Schwab.symbol c;
     strikePrice := Schwab.strikePrice c;
     expirationDate := today;
     optionType := Schwab.putCall c;
     bid := Schwab.bid c;
     ask := Schwab.ask c;
     mark := Schwab.mark c;
     volume := Schwab.totalVolume c;
     openInterest := Schwab.openInterest c;
     delta := Schwab.delta c;
     quoteUnderlyingPrice := underlying |}.

(** The test under which a contract is reported as a naked position. *)
Definition fires (c : OptionContract) : bool :=
  negb (Qeq_bool (totalVolume c) 0) && negb (Qeq_bool (Schwab.openInterest c) 0)
  && exceeds thr c.

Lemma checkNakedPosition_by_test (sym : string) (c : OptionContract) (u : Q)
    (stored : list DataCollector.NakedPosition) :
  DataCollector.checkNakedPosition thr sym c u stored
  = stored ++ map (fun c => nakedRow thr sym c u) (filter fires [c]).
Proof.
  simpl. unfold fires.
  destruct (Qeq_bool (totalVolume c) 0) eqn:Hv; simpl.
  { rewrite checkNakedPosition_silent; [now rewrite app_nil_r|].
    qprop. tauto. }
  destruct (Qeq_bool (Schwab.openInterest c) 0) eqn:Ho; simpl.
  { rewrite checkNakedPosition_silent; [now rewrite app_nil_r|].
    qprop. tauto. }
  destruct (exceeds thr c) eqn:Ht; simpl; qprop.
  - now apply checkNakedPosition_fires.
  - rewrite checkNakedPosition_silent; [now rewrite app_nil_r|]. tauto.
Qed.

Lemma perContract_fold (sym : string) (u : Q) (cs : list OptionContract) (st : Store) :
  fold_left (perContract thr today sym u) cs st
  = {| quotes := quotes st ++ map (quoteRow sym u) cs;
       nakedPositions :=
         nakedPositions st
         ++ map (fun c => nakedRow thr sym c u) (filter fires cs) |}.
Proof.
  revert st. induction cs as [|c t IH]; intros [qs ns]; simpl fold_left.
  - simpl. now rewrite !app_nil_r.
  - rewrite IH. unfold perContract, checkNakedPosition, storeOption.
    cbn [quotes nakedPositions].
    rewrite checkNakedPosition_by_test.
    change (c :: t) with ([c] ++ t).
    rewrite filter_app, !map_app, <- !app_assoc. reflexivity.
Qed.

Lemma perSide_eq (sym : string) (u : Q) (m : option ExpDateMap) (st : Store) :
  perSide thr today sym u m st
  = {| quotes := quotes st ++ map (quoteRow sym u) (contractsOf m);
       nakedPositions :=
         nakedPositions st
         ++ map (fun c => nakedRow thr sym c u) (filter fires (contractsOf m)) |}.
Proof.
  destruct m as [dates|]; simpl.
  2: { destruct st. simpl. now rewrite !app_nil_r. }
  revert st. induction dates as [|d ds IH]; intros [qs ns]; simpl fold_left.
  - simpl. now rewrite !app_nil_r.
  - rewrite IH. clear IH.
    assert (Hd : forall st,
              fold_left
                (fun st contracts => fold_left (perContract thr today sym u) contracts st)
                d st
              = {| quotes := quotes st ++ map (quoteRow sym u) (concat d);
                   nakedPositions :=
                     nakedPositions st
                     ++ map (fun c => nakedRow thr sym c u) (filter fires (concat d)) |}).
    { induction d as [|cs d' IHd]; intros [qs' ns']; simpl fold_left.
      - simpl. now rewrite !app_nil_r.
      - rewrite IHd, perContract_fold. simpl.
        rewrite filter_app, !map_app, <- !app_assoc. reflexivity. }
    rewrite Hd. simpl.
    rewrite concat_app, filter_app, !map_app, <- !app_assoc. reflexivity.
Qed.

Lemma processOptionsChain_eq (sym : string) (chain : Chain) (st : Store) :
  let cs := contractsOf (callExpDateMap chain) ++ contractsOf (putExpDateMap chain) in
  processOptionsChain thr today sym chain st
  = {| quotes := quotes st ++ map (quoteRow sym (underlyingPrice chain)) cs;
       nakedPositions :=
         nakedPositions st
         ++ map (fun c => nakedRow thr sym c (underlyingPrice chain)) (filter fires cs) |}.
Proof.
  cbv zeta. unfold processOptionsChain. cbv zeta.
  rewrite !perSide_eq. simpl.
  rewrite filter_app, !map_app, <- !app_assoc. reflexivity.
Qed.

End CollectionFacts.

Definition chainContracts (chain : Collection.Chain) : list OptionContract :=
  Collection.contractsOf (Collection.callExpDateMap chain)
  ++ Collection.contractsOf (Collection.putExpDateMap chain).

(** [processOptionsChain] hands the store one quote per contract of the
    chain, calls before puts in traversal order, and one naked-position
    row for exactly those contracts with non-zero volume, non-zero open
    interest and volume above the binary64 product of open interest and
    threshold, in the same order; a side whose map is missing
    contributes nothing.  At the default threshold 1.5 and for an open
    interest that is a count below [2 ^ 51] the test is
    volume > open interest x 1.5 on the exact numbers. *)
Theorem process_chain_stores_every_contract
    (threshold : Q) (today sym : string) (chain : Collection.Chain)
    (st : Collection.Store) :
  let after := Collection.processOptionsChain threshold today sym chain st in
  let u := Collection.underlyingPrice chain in
  Collection.quotes after
  = Collection.quotes st ++ map (quoteRow today sym u) (chainContracts chain) /\
  Collection.nakedPositions after
  = Collection.nakedPositions st
    ++ map (fun c => nakedRow threshold sym c u)
         (filter (fires threshold) (chainContracts chain)) /\
  (forall c,
     fires threshold c = true <->
     ~ totalVolume c == 0 /\ ~ openInterest c == 0 /\
     jsgt (Fin (totalVolume c))
       (Binary64.mul (Fin (openInterest c)) (Fin threshold)) = true) /\
  (forall c (n : Z),
     (0 <= n < 2 ^ 51)%Z -> openInterest c == inject_Z n ->
     threshold == DataCollector.DEFAULT_NAKED_THRESHOLD ->
     (fires threshold c = true <->
      ~ totalVolume c == 0 /\ ~ openInterest c == 0 /\
      openInterest c * (3 # 2) < totalVolume c)).
Proof.
  cbv zeta. rewrite processOptionsChain_eq. cbv zeta. simpl.
  split; [reflexivity|]. split; [reflexivity|].
  assert (Htest : forall c,
            fires threshold c = true <->
            ~ totalVolume c == 0 /\ ~ openInterest c == 0 /\
            exceeds threshold c = true).
  { intro c. unfold fires. rewrite !andb_true_iff, !negb_true_iff.
    rewrite !Qeq_bool_false. tauto. }
  split; [exact Htest|].
  intros c n Hn Hoi Hthr. rewrite Htest.
  rewrite (exceeds_exact threshold c
             (default_threshold_product _ _ n Hn Hoi Hthr)).
  rewrite Hthr. reflexivity.
Qed.

Definition sample_chain : Collection.Chain :=
  {| Collection.underlyingPrice := 645;
     Collection.callExpDateMap := Some [ [ [quote 200 100]; [quote 140 100] ] ];
     Collection.putExpDateMap := None |}.

Lemma process_chain_stores_every_contract_witness :
  let after :=
    Collection.processOptionsChain (3 # 2) EmptyString EmptyString sample_chain
      {| Collection.quotes := []; Collection.nakedPositions := [] |} in
  length (Collection.quotes after) = 2%nat /\
  map DataCollector.volume (Collection.nakedPositions after) = [200] /\
  (fires (3 # 2) (quote 140 100) = true <->
   ~ 140 == 0 /\ ~ 100 == 0 /\ 100 * (3 # 2) < 140).
Proof.
  cbv zeta.
  destruct (process_chain_stores_every_contract (3 # 2) EmptyString EmptyString
              sample_chain
              {| Collection.quotes := []; Collection.nakedPositions := [] |})
    as [Hq [Hn [_ Hdef]]].
  rewrite Hq, Hn. split; [reflexivity|]. split; [reflexivity|].
  apply (Hdef (quote 140 100) 100%Z); [lia | reflexivity | reflexivity].
Defined.

(** What one symbol of a cycle adds to the store. *)
Definition symbolQuotes (today : string) (fetch : nat -> string -> option Collection.Chain)
    (trim : string -> string) (item : nat * string) : list Collection.OptionsQuote :=
  match fetch (fst item) (trim (snd item)) with
  | Some chain =>
      map (quoteRow today (trim (snd item)) (Collection.underlyingPrice chain))
        (chainContracts chain)
  | None => []
  end.

Definition symbolNaked (threshold : Q) (fetch : nat -> string -> option Collection.Chain)
    (trim : string -> string) (item : nat * string) : list DataCollector.NakedPosition :=
  match fetch (fst item) (trim (snd item)) with
  | Some chain =>
      map (fun c => nakedRow threshold (trim (snd item)) c (Collection.underlyingPrice chain))
        (filter (fires threshold) (chainContracts chain))
  | None => []
  end.

Lemma collectData_fold (threshold : Q) (today : string)
    (fetch : nat -> string -> option Collection.Chain) (trim : string -> string)
    (items : list (nat * string)) (st : Collection.Store) :
  fold_left (Collection.perSymbol threshold today fetch trim) items st
  = {| Collection.quotes :=
         Collection.quotes st ++ flat_map (symbolQuotes today fetch trim) items;
       Collection.nakedPositions :=
         Collection.nakedPositions st
         ++ flat_map (symbolNaked threshold fetch trim) items |}.
Proof.
  revert st. induction items as [|item t IH]; intros [qs ns]; simpl fold_left.
  - simpl. now rewrite !app_nil_r.
  - rewrite IH. unfold Collection.perSymbol, symbolQuotes, symbolNaked.
    simpl flat_map.
    destruct (fetch (fst item) (trim (snd item))) as [chain|].
    + rewrite processOptionsChain_eq. cbv zeta. simpl.
      fold (chainContracts chain). now rewrite <- !app_assoc.
    + reflexivity.
Qed.

(** A collection cycle adds, symbol after symbol, the rows of every
    symbol whose chain could be fetched; a symbol whose fetch fails adds
    nothing and does not keep the symbols after it from being processed.
    When every fetch fails the store is left as it was. *)
Theorem collect_data_skips_failed_symbols
    (threshold : Q) (today : string)
    (fetch : nat -> string -> option Collection.Chain) (trim : string -> string)
    (symbols : list string) (st : Collection.Store) :
  let after := Collection.collectData threshold today fetch trim symbols st in
  Collection.quotes after
  = Collection.quotes st
    ++ flat_map (symbolQuotes today fetch trim) (indexed_from 0 symbols) /\
  Collection.nakedPositions after
  = Collection.nakedPositions st
    ++ flat_map (symbolNaked threshold fetch trim) (indexed_from 0 symbols) /\
  ((forall i s, fetch i s = None) -> after = st).
Proof.
  cbv zeta. unfold Collection.collectData. rewrite collectData_fold. simpl.
  split; [reflexivity|]. split; [reflexivity|].
  intro Hnone. destruct st as [qs ns]. simpl.
  assert (Hq : forall items, flat_map (symbolQuotes today fetch trim) items = []).
  { induction items as [|it t IH]; simpl; [reflexivity|].
    unfold symbolQuotes at 1. now rewrite Hnone. }
  assert (Hn : forall items, flat_map (symbolNaked threshold fetch trim) items = []).
  { induction items as [|it t IH]; simpl; [reflexivity|].
    unfold symbolNaked at 1. now rewrite Hnone. }
  now rewrite Hq, Hn, !app_nil_r.
Qed.

(** A cycle over SPY, QQQ, SPX in which only the fetch for QQQ (the
    second symbol) fails. *)
Definition fetch_all_but_second (i : nat) (s : string) : option Collection.Chain :=
  match i with
  | 1%nat => None
  | _ => Some sample_chain
  end.

Lemma collect_data_skips_failed_symbols_witness :
  let empty := {| Collection.quotes := []; Collection.nakedPositions := [] |} in
  map Collection.symbol
    (Collection.quotes
       (Collection.collectData (3 # 2) EmptyString fetch_all_but_second (fun s => s)
          ["SPY"; "QQQ"; "SPX"]%string empty))
  = ["SPY"; "SPY"; "SPX"; "SPX"]%string /\
  Collection.collectData (3 # 2) EmptyString (fun _ _ => None) (fun s => s)
    ["SPY"; "QQQ"; "SPX"]%string empty = empty.
Proof.
  cbv zeta. split.
  - destruct (collect_data_skips_failed_symbols (3 # 2) EmptyString
                fetch_all_but_second (fun s => s) ["SPY"; "QQQ"; "SPX"]%string
                {| Collection.quotes := []; Collection.nakedPositions := [] |})
      as [Hq _].
    rewrite Hq. reflexivity.
  - apply (collect_data_skips_failed_symbols (3 # 2) EmptyString
             (fun _ _ => None) (fun s => s) ["SPY"; "QQQ"; "SPX"]%string).
    reflexivity.
Defined.

(** ** More on start / stop *)

(** The [start] calls that find the collector stopped: those not
    directly preceded by another [start]. *)
Fixpoint switch_ons (prev : DataCollector.Call) (calls : list DataCollector.Call)
  : nat :=
  match calls with
  | [] => O
  | c :: t =>
      match prev, c with
      | DataCollector.CallStop, DataCollector.CallStart => S (switch_ons c t)
      | _, _ => switch_ons c t
      end
  end.

Lemma switch_ons_snoc (prev c : DataCollector.Call) (cs : list DataCollector.Call) :
  switch_ons prev (cs ++ [c])
  = (switch_ons prev cs
     + match last cs prev, c with
       | DataCollector.CallStop, DataCollector.CallStart => 1
       | _, _ => 0
       end)%nat.
Proof.
  revert prev. induction cs as [|x t IH]; intro prev.
  - simpl. destruct prev, c; reflexivity.
  - change ((x :: t) ++ [c]) with (x :: (t ++ [c])).
    assert (Hlast : last (x :: t) prev = last t x).
    { clear. revert x prev. induction t as [|y t IH]; intros x prev; [reflexivity|].
      change (last (x :: y :: t) prev) with (last (y :: t) prev).
      rewrite (IH y prev), (IH y x). reflexivity. }
    rewrite Hlast. cbn [switch_ons]. rewrite IH.
    destruct prev, x; reflexivity.
Qed.

Lemma isRunning_last (calls : list DataCollector.Call) :
  DataCollector.isRunning (fst (DataCollector.run calls))
  = match last calls DataCollector.CallStop with
    | DataCollector.CallStart => true
    | DataCollector.CallStop => false
    end.
Proof.
  induction calls as [|c cs IH] using rev_ind; [reflexivity|].
  rewrite last_last, run_snoc.
  pose proof (run_owns_timers cs) as Hown. unfold owns_timers in Hown.
  destruct (DataCollector.run cs) as [[id run] rt]. simpl in Hown.
  destruct c, run, id as [id|]; simpl; try reflexivity; contradiction.
Qed.

(** Cycles launched and handles handed out both count the [start]
    calls that found the collector stopped; the handle held was handed
    out. *)
Definition counters_ok (calls : list DataCollector.Call) : Prop :=
  let s := DataCollector.run calls in
  DataCollector.launched (snd s) = switch_ons DataCollector.CallStop calls /\
  DataCollector.nextHandle (snd s) = switch_ons DataCollector.CallStop calls /\
  (forall id, DataCollector.intervalId (fst s) = Some id ->
     (id < DataCollector.nextHandle (snd s))%nat).

Lemma run_counters (calls : list DataCollector.Call) : counters_ok calls.
Proof.
  unfold counters_ok. cbv zeta.
  induction calls as [|c cs IH] using rev_ind.
  - repeat split. intros id H. discriminate.
  - rewrite run_snoc, switch_ons_snoc.
    pose proof (isRunning_last cs) as Hrun.
    pose proof (run_owns_timers cs) as Hown. unfold owns_timers in Hown.
    destruct IH as [H1 [H2 H3]].
    destruct (DataCollector.run cs) as [[id run] [ts next n]].
    cbn [fst snd DataCollector.isRunning DataCollector.intervalId
         DataCollector.launched DataCollector.nextHandle] in *.
    destruct c, (last cs DataCollector.CallStop), run, id as [id|];
      try discriminate; try contradiction; simpl;
      repeat split; try lia; try assumption;
      intros id' Hid; inversion Hid; lia.
Qed.

(** After any sequence of [start] and [stop] calls, the number of
    collection cycles launched at once and the number of timers ever
    armed both equal the number of [start] calls that were not directly
    preceded by another [start]: a [start] repeated while running
    launches nothing.  At most one timer is armed, and it is the one
    whose handle the collector holds. *)
Theorem collector_bookkeeping (calls : list DataCollector.Call) :
  let s := DataCollector.run calls in
  DataCollector.launched (snd s) = switch_ons DataCollector.CallStop calls /\
  DataCollector.nextHandle (snd s) = switch_ons DataCollector.CallStop calls /\
  (length (DataCollector.timers (snd s)) <= 1)%nat /\
  (forall id, In id (DataCollector.timers (snd s)) ->
     DataCollector.intervalId (fst s) = Some id /\
     (id < DataCollector.nextHandle (snd s))%nat).
Proof.
  cbv zeta.
  destruct (run_counters calls) as [H1 [H2 H3]].
  pose proof (run_owns_timers calls) as Hown.
  split; [assumption|]. split; [assumption|].
  unfold owns_timers in Hown.
  destruct (DataCollector.intervalId (fst (DataCollector.run calls))) as [id|] eqn:Eid,
           (DataCollector.isRunning (fst (DataCollector.run calls)));
    try contradiction; rewrite Hown; simpl.
  - split; [lia|]. intros id' [<-|[]]. split; [reflexivity|]. now apply H3.
  - split; [lia|]. intros id' [].
Qed.

(** After any non-empty sequence of calls, the collector reports
    running exactly when the last call was [start]; before any call it
    is stopped. *)
Theorem collector_status_follows_last_call (calls : list DataCollector.Call) :
  DataCollector.isRunning (fst (DataCollector.run calls))
  = match last calls DataCollector.CallStop with
    | DataCollector.CallStart => true
    | DataCollector.CallStop => false
    end.
Proof.
  induction calls as [|c cs IH] using rev_ind; [reflexivity|].
  rewrite last_last, run_snoc.
  pose proof (run_owns_timers cs) as Hown. unfold owns_timers in Hown.
  destruct (DataCollector.run cs) as [[id run] rt]. simpl in Hown.
  destruct c, run, id as [id|]; simpl; try reflexivity; contradiction.
Qed.

(* ================================================================== *)
(** * Further properties of the max-pain strike map *)
(* ================================================================== *)

Section StrikeMapFacts.
Import MaxPain.

Lemma Qeq_bool_compat_l (a b k : Q) : a == b -> Qeq_bool a k = Qeq_bool b k.
Proof. intro H. now rewrite H. Qed.

Lemma Qeq_bool_compat_r (a b k : Q) : a == b -> Qeq_bool k a = Qeq_bool k b.
Proof. intro H. now rewrite H. Qed.

Lemma map_get_compat (m : StrikeMap) (k k' : Q) :
  k == k' -> map_get m k = map_get m k'.
Proof.
  intro H. induction m as [|[k0 v0] m IH]; simpl; [reflexivity|].
  rewrite (Qeq_bool_compat_r k k' k0 H), IH. reflexivity.
Qed.

(** Lookup after [set]: the key written reads back the value written,
    every other key is untouched. *)
Lemma map_get_set (m : StrikeMap) (k k' : Q) (v : StrikeOI) :
  map_get (map_set m k v) k' = if Qeq_bool k k' then Some v else map_get m k'.
Proof.
  induction m as [|[k0 v0] m IH]; simpl; [reflexivity|].
  destruct (Qeq_bool k0 k) eqn:E0; simpl.
  - apply Qeq_bool_iff in E0. rewrite (Qeq_bool_compat_l k0 k k' E0).
    destruct (Qeq_bool k k'); reflexivity.
  - rewrite IH. destruct (Qeq_bool k0 k') eqn:E1; [|reflexivity].
    destruct (Qeq_bool k k') eqn:E2; [|reflexivity].
    qprop. exfalso. apply E0. now rewrite E1, E2.
Qed.

Lemma map_get_None_iff (m : StrikeMap) (K : Q) :
  map_get m K = None <-> forall k, In k (keys m) -> ~ k == K.
Proof.
  induction m as [|[k0 v0] m IH]; simpl.
  - split; [intros _ k []|reflexivity].
  - destruct (Qeq_bool k0 K) eqn:E; qprop.
    + split; [discriminate|]. intro H. exfalso. apply (H k0); auto.
    + rewrite IH. split.
      * intros H k [<-|Hk]; [assumption|now apply H].
      * intros H k Hk. apply H. now right.
Qed.

(** Open interest of the contracts of [l] struck at [K]. *)
Definition openInterestAt (l : list OptionContract) (K : Q) : Q :=
  Qsum (map openInterest (filter (fun c => Qeq_bool (strikePrice c) K) l)).

Lemma get_or_zero_addCall (m : StrikeMap) (c : OptionContract) (K : Q) :
  callOI (get_or_zero (addCall m c) K)
  == callOI (get_or_zero m K) + openInterestAt [c] K /\
  putOI (get_or_zero (addCall m c) K) = putOI (get_or_zero m K).
Proof.
  unfold get_or_zero at 1 3, addCall, openInterestAt. rewrite map_get_set. simpl.
  destruct (Qeq_bool (strikePrice c) K) eqn:E; simpl.
  - apply Qeq_bool_iff in E. unfold get_or_zero.
    rewrite (map_get_compat m _ _ E). split; [ring|reflexivity].
  - fold (get_or_zero m K). split; [ring|reflexivity].
Qed.

Lemma get_or_zero_addPut (m : StrikeMap) (p : OptionContract) (K : Q) :
  callOI (get_or_zero (addPut m p) K) = callOI (get_or_zero m K) /\
  putOI (get_or_zero (addPut m p) K)
  == putOI (get_or_zero m K) + openInterestAt [p] K.
Proof.
  unfold get_or_zero at 1 3, addPut, openInterestAt. rewrite map_get_set. simpl.
  destruct (Qeq_bool (strikePrice p) K) eqn:E; simpl.
  - apply Qeq_bool_iff in E. unfold get_or_zero.
    rewrite (map_get_compat m _ _ E). split; [reflexivity|ring].
  - fold (get_or_zero m K). split; [reflexivity|ring].
Qed.

Lemma openInterestAt_cons (c : OptionContract) (l : list OptionContract) (K : Q) :
  openInterestAt (c :: l) K == openInterestAt [c] K + openInterestAt l K.
Proof.
  unfold openInterestAt. simpl.
  destruct (Qeq_bool (strikePrice c) K); simpl; ring.
Qed.

Lemma fold_addCall_lookup (calls : list OptionContract) (m : StrikeMap) (K : Q) :
  callOI (get_or_zero (fold_left addCall calls m) K)
  == callOI (get_or_zero m K) + openInterestAt calls K /\
  putOI (get_or_zero (fold_left addCall calls m) K) = putOI (get_or_zero m K).
Proof.
  revert m. induction calls as [|c t IH]; intro m; simpl fold_left.
  - unfold openInterestAt. simpl. split; [ring|reflexivity].
  - destruct (IH (addCall m c)) as [H1 H2].
    destruct (get_or_zero_addCall m c K) as [H3 H4].
    rewrite H1, H2, H3, H4, (openInterestAt_cons c t). split; [ring|reflexivity].
Qed.

Lemma fold_addPut_lookup (puts : list OptionContract) (m : StrikeMap) (K : Q) :
  callOI (get_or_zero (fold_left addPut puts m) K) = callOI (get_or_zero m K) /\
  putOI (get_or_zero (fold_left addPut puts m) K)
  == putOI (get_or_zero m K) + openInterestAt puts K.
Proof.
  revert m. induction puts as [|c t IH]; intro m; simpl fold_left.
  - unfold openInterestAt. simpl. split; [reflexivity|ring].
  - destruct (IH (addPut m c)) as [H1 H2].
    destruct (get_or_zero_addPut m c K) as [H3 H4].
    rewrite H1, H2, H3, H4, (openInterestAt_cons c t). split; [reflexivity|ring].
Qed.

Lemma FOP_snoc {A : Type} (R : A -> A -> Prop) (l : list A) (x : A) :
  ForallOrdPairs R l -> Forall (fun a => R a x) l -> ForallOrdPairs R (l ++ [x]).
Proof.
  induction 1 as [|a l Ha Hl IH]; intro Hx; simpl.
  - constructor; constructor.
  - inversion Hx; subst. constructor; [|now apply IH].
    apply Forall_app. split; [assumption|]. constructor; [assumption|constructor].
Qed.

Lemma addKey_distinct (ks : list Q) (k : Q) :
  ForallOrdPairs (fun a b => ~ a == b) ks ->
  ForallOrdPairs (fun a b => ~ a == b) (addKey ks k).
Proof.
  intro H. unfold addKey. destruct (has_key ks k) eqn:E; [assumption|].
  apply FOP_snoc; [assumption|].
  apply Forall_forall. intros a Ha Heq.
  unfold has_key in E.
  assert (Hex : existsb (fun k' => Qeq_bool k' k) ks = true).
  { apply existsb_exists. exists a. split; [assumption|now apply Qeq_bool_iff]. }
  congruence.
Qed.

Lemma fold_addKey_distinct (l ks : list Q) :
  ForallOrdPairs (fun a b => ~ a == b) ks ->
  ForallOrdPairs (fun a b => ~ a == b) (fold_left addKey l ks).
Proof.
  revert ks. induction l as [|k t IH]; intros ks H; simpl; [assumption|].
  apply IH. now apply addKey_distinct.
Qed.

End StrikeMapFacts.

(** The strike map has exactly one entry per distinct strike of the
    chain: its keys are pairwise different numbers, every key is the
    strike of some contract, and every contract's strike is a key. *)
Theorem strike_map_one_entry_per_strike (calls puts : list OptionContract) :
  let strikes := map fst (MaxPain.buildStrikeMap calls puts) in
  ForallOrdPairs (fun a b => ~ a == b) strikes /\
  (forall k, In k strikes -> MaxPain.is_strike calls puts k) /\
  (forall S, MaxPain.is_strike calls puts S -> exists k, In k strikes /\ k == S).
Proof.
  cbv zeta. fold (keys (MaxPain.buildStrikeMap calls puts)).
  rewrite keys_buildStrikeMap. split; [|split].
  - apply fold_addKey_distinct. constructor.
  - apply strikeOrder_sound.
  - apply strikeOrder_complete.
Qed.

Lemma strike_map_one_entry_per_strike_witness :
  map fst (MaxPain.buildStrikeMap tie_calls tie_puts) = [645; 650; 640] /\
  exists k, In k (map fst (MaxPain.buildStrikeMap tie_calls tie_puts)) /\ k == 1280 # 2.
Proof.
  split; [reflexivity|].
  apply (strike_map_one_entry_per_strike tie_calls tie_puts).
  exists (holding PUT 640 7). split; [|reflexivity].
  right. right. left. reflexivity.
Defined.

(** Looking a strike up in the strike map gives the total call open
    interest and the total put open interest of the contracts struck
    there; a number that is no strike of the chain is not a key. *)
Theorem strike_map_lookup_totals (calls puts : list OptionContract) (K : Q) :
  let m := MaxPain.buildStrikeMap calls puts in
  (MaxPain.is_strike calls puts K ->
   exists e,
     MaxPain.map_get m K = Some e /\
     MaxPain.callOI e == openInterestAt calls K /\
     MaxPain.putOI e == openInterestAt puts K) /\
  (~ MaxPain.is_strike calls puts K -> MaxPain.map_get m K = None).
Proof.
  cbv zeta. split.
  - intro HS.
    destruct (MaxPain.map_get (MaxPain.buildStrikeMap calls puts) K) as [e|] eqn:E.
    + exists e. split; [reflexivity|].
      assert (He : MaxPain.get_or_zero (MaxPain.buildStrikeMap calls puts) K = e)
        by (unfold MaxPain.get_or_zero; now rewrite E).
      rewrite <- He. unfold MaxPain.buildStrikeMap.
      destruct (fold_addPut_lookup puts (fold_left MaxPain.addCall calls []) K)
        as [H1 H2].
      destruct (fold_addCall_lookup calls [] K) as [H3 H4].
      rewrite H1, H2, H3, H4. unfold MaxPain.get_or_zero. simpl. split; ring.
    + exfalso. destruct (strikeOrder_complete calls puts K HS) as [k [Hk Heq]].
      rewrite <- keys_buildStrikeMap in Hk.
      exact (proj1 (map_get_None_iff _ K) E k Hk Heq).
  - intro HS. apply map_get_None_iff. intros k Hk Heq. apply HS.
    rewrite keys_buildStrikeMap in Hk. apply strikeOrder_sound in Hk.
    destruct Hk as [c [Hc Hck]]. exists c. split; [assumption|].
    now rewrite Hck.
Qed.

Definition repeated_calls : list OptionContract :=
  [ holding CALL 645 10; holding CALL 650 20; holding CALL 645 5 ].

Lemma strike_map_lookup_totals_witness :
  (exists e,
     MaxPain.map_get (MaxPain.buildStrikeMap repeated_calls tie_puts) 645 = Some e /\
     MaxPain.callOI e == 15 /\ MaxPain.putOI e == 0) /\
  MaxPain.map_get (MaxPain.buildStrikeMap repeated_calls tie_puts) 642 = None.
Proof.
  destruct (strike_map_lookup_totals repeated_calls tie_puts 645) as [Hhit _].
  destruct (strike_map_lookup_totals repeated_calls tie_puts 642) as [_ Hmiss].
  split.
  - destruct Hhit as [e [He [Hc Hp]]].
    + exists (holding CALL 645 10). split; [left; reflexivity|reflexivity].
    + exists e. split; [exact He|]. split; [rewrite Hc|rewrite Hp]; reflexivity.
  - apply Hmiss. intros [c [Hc Heq]].
    simpl in Hc.
    repeat (destruct Hc as [<-|Hc]; [simpl in Heq; discriminate Heq|]).
    destruct Hc.
Defined.

Lemma calculateMaxPain_least (calls puts : list OptionContract) (S : Q) :
  MaxPain.is_strike calls puts S ->
  MaxPain.pain_spec calls puts (MaxPain.calculateMaxPain calls puts)
  <= MaxPain.pain_spec calls puts S.
Proof.
  intro HS.
  assert (Hne : calls ++ puts <> []).
  { destruct HS as [c [Hc _]]. intro E. rewrite E in Hc. destruct Hc. }
  destruct (calculateMaxPain_first_least calls puts Hne)
    as [pre [post [Hsplit [Hpre Hpost]]]].
  destruct (strikeOrder_complete calls puts S HS) as [k [Hk Heq]].
  rewrite <- (pain_spec_compat calls puts k S Heq).
  rewrite Hsplit in Hk. apply in_app_or in Hk.
  destruct Hk as [Hk|[<-|Hk]].
  - apply Qlt_le_weak. now apply Hpre.
  - apply Qle_refl.
  - now apply Hpost.
Qed.

Lemma calculateMaxPain_is_strike (calls puts : list OptionContract) :
  calls ++ puts <> [] ->
  MaxPain.is_strike calls puts (MaxPain.calculateMaxPain calls puts).
Proof.
  intro Hne.
  destruct (calculateMaxPain_first_least calls puts Hne) as [pre [post [Hsplit _]]].
  apply strikeOrder_sound. rewrite Hsplit. apply in_or_app. right. now left.
Qed.



Section OneSidedChains.
Import MaxPain.

Lemma Qsum_nonneg (l : list Q) : (forall x, In x l -> 0 <= x) -> 0 <= Qsum l.
Proof.
  induction l as [|x t IH]; intro H; simpl; [lra|].
  assert (0 <= x) by (apply H; now left).
  assert (0 <= Qsum t) by (apply IH; intros y Hy; apply H; now right).
  lra.
Qed.

Lemma Qsum_zero (l : list Q) : (forall x, In x l -> x == 0) -> Qsum l == 0.
Proof.
  induction l as [|x t IH]; intro H; simpl; [reflexivity|].
  rewrite (H x) by now left. rewrite IH; [ring|].
  intros y Hy. apply H. now right.
Qed.

Lemma Qmult3_nonneg (a b : Q) : 0 <= a -> 0 <= b -> 0 <= a * b * 100.
Proof.
  intros Ha Hb. apply Qmult_le_0_compat; [|lra].
  now apply Qmult_le_0_compat.
Qed.

Lemma pain_spec_nonneg (calls puts : list OptionContract) (S : Q) :
  (forall c, In c (calls ++ puts) -> 0 <= openInterest c) ->
  0 <= pain_spec calls puts S.
Proof.
  intro H. unfold pain_spec.
  assert (0 <= Qsum (map (callPain S) calls)).
  { apply Qsum_nonneg. intros x Hx. apply in_map_iff in Hx.
    destruct Hx as [c [<- Hc]]. unfold callPain.
    destruct (Qlt_bool (strikePrice c) S) eqn:E; [|lra]. qprop.
    apply Qmult3_nonneg; [|lra]. apply H. apply in_or_app. now left. }
  assert (0 <= Qsum (map (putPain S) puts)).
  { apply Qsum_nonneg. intros x Hx. apply in_map_iff in Hx.
    destruct Hx as [c [<- Hc]]. unfold putPain.
    destruct (Qlt_bool S (strikePrice c)) eqn:E; [|lra]. qprop.
    apply Qmult3_nonneg; [|lra]. apply H. apply in_or_app. now right. }
  lra.
Qed.

Lemma lowest_strike (l : list OptionContract) :
  l <> [] -> exists c, In c l /\ forall c', In c' l -> strikePrice c <= strikePrice c'.
Proof.
  induction l as [|x t IH]; [congruence|]. intros _.
  destruct t as [|y t'].
  - exists x. split; [now left|]. intros c' [<-|[]]. apply Qle_refl.
  - destruct IH as [c [Hc Hmin]]; [discriminate|].
    destruct (Qlt_le_dec (strikePrice x) (strikePrice c)) as [Hlt|Hle].
    + exists x. split; [now left|]. intros c' [<-|Hc']; [apply Qle_refl|].
      specialize (Hmin c' Hc'). lra.
    + exists c. split; [now right|]. intros c' [<-|Hc']; [assumption|].
      now apply Hmin.
Qed.

Lemma highest_strike (l : list OptionContract) :
  l <> [] -> exists c, In c l /\ forall c', In c' l -> strikePrice c' <= strikePrice c.
Proof.
  induction l as [|x t IH]; [congruence|]. intros _.
  destruct t as [|y t'].
  - exists x. split; [now left|]. intros c' [<-|[]]. apply Qle_refl.
  - destruct IH as [c [Hc Hmax]]; [discriminate|].
    destruct (Qlt_le_dec (strikePrice c) (strikePrice x)) as [Hlt|Hle].
    + exists x. split; [now left|]. intros c' [<-|Hc']; [apply Qle_refl|].
      specialize (Hmax c' Hc'). lra.
    + exists c. split; [now right|]. intros c' [<-|Hc']; [assumption|].
      now apply Hmax.
Qed.

Lemma calls_only_pain_at_lowest (calls : list OptionContract) (S : Q) :
  (forall c', In c' calls -> S <= strikePrice c') -> pain_spec calls [] S == 0.
Proof.
  intro H. unfold pain_spec. simpl.
  rewrite Qsum_zero; [ring|].
  intros x Hx. apply in_map_iff in Hx. destruct Hx as [c [<- Hc]].
  unfold callPain. destruct (Qlt_bool (strikePrice c) S) eqn:E; [|reflexivity].
  qprop. specialize (H c Hc). lra.
Qed.

Lemma puts_only_pain_at_highest (puts : list OptionContract) (S : Q) :
  (forall c', In c' puts -> strikePrice c' <= S) -> pain_spec [] puts S == 0.
Proof.
  intro H. unfold pain_spec. simpl.
  rewrite Qsum_zero; [ring|].
  intros x Hx. apply in_map_iff in Hx. destruct Hx as [c [<- Hc]].
  unfold putPain. destruct (Qlt_bool S (strikePrice c)) eqn:E; [|reflexivity].
  qprop. specialize (H c Hc). lra.
Qed.

End OneSidedChains.

(** With non-negative open interest the pain sum is never negative, and
    for a chain holding only calls or only puts the strike returned by
    [calculateMaxPain] has pain 0. *)
Theorem one_sided_chain_has_zero_pain (calls puts : list OptionContract) :
  (forall c, In c (calls ++ puts) -> 0 <= openInterest c) ->
  (forall S, 0 <= MaxPain.pain_spec calls puts S) /\
  (calls = [] \/ puts = [] ->
   MaxPain.pain_spec calls puts (MaxPain.calculateMaxPain calls puts) == 0).
Proof.
  intro Hoi. split; [intro S; now apply pain_spec_nonneg|].
  intro Hside.
  apply Qle_antisym; [|now apply pain_spec_nonneg].
  destruct Hside as [-> | ->].
  - destruct puts as [|p ps]; [apply Qle_refl|].
    destruct (highest_strike (p :: ps)) as [c [Hc Hmax]]; [discriminate|].
    rewrite <- (puts_only_pain_at_highest (p :: ps) (strikePrice c) Hmax).
    apply calculateMaxPain_least. exists c. split; [assumption|reflexivity].
  - destruct calls as [|p ps]; [apply Qle_refl|].
    destruct (lowest_strike (p :: ps)) as [c [Hc Hmin]]; [discriminate|].
    rewrite <- (calls_only_pain_at_lowest (p :: ps) (strikePrice c) Hmin).
    apply calculateMaxPain_least. exists c.
    split; [apply in_or_app; now left|reflexivity].
Qed.

Lemma one_sided_chain_has_zero_pain_witness :
  MaxPain.pain_spec scenario_calls []
    (MaxPain.calculateMaxPain scenario_calls []) == 0 /\
  MaxPain.calculateMaxPain scenario_calls [] == 640 /\
  MaxPain.calculateMaxPain [] scenario_puts == 650.
Proof.
  split; [|split; reflexivity].
  apply (one_sided_chain_has_zero_pain scenario_calls []).
  - intros c Hc. simpl in Hc.
    repeat (destruct Hc as [<-|Hc]; [simpl; lra|]). destruct Hc.
  - now right.
Defined.

(* ================================================================== *)
(** * The chain route's summary metrics (routes/schwab.ts) *)
(* ================================================================== *)

Module ChainRoute.

(** [l.reduce((sum, c) => sum + c.totalVolume, 0)]. *)
Definition totalVolumeOf (l : list OptionContract) : Q :=
  fold_left (fun sum c => sum + totalVolume c) l 0.

Definition putCallRatio (calls puts : list OptionContract) : JsNum :=
  let totalCallVolume := totalVolumeOf calls in
  let totalPutVolume := totalVolumeOf puts in
  if Qlt_bool 0 totalCallVolume
  then jsdiv totalPutVolume totalCallVolume else Fin 0.

(** An object keyed by [strikePrice.toString()].  Two finite numbers
    have the same string exactly when they are equal, so a property is
    found by numeric equality of the strike; the order of the list is
    not the enumeration order of the object and nothing depends on it. *)
Definition ByStrike : Type := list (Q * Q).

Fixpoint prop_get (obj : ByStrike) (k : Q) : option Q :=
  match obj with
  | [] => None
  | (k', v) :: obj' => if Qeq_bool k' k then Some v else prop_get obj' k
  end.

Fixpoint prop_set (obj : ByStrike) (k : Q) (v : Q) : ByStrike :=
  match obj with
  | [] => [(k, v)]
  | (k', v') :: obj' =>
      if Qeq_bool k' k then (k', v) :: obj' else (k', v') :: prop_set obj' k v
  end.

(** [x || 0] for [x] a finite number or [undefined]. *)
Definition or_zero (x : option Q) : Q :=
  match x with
  | Some v => if Qeq_bool v 0 then 0 else v
  | None => 0
  end.

(** Body of the four loops:
    [obj[strike] = (obj[strike] || 0) + field(contract)]. *)
Definition accumulate (field : OptionContract -> Q) (obj : ByStrike)
    (c : OptionContract) : ByStrike :=
  prop_set obj (strikePrice c) (or_zero (prop_get obj (strikePrice c)) + field c).

Definition byStrike (field : OptionContract -> Q) (calls puts : list OptionContract)
  : ByStrike :=
  fold_left (accumulate field) puts (fold_left (accumulate field) calls []).

Definition volumeByStrike := byStrike totalVolume.
Definition openInterestByStrike := byStrike openInterest.

End ChainRoute.

Section ChainRouteFacts.
Import ChainRoute.

Lemma totalVolumeOf_sum (l : list OptionContract) (acc : Q) :
  fold_left (fun sum c => sum + totalVolume c) l acc
  == acc + MaxPain.Qsum (map totalVolume l).
Proof.
  revert acc. induction l as [|c t IH]; intro acc; simpl; [ring|].
  rewrite IH. ring.
Qed.

Lemma prop_get_compat (obj : ByStrike) (k k' : Q) :
  k == k' -> prop_get obj k = prop_get obj k'.
Proof.
  intro H. induction obj as [|[k0 v0] obj IH]; simpl; [reflexivity|].
  rewrite (Qeq_bool_compat_r k k' k0 H), IH. reflexivity.
Qed.

Lemma prop_get_set (obj : ByStrike) (k k' v : Q) :
  prop_get (prop_set obj k v) k' = if Qeq_bool k k' then Some v else prop_get obj k'.
Proof.
  induction obj as [|[k0 v0] obj IH]; simpl; [reflexivity|].
  destruct (Qeq_bool k0 k) eqn:E0; simpl.
  - apply Qeq_bool_iff in E0. rewrite (Qeq_bool_compat_l k0 k k' E0).
    destruct (Qeq_bool k k'); reflexivity.
  - rewrite IH. destruct (Qeq_bool k0 k') eqn:E1; [|reflexivity].
    destruct (Qeq_bool k k') eqn:E2; [|reflexivity].
    qprop. exfalso. apply E0. now rewrite E1, E2.
Qed.

Lemma prop_keys_set (obj : ByStrike) (k v : Q) :
  map fst (prop_set obj k v) = addKey (map fst obj) k.
Proof.
  unfold addKey. induction obj as [|[k' v'] obj IH]; simpl; [reflexivity|].
  destruct (Qeq_bool k' k); simpl; [reflexivity|].
  rewrite IH. destruct (has_key (map fst obj) k); reflexivity.
Qed.

Lemma prop_keys_fold (field : OptionContract -> Q) (l : list OptionContract)
    (obj : ByStrike) :
  map fst (fold_left (accumulate field) l obj)
  = fold_left addKey (map strikePrice l) (map fst obj).
Proof.
  revert obj. induction l as [|c t IH]; intro obj; simpl; [reflexivity|].
  rewrite IH. unfold accumulate. rewrite prop_keys_set. reflexivity.
Qed.

Lemma prop_keys_byStrike (field : OptionContract -> Q) (calls puts : list OptionContract) :
  map fst (byStrike field calls puts) = strikeOrder calls puts.
Proof.
  unfold byStrike, strikeOrder.
  rewrite !prop_keys_fold, map_app, fold_left_app. reflexivity.
Qed.

Lemma prop_get_None_iff (obj : ByStrike) (K : Q) :
  prop_get obj K = None <-> forall k, In k (map fst obj) -> ~ k == K.
Proof.
  induction obj as [|[k0 v0] obj IH]; simpl.
  - split; [intros _ k []|reflexivity].
  - destruct (Qeq_bool k0 K) eqn:E; qprop.
    + split; [discriminate|]. intro H. exfalso. apply (H k0); auto.
    + rewrite IH. split.
      * intros H k [<-|Hk]; [assumption|now apply H].
      * intros H k Hk. apply H. now right.
Qed.

Lemma or_zero_eq_opt (x : option Q) :
  or_zero x == match x with Some v => v | None => 0 end.
Proof.
  destruct x as [v|]; simpl; [|reflexivity].
  destruct (Qeq_bool v 0) eqn:E; [|reflexivity].
  apply Qeq_bool_iff in E. now rewrite E.
Qed.

(** Total of [field] over the contracts of [l] struck at [K]. *)
Definition totalAt (field : OptionContract -> Q) (l : list OptionContract) (K : Q) : Q :=
  MaxPain.Qsum (map field (filter (fun c => Qeq_bool (strikePrice c) K) l)).

Lemma accumulate_lookup (field : OptionContract -> Q) (obj : ByStrike)
    (c : OptionContract) (K : Q) :
  or_zero (prop_get (accumulate field obj c) K)
  == or_zero (prop_get obj K) + totalAt field [c] K.
Proof.
  unfold accumulate, totalAt. rewrite prop_get_set. cbn [filter].
  destruct (Qeq_bool (strikePrice c) K) eqn:E; cbn [map MaxPain.Qsum].
  - apply Qeq_bool_iff in E. rewrite (prop_get_compat obj _ _ E).
    rewrite (or_zero_eq_opt (Some _)). ring.
  - ring.
Qed.

Lemma fold_accumulate_lookup (field : OptionContract -> Q) (l : list OptionContract)
    (obj : ByStrike) (K : Q) :
  or_zero (prop_get (fold_left (accumulate field) l obj) K)
  == or_zero (prop_get obj K) + totalAt field l K.
Proof.
  revert obj. induction l as [|c t IH]; intro obj; simpl fold_left.
  - unfold totalAt. simpl. ring.
  - rewrite IH, accumulate_lookup. unfold totalAt. cbn [filter].
    destruct (Qeq_bool (strikePrice c) K); cbn [map MaxPain.Qsum]; ring.
Qed.

Lemma totalAt_app (field : OptionContract -> Q) (l1 l2 : list OptionContract) (K : Q) :
  totalAt field (l1 ++ l2) K == totalAt field l1 K + totalAt field l2 K.
Proof.
  unfold totalAt. induction l1 as [|c t IH]; simpl; [ring|].
  destruct (Qeq_bool (strikePrice c) K); simpl; rewrite ?IH; ring.
Qed.

End ChainRouteFacts.

(** [volumeByStrike] and [openInterestByStrike] hold, under each strike
    of the chain, the total volume (open interest) of all calls and puts
    struck there; a number that is no strike of the chain is not a
    property of either object. *)
Theorem by_strike_totals (field : OptionContract -> Q)
    (calls puts : list OptionContract) (K : Q) :
  let obj := ChainRoute.byStrike field calls puts in
  (MaxPain.is_strike calls puts K ->
   exists v, ChainRoute.prop_get obj K = Some v /\
             v == totalAt field (calls ++ puts) K) /\
  (~ MaxPain.is_strike calls puts K -> ChainRoute.prop_get obj K = None).
Proof.
  cbv zeta. split.
  - intro HS.
    destruct (ChainRoute.prop_get (ChainRoute.byStrike field calls puts) K)
      as [v|] eqn:E.
    + exists v. split; [reflexivity|].
      pose proof (fold_accumulate_lookup field puts
                    (fold_left (ChainRoute.accumulate field) calls []) K) as H1.
      pose proof (fold_accumulate_lookup field calls [] K) as H2.
      fold (ChainRoute.byStrike field calls puts) in H1.
      rewrite E, H2, (or_zero_eq_opt (Some v)) in H1.
      rewrite totalAt_app, H1. simpl. ring.
    + exfalso. destruct (strikeOrder_complete calls puts K HS) as [k [Hk Heq]].
      rewrite <- (prop_keys_byStrike field) in Hk.
      exact (proj1 (prop_get_None_iff _ K) E k Hk Heq).
  - intro HS. apply prop_get_None_iff. intros k Hk Heq. apply HS.
    rewrite prop_keys_byStrike in Hk. apply strikeOrder_sound in Hk.
    destruct Hk as [c [Hc Hck]]. exists c. split; [assumption|].
    now rewrite Hck.
Qed.

Lemma by_strike_totals_witness :
  (exists v,
     ChainRoute.prop_get (ChainRoute.openInterestByStrike scenario_calls scenario_puts) 645
     = Some v /\ v == 110) /\
  ChainRoute.prop_get (ChainRoute.volumeByStrike scenario_calls scenario_puts) 642 = None.
Proof.
  destruct (by_strike_totals openInterest scenario_calls scenario_puts 645) as [Hhit _].
  destruct (by_strike_totals totalVolume scenario_calls scenario_puts 642) as [_ Hmiss].
  split.
  - destruct Hhit as [v [Hv Hsum]].
    + exists (holding CALL 645 50). split; [right; left; reflexivity|reflexivity].
    + exists v. split; [exact Hv|]. rewrite Hsum. reflexivity.
  - apply Hmiss. intros [c [Hc Heq]]. simpl in Hc.
    repeat (destruct Hc as [<-|Hc]; [simpl in Heq; discriminate Heq|]).
    destruct Hc.
Defined.



(* ================================================================== *)
(** * server/auth.ts *)
(* ================================================================== *)

(** Times are numbers of milliseconds; [Date.now()] is an argument of
    every operation that reads the clock.  The random string of
    [generateState] and the answer of the token endpoint are arguments
    as well. *)
Module Auth.

(** [stateStore]: a [Map<string, number>], entries in insertion order. *)
Definition StateStore : Type := list (string * Q).

Fixpoint get (store : StateStore) (state : string) : option Q :=
  match store with
  | [] => None
  | (k, v) :: rest => if String.eqb k state then Some v else get rest state
  end.

Fixpoint set (store : StateStore) (state : string) (timestamp : Q) : StateStore :=
  match store with
  | [] => [(state, timestamp)]
  | (k, v) :: rest =>
      if String.eqb k state then (k, timestamp) :: rest
      else (k, v) :: set rest state timestamp
  end.

Definition delete (store : StateStore) (state : string) : StateStore :=
  filter (fun entry => negb (String.eqb (fst entry) state)) store.

Definition TEN_MINUTES : Q := 10 * 60 * 1000.

(** The interval callback that drops expired states. *)
Definition cleanup (now : Q) (store : StateStore) : StateStore :=
  let tenMinutesAgo := now - TEN_MINUTES in
  filter (fun entry => negb (Qlt_bool (snd entry) tenMinutesAgo)) store.

(** [generateState], for the random string [state] drawn. *)
Definition generateState (now : Q) (state : string) (store : StateStore)
  : string * StateStore :=
  (state, set store state now).

(** [!timestamp]: the timestamp is [undefined] or 0. *)
Definition falsy_number (x : option Q) : bool :=
  match x with
  | Some v => Qeq_bool v 0
  | None => true
  end.

Definition verifyState (now : Q) (state : string) (store : StateStore)
  : bool * StateStore :=
  let timestamp := get store state in
  if falsy_number timestamp then (false, store)
  else
    let tenMinutesAgo := now - TEN_MINUTES in
    match timestamp with
    | Some t =>
        if Qlt_bool t tenMinutesAgo then (false, delete store state)
        else (true, delete store state)
    | None => (false, store)
    end.

(** [TokenStore]; [None] is [null]. *)
Record TokenStore : Type := {
  access_token : option string;
  refresh_token : option string;
  expires_at : option Q
}.

(** [SchwabTokenResponse], the fields read. *)
Record TokenResponse : Type := {
  resp_access_token : string;
  resp_refresh_token : string;
  expires_in : Q
}.

Definition truthy_string (s : option string) : bool :=
  match s with
  | Some v => negb (String.eqb v EmptyString)
  | None => false
  end.

Definition storeTokens (now : Q) (r : TokenResponse) (ts : TokenStore) : TokenStore :=
  {| access_token := Some (resp_access_token r);
     refresh_token := Some (resp_refresh_token r);
     expires_at := Some (now + (expires_in r - 300) * 1000) |}.

Definition clearTokens (ts : TokenStore) : TokenStore :=
  {| access_token := None; refresh_token := None; expires_at := None |}.

Definition isAuthenticated (now : Q) (ts : TokenStore) : bool :=
  truthy_string (access_token ts)
  && negb (falsy_number (expires_at ts))
  && match expires_at ts with
     | Some e => Qlt_bool now e
     | None => false
     end.

Inductive AuthError : Type :=
| NoRefreshToken      (* 'No refresh token available' *)
| RefreshRejected     (* 'Failed to refresh token: ...' or a transport error *)
| TokenRefreshFailed  (* 'Token refresh failed. Please re-authenticate.' *)
| NoValidAccessToken. (* 'No valid access token. Please authenticate first.' *)

Inductive Outcome (A : Type) : Type :=
| Returned (a : A)
| Threw (e : AuthError).
Arguments Returned {A} a.
Arguments Threw {A} e.

(** [refreshAccessToken]; [endpoint] is the answer of the token
    endpoint ([None] when the request fails), [now] the clock when the
    tokens are stored. *)
Definition refreshAccessToken (now : Q) (endpoint : option TokenResponse)
    (ts : TokenStore) : Outcome TokenResponse * TokenStore :=
  if negb (truthy_string (refresh_token ts)) then (Threw NoRefreshToken, ts)
  else
    match endpoint with
    | Some data => (Returned data, storeTokens now data ts)
    | None => (Threw RefreshRejected, ts)
    end.

(** [getAccessToken]; [now] is the clock at the validity check, [later]
    the clock when a refreshed token is stored. *)
Definition getAccessToken (now later : Q) (endpoint : option TokenResponse)
    (ts : TokenStore) : Outcome string * TokenStore :=
  if isAuthenticated now ts then
    match access_token ts with
    | Some token => (Returned token, ts)
    | None => (Threw NoValidAccessToken, ts)
    end
  else if truthy_string (refresh_token ts) then
    match refreshAccessToken later endpoint ts with
    | (Returned tokenResponse, ts') => (Returned (resp_access_token tokenResponse), ts')
    | (Threw _, ts') => (Threw TokenRefreshFailed, ts')
    end
  else (Threw NoValidAccessToken, ts).

Record TokenInfo : Type := {
  info_isAuthenticated : bool;
  expiresAt : option Q;
  expiresIn : option Z
}.

(** [Date.now()] is read twice: [now] inside [isAuthenticated], and
    [later] where [expiresIn] is computed. *)
Definition getTokenInfo (now later : Q) (ts : TokenStore) : TokenInfo :=
  {| info_isAuthenticated := isAuthenticated now ts;
     expiresAt := expires_at ts;
     expiresIn :=
       if falsy_number (expires_at ts) then None
       else match expires_at ts with
            | Some e => Some (Qfloor ((e - later) / 1000))
            | None => None
            end |}.

(** The [/status] route: [expiresIn ? Math.floor(expiresIn / 60) : null]. *)
Definition expiresInMinutes (info : TokenInfo) : option Z :=
  match expiresIn info with
  | Some n => if Z.eqb n 0 then None else Some (n / 60)%Z
  | None => None
  end.

End Auth.

Section AuthFacts.
Import Auth.

Lemma get_delete_same (store : StateStore) (state : string) :
  get (delete store state) state = None.
Proof.
  induction store as [|[k v] rest IH]; simpl; [reflexivity|].
  destruct (String.eqb k state) eqn:E; simpl; [assumption|].
  now rewrite E.
Qed.

Lemma get_delete_other (store : StateStore) (state other : string) :
  other <> state -> get (delete store state) other = get store other.
Proof.
  intro Hne. induction store as [|[k v] rest IH]; simpl; [reflexivity|].
  destruct (String.eqb k state) eqn:E; simpl.
  - apply String.eqb_eq in E. subst k.
    destruct (String.eqb state other) eqn:E'; [|assumption].
    apply String.eqb_eq in E'. congruence.
  - now rewrite IH.
Qed.

Lemma get_set_same (store : StateStore) (state : string) (t : Q) :
  get (set store state t) state = Some t.
Proof.
  induction store as [|[k v] rest IH]; simpl.
  - now rewrite String.eqb_refl.
  - destruct (String.eqb k state) eqn:E; simpl; now rewrite E.
Qed.

Lemma get_set_other (store : StateStore) (state other : string) (t : Q) :
  other <> state -> get (set store state t) other = get store other.
Proof.
  intro Hne. induction store as [|[k v] rest IH]; simpl.
  - destruct (String.eqb state other) eqn:E; [|reflexivity].
    apply String.eqb_eq in E. congruence.
  - destruct (String.eqb k state) eqn:E; simpl.
    + apply String.eqb_eq in E. subst k.
      destruct (String.eqb state other) eqn:E'; [|reflexivity].
      apply String.eqb_eq in E'. congruence.
    + now rewrite IH.
Qed.

Lemma get_None_not_key (store : StateStore) (state : string) :
  ~ In state (map fst store) -> get store state = None.
Proof.
  induction store as [|[k v] rest IH]; simpl; [reflexivity|].
  intro H. destruct (String.eqb k state) eqn:E.
  - apply String.eqb_eq in E. tauto.
  - apply IH. tauto.
Qed.

(** Lookup in a store filtered on timestamps, for a store whose keys are
    pairwise different (as the keys of a [Map] are). *)
Lemma get_filter (keep : Q -> bool) (store : StateStore) (state : string) :
  NoDup (map fst store) ->
  get (filter (fun entry => keep (snd entry)) store) state
  = match get store state with
    | Some t => if keep t then Some t else None
    | None => None
    end.
Proof.
  induction store as [|[k v] rest IH]; simpl; [reflexivity|].
  intro Hnd. inversion Hnd as [|? ? Hk Hrest]; subst.
  destruct (String.eqb k state) eqn:E.
  - apply String.eqb_eq in E. subst k.
    destruct (keep v); simpl.
    + now rewrite String.eqb_refl.
    + rewrite IH by assumption. now rewrite (get_None_not_key rest state Hk).
  - destruct (keep v); simpl; [rewrite E|]; now apply IH.
Qed.

Lemma filter_keys_NoDup (f : string * Q -> bool) (store : StateStore) :
  NoDup (map fst store) -> NoDup (map fst (filter f store)).
Proof.
  induction store as [|[k v] rest IH]; simpl; [trivial|].
  intro Hnd. inversion Hnd as [|? ? Hk Hrest]; subst.
  destruct (f (k, v)); simpl; [|now apply IH].
  constructor; [|now apply IH].
  intro Hin. apply Hk. apply in_map_iff in Hin. destruct Hin as [e [He Hin]].
  apply filter_In in Hin. apply in_map_iff. exists e. tauto.
Qed.

Lemma set_keys (store : StateStore) (state : string) (t : Q) (k : string) :
  In k (map fst (set store state t)) -> k = state \/ In k (map fst store).
Proof.
  induction store as [|[k0 v0] rest IH]; simpl.
  - intros [<-|[]]. now left.
  - destruct (String.eqb k0 state); simpl; intros [<-|H]; auto.
    destruct (IH H); auto.
Qed.

Lemma set_keys_NoDup (store : StateStore) (state : string) (t : Q) :
  NoDup (map fst store) -> NoDup (map fst (set store state t)).
Proof.
  induction store as [|[k v] rest IH]; simpl.
  - intros _. constructor; [intros []|constructor].
  - intro Hnd. inversion Hnd as [|? ? Hk Hrest]; subst.
    destruct (String.eqb k state) eqn:E; simpl.
    + constructor; assumption.
    + constructor; [|now apply IH].
      intro Hin. apply set_keys in Hin. destruct Hin as [->|Hin]; [|contradiction].
      now rewrite String.eqb_refl in E.
Qed.

Lemma truthy_string_iff (s : option string) :
  truthy_string s = true <-> exists v, s = Some v /\ v <> EmptyString.
Proof.
  destruct s as [v|]; simpl.
  - rewrite negb_true_iff, String.eqb_neq. split.
    + intro H. exists v. auto.
    + intros [v' [Hv Hne]]. now inversion Hv; subst.
  - split; [discriminate|]. intros [v [Hv _]]. discriminate.
Qed.

End AuthFacts.

(** An OAuth state can be verified at most once: whatever the first
    [verifyState] answered and whenever the second one is made, the
    second answer for the same string is [false]; verifying one state
    leaves every other state's entry as it was. *)
Theorem verify_state_single_use (now1 now2 : Q) (state : string)
    (store : Auth.StateStore) :
  fst (Auth.verifyState now2 state (snd (Auth.verifyState now1 state store))) = false /\
  (forall other, other <> state ->
     Auth.get (snd (Auth.verifyState now1 state store)) other = Auth.get store other).
Proof.
  unfold Auth.verifyState at 2 3. cbv zeta.
  destruct (Auth.get store state) as [t|] eqn:E; simpl.
  - destruct (Qeq_bool t 0) eqn:Ez; simpl.
    + split; [|reflexivity]. unfold Auth.verifyState. cbv zeta.
      rewrite E. simpl. now rewrite Ez.
    + assert (Hgone : fst (Auth.verifyState now2 state (Auth.delete store state)) = false).
      { unfold Auth.verifyState. cbv zeta. now rewrite get_delete_same. }
      destruct (Qlt_bool t (now1 - Auth.TEN_MINUTES)); simpl;
        (split; [exact Hgone|]); intros other Hne; now apply get_delete_other.
  - split; [|reflexivity]. unfold Auth.verifyState. cbv zeta. now rewrite E.
Qed.

Lemma verify_state_single_use_witness :
  let store := snd (Auth.generateState 1000 "abc" []) in
  fst (Auth.verifyState 2000 "abc" store) = true /\
  fst (Auth.verifyState 3000 "abc" (snd (Auth.verifyState 2000 "abc" store))) = false.
Proof.
  split; [reflexivity|].
  apply (verify_state_single_use 2000 3000 "abc"
           (snd (Auth.generateState 1000 "abc" []))).
Defined.

(** A state generated at time [t] is accepted by the next
    [verifyState] for it, made at time [t'], exactly when [t] is not 0
    and not more than ten minutes before [t']. *)
Theorem fresh_state_accepted_for_ten_minutes (t t' : Q) (state : string)
    (store : Auth.StateStore) :
  fst (Auth.verifyState t' state (snd (Auth.generateState t state store))) = true
  <-> ~ t == 0 /\ t' - 600000 <= t.
Proof.
  unfold Auth.generateState, Auth.verifyState. cbv zeta. cbn [snd].
  rewrite get_set_same. simpl Auth.falsy_number.
  destruct (Qeq_bool t 0) eqn:Ez; simpl; qprop.
  - split; [discriminate|]. intros [H _]. contradiction.
  - destruct (Qlt_bool t (t' - Auth.TEN_MINUTES)) eqn:El; simpl;
      unfold Auth.TEN_MINUTES in El; qprop.
    + split; [discriminate|]. intros [_ H]. lra.
    + split; [|reflexivity]. intros _. split; [assumption|lra].
Qed.

Lemma fresh_state_accepted_for_ten_minutes_witness :
  fst (Auth.verifyState 600001 "s" (snd (Auth.generateState 1 "s" []))) = true /\
  fst (Auth.verifyState 600002 "s" (snd (Auth.generateState 1 "s" []))) = false.
Proof.
  split.
  - apply (fresh_state_accepted_for_ten_minutes 1 600001 "s" []).
    split; [intro H; discriminate H|apply Qle_refl].
  - reflexivity.
Defined.

(** The clean-up timer never changes what [verifyState] answers at the
    same instant, it leaves only entries at most ten minutes old, and
    all three store operations keep the keys pairwise different. *)
Theorem cleanup_agrees_with_verify (now : Q) (state : string)
    (store : Auth.StateStore) :
  NoDup (map fst store) ->
  fst (Auth.verifyState now state (Auth.cleanup now store))
  = fst (Auth.verifyState now state store) /\
  Forall (fun entry => now - 600000 <= snd entry) (Auth.cleanup now store) /\
  NoDup (map fst (Auth.cleanup now store)) /\
  NoDup (map fst (snd (Auth.verifyState now state store))) /\
  (forall t, NoDup (map fst (snd (Auth.generateState t state store)))).
Proof.
  intro Hnd. split; [|split; [|split; [|split]]].
  - unfold Auth.verifyState, Auth.cleanup. cbv zeta.
    rewrite (get_filter (fun t => negb (Qlt_bool t (now - Auth.TEN_MINUTES)))
               store state Hnd).
    destruct (Auth.get store state) as [t|]; simpl; [|reflexivity].
    destruct (Qlt_bool t (now - Auth.TEN_MINUTES)) eqn:El; simpl.
    + destruct (Qeq_bool t 0); reflexivity.
    + destruct (Qeq_bool t 0); simpl; [reflexivity|]. now rewrite El.
  - apply Forall_forall. intros entry He. unfold Auth.cleanup in He. cbv zeta in He.
    apply filter_In in He. destruct He as [_ He].
    apply negb_true_iff in He. unfold Auth.TEN_MINUTES in He. qprop. lra.
  - unfold Auth.cleanup. cbv zeta. now apply filter_keys_NoDup.
  - unfold Auth.verifyState. cbv zeta.
    destruct (Auth.falsy_number (Auth.get store state)); [assumption|].
    destruct (Auth.get store state) as [t|]; [|assumption].
    destruct (Qlt_bool t (now - Auth.TEN_MINUTES)); simpl;
      unfold Auth.delete; now apply filter_keys_NoDup.
  - intro t. simpl. now apply set_keys_NoDup.
Qed.

Lemma cleanup_agrees_with_verify_witness :
  let store := [("old", 1); ("new", 700000)]%string in
  Auth.cleanup 800000 store = [("new", 700000)]%string /\
  fst (Auth.verifyState 800000 "old" (Auth.cleanup 800000 store))
  = fst (Auth.verifyState 800000 "old" store).
Proof.
  split; [reflexivity|].
  apply (cleanup_agrees_with_verify 800000 "old" [("old", 1); ("new", 700000)]%string).
  repeat constructor; simpl; intuition discriminate.
Defined.

Lemma isAuthenticated_iff (now : Q) (ts : Auth.TokenStore) :
  Auth.isAuthenticated now ts = true <->
  exists token e,
    Auth.access_token ts = Some token /\ token <> EmptyString /\
    Auth.expires_at ts = Some e /\ ~ e == 0 /\ now < e.
Proof.
  unfold Auth.isAuthenticated.
  rewrite !andb_true_iff, truthy_string_iff, negb_true_iff. split.
  - intros [[[token [Ht Hne]] Hf] He].
    destruct (Auth.expires_at ts) as [e|]; [|discriminate].
    simpl in Hf. qprop. exists token, e. auto.
  - intros [token [e [Ht [Hne [He [Hz Hlt]]]]]]. rewrite He. simpl.
    split; [split|].
    + exists token. auto.
    + now apply Qeq_bool_false.
    + now apply Qlt_bool_iff.
Qed.

(** Tokens stored at time [t] count as valid until 300 seconds before
    the lifetime the endpoint announced, and not at all when the access
    token is empty; after [clearTokens] nothing is valid at any time. *)
Theorem stored_token_valid_until_safety_margin (t t' : Q)
    (r : Auth.TokenResponse) (ts : Auth.TokenStore) :
  let expiry := t + (Auth.expires_in r - 300) * 1000 in
  (Auth.isAuthenticated t' (Auth.storeTokens t r ts) = true <->
   Auth.resp_access_token r <> EmptyString /\ ~ expiry == 0 /\ t' < expiry) /\
  Auth.isAuthenticated t' (Auth.clearTokens ts) = false.
Proof.
  cbv zeta. split; [|reflexivity].
  rewrite isAuthenticated_iff. simpl. split.
  - intros [token [e [Ht [Hne [He [Hz Hlt]]]]]].
    inversion Ht; subst. inversion He; subst. auto.
  - intros [Hne [Hz Hlt]]. eexists. eexists.
    split; [reflexivity|]. split; [assumption|]. split; [reflexivity|]. auto.
Qed.

Definition half_hour_token : Auth.TokenResponse :=
  {| Auth.resp_access_token := "at"; Auth.resp_refresh_token := "rt";
     Auth.expires_in := 1800 |}.

Lemma stored_token_valid_until_safety_margin_witness :
  let ts := Auth.storeTokens 1000000 half_hour_token
              {| Auth.access_token := None; Auth.refresh_token := None;
                 Auth.expires_at := None |} in
  Auth.isAuthenticated 2499999 ts = true /\
  Auth.isAuthenticated 2500000 ts = false.
Proof.
  cbv zeta. split; [|reflexivity].
  apply (stored_token_valid_until_safety_margin 1000000 2499999 half_hour_token).
  split; [discriminate|]. split; [intro H; discriminate H|reflexivity].
Defined.

(** [getAccessToken] returns the stored token, without touching the
    store or the endpoint's answer, exactly when [isAuthenticated]
    holds; otherwise it returns the refreshed token and stores it when a
    refresh token is held and the endpoint answers, and throws with the
    store unchanged in every other case.  After [clearTokens] it throws
    "No valid access token" whatever the endpoint would answer. *)
Theorem get_access_token_outcomes (now later : Q)
    (endpoint : option Auth.TokenResponse) (ts : Auth.TokenStore) :
  let r := Auth.getAccessToken now later endpoint ts in
  (Auth.isAuthenticated now ts = true ->
   exists token, Auth.access_token ts = Some token /\ r = (Auth.Returned token, ts)) /\
  (Auth.isAuthenticated now ts = false ->
   match endpoint with
   | Some data =>
       if Auth.truthy_string (Auth.refresh_token ts)
       then r = (Auth.Returned (Auth.resp_access_token data),
                 Auth.storeTokens later data ts)
       else r = (Auth.Threw Auth.NoValidAccessToken, ts)
   | None =>
       if Auth.truthy_string (Auth.refresh_token ts)
       then r = (Auth.Threw Auth.TokenRefreshFailed, ts)
       else r = (Auth.Threw Auth.NoValidAccessToken, ts)
   end) /\
  (forall e, fst r = Auth.Threw e -> snd r = ts) /\
  Auth.getAccessToken now later endpoint (Auth.clearTokens ts)
  = (Auth.Threw Auth.NoValidAccessToken, Auth.clearTokens ts).
Proof.
  cbv zeta. split; [|split; [|split]].
  - intro H. unfold Auth.getAccessToken. rewrite H.
    apply isAuthenticated_iff in H. destruct H as [token [e [Ht _]]].
    rewrite Ht. exists token. auto.
  - intro H. unfold Auth.getAccessToken, Auth.refreshAccessToken. rewrite H.
    destruct (Auth.truthy_string (Auth.refresh_token ts)), endpoint; reflexivity.
  - intro e. unfold Auth.getAccessToken, Auth.refreshAccessToken.
    destruct (Auth.isAuthenticated now ts) eqn:H.
    + apply isAuthenticated_iff in H. destruct H as [token [e' [Ht _]]].
      rewrite Ht. discriminate.
    + destruct (Auth.truthy_string (Auth.refresh_token ts)), endpoint;
        simpl; intro Hr; try reflexivity; discriminate.
  - reflexivity.
Qed.

Lemma get_access_token_outcomes_witness :
  let ts := Auth.storeTokens 1000000 half_hour_token
              {| Auth.access_token := None; Auth.refresh_token := None;
                 Auth.expires_at := None |} in
  Auth.getAccessToken 2000000 2000001 None ts = (Auth.Returned "at"%string, ts) /\
  Auth.getAccessToken 3000000 3000001 None ts = (Auth.Threw Auth.TokenRefreshFailed, ts).
Proof.
  cbv zeta. split.
  - destruct (get_access_token_outcomes 2000000 2000001 None
                (Auth.storeTokens 1000000 half_hour_token
                   {| Auth.access_token := None; Auth.refresh_token := None;
                      Auth.expires_at := None |})) as [H _].
    destruct (H eq_refl) as [token [Ht Hr]].
    inversion Ht; subst. exact Hr.
  - destruct (get_access_token_outcomes 3000000 3000001 None
                (Auth.storeTokens 1000000 half_hour_token
                   {| Auth.access_token := None; Auth.refresh_token := None;
                      Auth.expires_at := None |})) as [_ [H _]].
    exact (H eq_refl).
Defined.

(** While a token is valid at the first reading of the clock,
    [getTokenInfo] reports as [expiresIn] the whole seconds between the
    second reading and the expiry, rounded down: non-negative exactly
    when the expiry has not passed at the second reading, and below zero
    by no more than the time between the two readings.  The status route
    reports the whole minutes contained in them, rounded down, and no
    minutes at all ([null]) when [expiresIn] is 0. *)
Theorem token_info_reports_time_left (now later : Q) (ts : Auth.TokenStore) :
  let info := Auth.getTokenInfo now later ts in
  Auth.info_isAuthenticated info = true ->
  exists n e,
    Auth.expires_at ts = Some e /\
    Auth.expiresIn info = Some n /\
    inject_Z n * 1000 <= e - later /\ e - later < (inject_Z n + 1) * 1000 /\
    ((0 <= n)%Z <-> later <= e) /\
    now - later - 1000 < inject_Z n * 1000 /\
    (Auth.expiresInMinutes info = None <-> n = 0%Z) /\
    (forall m, Auth.expiresInMinutes info = Some m ->
       (60 * m <= n < 60 * m + 60)%Z).
Proof.
  cbv zeta. unfold Auth.getTokenInfo. cbn [Auth.info_isAuthenticated].
  intro H. apply isAuthenticated_iff in H.
  destruct H as [token [e [_ [_ [He [Hz Hlt]]]]]].
  apply Qeq_bool_false in Hz as Hzb.
  unfold Auth.expiresInMinutes. cbn [Auth.expiresIn]. rewrite He.
  cbn [Auth.falsy_number]. rewrite Hzb.
  set (x := (e - later) / 1000).
  pose proof (Qfloor_le x) as Hlo. pose proof (Qlt_floor x) as Hhi.
  rewrite inject_Z_plus in Hhi. change (inject_Z 1) with 1 in Hhi.
  assert (Hx : e - later == x * 1000) by (unfold x; field).
  exists (Qfloor x), e. split; [reflexivity|]. split; [reflexivity|].
  split; [rewrite Hx; lra|]. split; [rewrite Hx; lra|].
  split.
  { split; intro Hn.
    - assert (H0 : inject_Z 0 <= inject_Z (Qfloor x)) by (rewrite <- Zle_Qle; exact Hn).
      change (inject_Z 0) with 0 in H0. lra.
    - assert (H0 : inject_Z (-1) < inject_Z (Qfloor x)).
      { change (inject_Z (-1)) with (-(1))%Q. lra. }
      rewrite <- Zlt_Qlt in H0. lia. }
  split; [lra|].
  clear Hlo Hhi. generalize dependent (Qfloor x). intros n.
  destruct (Z.eqb_spec n 0) as [E0|E0].
  - split; [split; [intros _; exact E0|reflexivity]|]. intros m Hm. discriminate.
  - split; [split; [discriminate|contradiction]|].
    intros m Hm. injection Hm as Em. rewrite <- Em.
    pose proof (Z.div_mod n 60 ltac:(lia)).
    pose proof (Z.mod_pos_bound n 60 ltac:(lia)).
    lia.
Qed.

(** A token stored at 1000000 with half an hour to run expires at
    2500000 for the program.  Read at 2499500 with both readings of the
    clock, less than a second is left; when the second reading is
    2500500 the time left is reported as -1 second. *)
Lemma token_info_reports_time_left_witness :
  let ts := Auth.storeTokens 1000000 half_hour_token
              {| Auth.access_token := None; Auth.refresh_token := None;
                 Auth.expires_at := None |} in
  (exists n,
     Auth.expiresIn (Auth.getTokenInfo 2499500 2499500 ts) = Some n /\
     (0 <= n)%Z /\
     Auth.expiresInMinutes (Auth.getTokenInfo 2499500 2499500 ts) = None) /\
  Auth.info_isAuthenticated (Auth.getTokenInfo 2499500 2500500 ts) = true /\
  Auth.expiresIn (Auth.getTokenInfo 2499500 2500500 ts) = Some (-1)%Z /\
  Auth.expiresInMinutes (Auth.getTokenInfo 2499500 2500500 ts) = Some (-1)%Z.
Proof.
  cbv zeta. split; [|repeat split].
  destruct (token_info_reports_time_left 2499500 2499500
              (Auth.storeTokens 1000000 half_hour_token
                 {| Auth.access_token := None; Auth.refresh_token := None;
                    Auth.expires_at := None |}) eq_refl)
    as [n [e [He [Hn [_ [_ [Hpos _]]]]]]].
  exists n. split; [exact Hn|]. split; [|reflexivity].
  apply Hpos. injection He as <-. vm_compute. discriminate.
Defined.

(* ================================================================== *)
(** * services/pnl-calculator.ts *)
(* ================================================================== *)

Module PnL.

(** A row of [trade_signals], the two columns read; [None] is [null]. *)
Record SignalRow : Type := {
  executed : bool;
  profit_loss : option Q
}.

(** [d.profit_loss || 0]. *)
Definition pl (d : SignalRow) : Q :=
  match profit_loss d with
  | Some v => if Qeq_bool v 0 then 0 else v
  | None => 0
  end.

Definition is_null (x : option Q) : bool :=
  match x with Some _ => false | None => true end.

(** [Math.max(...l)] and [Math.min(...l)] for a non-empty [x :: l]. *)
Fixpoint max_from (x : Q) (l : list Q) : Q :=
  match l with
  | [] => x
  | y :: t => max_from (if Qlt_bool x y then y else x) t
  end.

Fixpoint min_from (x : Q) (l : list Q) : Q :=
  match l with
  | [] => x
  | y :: t => min_from (if Qlt_bool y x then y else x) t
  end.

Record Metrics : Type := {
  totalSignals : nat;
  executedTrades : nat;
  winningTrades : nat;
  losingTrades : nat;
  winRate : Q;
  grossProfit : Q;
  grossLoss : Q;
  netPnl : Q;
  bestTradePnl : Q;
  worstTradePnl : Q;
  avgTradePnl : Q
}.

Definition count (n : nat) : Q := inject_Z (Z.of_nat n).

Definition sumPl (l : list SignalRow) : Q :=
  fold_left (fun sum d => sum + pl d) l 0.

(** The block "Calculate metrics" of [calculateStrategyPnL].  The three
    divisions are made under a guard that makes the divisor positive. *)
Definition metrics (data : list SignalRow) : Metrics :=
  let totalSignals := length data in
  let executedTrades :=
    length (filter (fun d => executed d || negb (is_null (profit_loss d))) data) in
  let winningTrades := length (filter (fun d => Qlt_bool 0 (pl d)) data) in
  let losingTrades := length (filter (fun d => Qlt_bool (pl d) 0) data) in
  let winRate :=
    if (0 <? executedTrades)%nat
    then count winningTrades / count executedTrades * 100 else 0 in
  let grossProfit := sumPl (filter (fun d => Qlt_bool 0 (pl d)) data) in
  let grossLoss := Qabs (sumPl (filter (fun d => Qlt_bool (pl d) 0) data)) in
  let netPnl := grossProfit - grossLoss in
  let pnls := filter (fun p => negb (Qeq_bool p 0)) (map pl data) in
  let bestTradePnl := match pnls with x :: t => max_from x t | [] => 0 end in
  let worstTradePnl := match pnls with x :: t => min_from x t | [] => 0 end in
  let avgTradePnl :=
    if (0 <? length pnls)%nat
    then fold_left Qplus pnls 0 / count (length pnls) else 0 in
  {| totalSignals := totalSignals;
     executedTrades := executedTrades;
     winningTrades := winningTrades;
     losingTrades := losingTrades;
     winRate := winRate;
     grossProfit := grossProfit;
     grossLoss := grossLoss;
     netPnl := netPnl;
     bestTradePnl := bestTradePnl;
     worstTradePnl := worstTradePnl;
     avgTradePnl := avgTradePnl |}.

Inductive Strategy : Type := naked_positions | credit_spreads | atm_trades.

(** What the query on [trade_signals] does: it throws, or it answers
    with rows or with [null]. *)
Inductive Query : Type :=
| QueryThrew
| QueryData (signals : option (list SignalRow)).

(** [calculateStrategyPnL]: [None] is the [null] returned when the
    store is not configured or the query throws; [query] is consulted
    for [atm_trades] only. *)
Definition calculateStrategyPnL (configured : bool) (strategy : Strategy)
    (query : Query) : option Metrics :=
  if negb configured then None
  else
    match strategy with
    | atm_trades =>
        match query with
        | QueryThrew => None
        | QueryData (Some signals) => Some (metrics signals)
        | QueryData None => Some (metrics [])
        end
    | _ => Some (metrics [])
    end.

Inductive Symbol : Type := SPY | QQQ | SPX.

(** The pairs [calculateTodaysPnL] does not skip. *)
Definition compatible (symbol : Symbol) (strategy : Strategy) : bool :=
  match symbol, strategy with
  | SPX, atm_trades => false
  | SPY, credit_spreads | QQQ, credit_spreads => false
  | _, _ => true
  end.

Definition calculateTodaysPnL (configured : bool) (query : Symbol -> Strategy -> Query)
  : list (Symbol * Strategy * Metrics) :=
  flat_map
    (fun symbol =>
       flat_map
         (fun strategy =>
            if compatible symbol strategy then
              match calculateStrategyPnL configured strategy (query symbol strategy) with
              | Some pnl => [(symbol, strategy, pnl)]
              | None => []
              end
            else [])
         [naked_positions; credit_spreads; atm_trades])
    [SPY; QQQ; SPX].

End PnL.

(** The metrics as the program computes them: the sums, the win rate and
    the average are rounded at every step.  The counts are whole
    numbers, and [Math.max] and [Math.min] return one of their
    arguments, so these are as in [PnL]. *)
Module RoundedPnL.

Record Metrics : Type := {
  totalSignals : nat;
  executedTrades : nat;
  winningTrades : nat;
  losingTrades : nat;
  winRate : JsNum;
  grossProfit : JsNum;
  grossLoss : JsNum;
  netPnl : JsNum;
  bestTradePnl : Q;
  worstTradePnl : Q;
  avgTradePnl : JsNum
}.

(** [.reduce((sum, d) => sum + (d.profit_loss || 0), 0)]. *)
Definition sumPl (l : list PnL.SignalRow) : JsNum :=
  fold_left (fun sum d => Binary64.add sum (Fin (PnL.pl d))) l (Fin 0).

Definition metrics (data : list PnL.SignalRow) : Metrics :=
  let totalSignals := length data in
  let executedTrades :=
    length (filter (fun d => PnL.executed d
                             || negb (PnL.is_null (PnL.profit_loss d))) data) in
  let winningTrades := length (filter (fun d => Qlt_bool 0 (PnL.pl d)) data) in
  let losingTrades := length (filter (fun d => Qlt_bool (PnL.pl d) 0) data) in
  let winRate :=
    if (0 <? executedTrades)%nat
    then Binary64.mul
           (Binary64.div (Fin (PnL.count winningTrades))
              (Fin (PnL.count executedTrades)))
           (Fin 100)
    else Fin 0 in
  let grossProfit := sumPl (filter (fun d => Qlt_bool 0 (PnL.pl d)) data) in
  let grossLoss :=
    Binary64.abs (sumPl (filter (fun d => Qlt_bool (PnL.pl d) 0) data)) in
  let netPnl := Binary64.sub grossProfit grossLoss in
  let pnls := filter (fun p => negb (Qeq_bool p 0)) (map PnL.pl data) in
  let bestTradePnl := match pnls with x :: t => PnL.max_from x t | [] => 0 end in
  let worstTradePnl := match pnls with x :: t => PnL.min_from x t | [] => 0 end in
  let avgTradePnl :=
    if (0 <? length pnls)%nat
    then Binary64.div
           (fold_left (fun a b => Binary64.add a (Fin b)) pnls (Fin 0))
           (Fin (PnL.count (length pnls)))
    else Fin 0 in
  {| totalSignals := totalSignals;
     executedTrades := executedTrades;
     winningTrades := winningTrades;
     losingTrades := losingTrades;
     winRate := winRate;
     grossProfit := grossProfit;
     grossLoss := grossLoss;
     netPnl := netPnl;
     bestTradePnl := bestTradePnl;
     worstTradePnl := worstTradePnl;
     avgTradePnl := avgTradePnl |}.

End RoundedPnL.

Section PnLFacts.
Import PnL.

Lemma count_S (n : nat) : count (S n) == count n + 1.
Proof.
  unfold count. rewrite Nat2Z.inj_succ, <- Z.add_1_r, inject_Z_plus. reflexivity.
Qed.

Lemma count_nonneg (n : nat) : 0 <= count n.
Proof.
  unfold count. change 0 with (inject_Z 0). rewrite <- Zle_Qle. lia.
Qed.

Lemma count_le (a b : nat) : (a <= b)%nat -> count a <= count b.
Proof.
  induction 1 as [|b Hle IH]; [lra|]. rewrite count_S. lra.
Qed.

Lemma count_pos (n : nat) : (0 < n)%nat -> 0 < count n.
Proof.
  destruct n as [|n]; [lia|]. intros _. rewrite count_S.
  pose proof (count_nonneg n). lra.
Qed.

Lemma max_from_bounds (l : list Q) (x : Q) :
  x <= max_from x l /\ forall y, In y l -> y <= max_from x l.
Proof.
  revert x. induction l as [|z t IH]; intro x; simpl.
  - split; [lra|]. intros y [].
  - destruct (IH (if Qlt_bool x z then z else x)) as [H1 H2].
    destruct (Qlt_bool x z) eqn:E; qprop.
    + split; [lra|]. intros y [<-|Hy]; [assumption|now apply H2].
    + split; [assumption|]. intros y [<-|Hy]; [lra|now apply H2].
Qed.

Lemma min_from_bounds (l : list Q) (x : Q) :
  min_from x l <= x /\ forall y, In y l -> min_from x l <= y.
Proof.
  revert x. induction l as [|z t IH]; intro x; simpl.
  - split; [lra|]. intros y [].
  - destruct (IH (if Qlt_bool z x then z else x)) as [H1 H2].
    destruct (Qlt_bool z x) eqn:E; qprop.
    + split; [lra|]. intros y [<-|Hy]; [assumption|now apply H2].
    + split; [assumption|]. intros y [<-|Hy]; [lra|now apply H2].
Qed.

Lemma filter_counts (l : list SignalRow) :
  (length (filter (fun d => Qlt_bool 0 (pl d)) l)
   + length (filter (fun d => Qlt_bool (pl d) 0) l)
   <= length (filter (fun d => executed d || negb (is_null (profit_loss d))) l))%nat.
Proof.
  induction l as [|d t IH]; simpl; [lia|].
  assert (Hex : Qlt_bool 0 (pl d) = true \/ Qlt_bool (pl d) 0 = true ->
                executed d || negb (is_null (profit_loss d)) = true).
  { intro H. unfold pl in H. destruct (profit_loss d) as [v|]; simpl.
    - apply orb_true_r.
    - destruct H as [H|H]; qprop; lra. }
  destruct (Qlt_bool 0 (pl d)) eqn:E1, (Qlt_bool (pl d) 0) eqn:E2.
  - qprop. lra.
  - rewrite Hex by auto. simpl. lia.
  - rewrite Hex by auto. simpl. lia.
  - destruct (executed d || negb (is_null (profit_loss d))); simpl; lia.
Qed.

End PnLFacts.

(** A rounded sum of gains is a number that is not negative, and a
    rounded sum of losses one that is not positive. *)
Lemma sumPl_nonneg (l : list PnL.SignalRow) (acc : JsNum) :
  jsle (Fin 0) acc = true -> (forall d, In d l -> 0 <= PnL.pl d) ->
  jsle (Fin 0)
    (fold_left (fun sum d => Binary64.add sum (Fin (PnL.pl d))) l acc) = true.
Proof.
  assert (R0 : Binary64.representable 0) by (representable 0%Z 0%Z).
  revert acc. induction l as [|d t IH]; intros acc Hacc Hall; [exact Hacc|].
  cbn [fold_left]. apply IH; [|intros x Hx; apply Hall; now right].
  specialize (Hall d (or_introl eq_refl)).
  destruct acc as [a| | |]; cbn [jsle] in Hacc; try discriminate; [|reflexivity].
  cbn [Binary64.add]. qprop. apply fl_ge_bound; [exact R0 | lra].
Qed.

Lemma sumPl_nonpos (l : list PnL.SignalRow) (acc : JsNum) :
  jsle acc (Fin 0) = true -> (forall d, In d l -> PnL.pl d <= 0) ->
  jsle
    (fold_left (fun sum d => Binary64.add sum (Fin (PnL.pl d))) l acc)
    (Fin 0) = true.
Proof.
  assert (R0 : Binary64.representable 0) by (representable 0%Z 0%Z).
  revert acc. induction l as [|d t IH]; intros acc Hacc Hall; [exact Hacc|].
  cbn [fold_left]. apply IH; [|intros x Hx; apply Hall; now right].
  specialize (Hall d (or_introl eq_refl)).
  destruct acc as [a| | |]; cbn [jsle] in Hacc; try discriminate; [|reflexivity].
  cbn [Binary64.add]. qprop. apply fl_le_bound; [exact R0 | lra].
Qed.

(** The daily P&L metrics, as the program computes them, are consistent
    for every set of rows: winners and losers are counted among the
    executed trades, the win rate is a number between 0 and 100, gross
    profit and gross loss are numbers that are not negative, and every
    non-zero profit or loss of the rows lies between the worst and the
    best trade. *)
Theorem pnl_metrics_are_consistent (data : list PnL.SignalRow) :
  let m := RoundedPnL.metrics data in
  (RoundedPnL.winningTrades m + RoundedPnL.losingTrades m
   <= RoundedPnL.executedTrades m)%nat /\
  (RoundedPnL.executedTrades m <= RoundedPnL.totalSignals m)%nat /\
  jsle (Fin 0) (RoundedPnL.winRate m) = true /\
  jsle (RoundedPnL.winRate m) (Fin 100) = true /\
  jsle (Fin 0) (RoundedPnL.grossProfit m) = true /\
  jsle (Fin 0) (RoundedPnL.grossLoss m) = true /\
  RoundedPnL.worstTradePnl m <= RoundedPnL.bestTradePnl m /\
  (forall d, In d data -> ~ PnL.pl d == 0 ->
     RoundedPnL.worstTradePnl m <= PnL.pl d /\
     PnL.pl d <= RoundedPnL.bestTradePnl m).
Proof.
  cbv zeta. unfold RoundedPnL.metrics. cbv zeta.
  cbn [RoundedPnL.winningTrades RoundedPnL.losingTrades RoundedPnL.executedTrades
       RoundedPnL.totalSignals RoundedPnL.winRate RoundedPnL.grossProfit
       RoundedPnL.grossLoss RoundedPnL.worstTradePnl RoundedPnL.bestTradePnl].
  pose proof (filter_counts data) as Hcount.
  assert (R0 : Binary64.representable 0) by (representable 0%Z 0%Z).
  assert (R1 : Binary64.representable 1) by (representable 1%Z 0%Z).
  assert (R100 : Binary64.representable 100) by (representable 100%Z 0%Z).
  set (ex := length (filter (fun d => PnL.executed d || _) data)) in *.
  set (w := length (filter (fun d => Qlt_bool 0 (PnL.pl d)) data)) in *.
  set (lo := length (filter (fun d => Qlt_bool (PnL.pl d) 0) data)) in *.
  split; [exact Hcount|]. split; [apply filter_length_le|].
  assert (Hrate :
            jsle (Fin 0)
              (if (0 <? ex)%nat
               then Binary64.mul
                      (Binary64.div (Fin (PnL.count w)) (Fin (PnL.count ex)))
                      (Fin 100)
               else Fin 0) = true /\
            jsle
              (if (0 <? ex)%nat
               then Binary64.mul
                      (Binary64.div (Fin (PnL.count w)) (Fin (PnL.count ex)))
                      (Fin 100)
               else Fin 0) (Fin 100) = true).
  { destruct (Nat.ltb_spec 0 ex) as [Hex|Hex]; [|split; reflexivity].
    pose proof (count_pos ex Hex) as Hp.
    pose proof (count_nonneg w) as Hw.
    assert (Hwe : PnL.count w <= PnL.count ex) by (apply count_le; lia).
    assert (H0 : 0 <= PnL.count w / PnL.count ex)
      by (apply Qle_shift_div_l; lra).
    assert (H1 : PnL.count w / PnL.count ex <= 1)
      by (apply Qle_shift_div_r; lra).
    cbn [Binary64.div].
    assert (Hz : Qeq_bool (PnL.count ex) 0 = false) by (apply Qeq_bool_false; lra).
    rewrite Hz.
    pose proof (fl_ge_bound _ _ R0 H0) as G0.
    pose proof (fl_le_bound _ _ R1 H1) as G1.
    destruct (Binary64.fl (PnL.count w / PnL.count ex)) as [q| | |];
      cbn [jsle] in G0, G1; try discriminate.
    qprop. cbn [Binary64.mul].
    split; [apply fl_ge_bound | apply fl_le_bound]; try assumption; lra. }
  destruct Hrate as [Hr0 Hr1].
  split; [exact Hr0|]. split; [exact Hr1|].
  split.
  { apply sumPl_nonneg; [reflexivity|]. intros d Hd.
    apply filter_In in Hd. destruct Hd as [_ Hd]. qprop. lra. }
  split.
  { pose proof (sumPl_nonpos (filter (fun d => Qlt_bool (PnL.pl d) 0) data) (Fin 0)
                  eq_refl) as Hl.
    unfold RoundedPnL.sumPl.
    destruct (fold_left _ _ (Fin 0)) as [q| | |]; cbn [Binary64.abs jsle].
    - apply Qle_bool_iff, Qabs_nonneg.
    - reflexivity.
    - reflexivity.
    - exfalso. assert (H : false = true); [|discriminate H].
      apply Hl. intros d Hd. apply filter_In in Hd. destruct Hd as [_ Hd].
      qprop. lra. }
  set (pnls := filter (fun p => negb (Qeq_bool p 0)) (map PnL.pl data)).
  assert (Hin : forall d, In d data -> ~ PnL.pl d == 0 -> In (PnL.pl d) pnls).
  { intros d Hd Hnz. apply filter_In. split; [now apply in_map|].
    apply negb_true_iff, Qeq_bool_false, Hnz. }
  destruct pnls as [|x t].
  - split; [lra|]. intros d Hd Hnz. destruct (Hin d Hd Hnz).
  - destruct (max_from_bounds t x) as [Hmx Hmt].
    destruct (min_from_bounds t x) as [Hnx Hnt].
    split; [lra|]. intros d Hd Hnz.
    destruct (Hin d Hd Hnz) as [<-|Ht]; [lra|].
    split; [now apply Hnt | now apply Hmt].
Qed.

(** Three trades of 12.34 each: the rounded average falls just below
    every one of them, while the worst and the best trade are 12.34. *)
Lemma rounded_average_below_worst_trade :
  let row := {| PnL.executed := true;
                PnL.profit_loss := Some (Binary64.lit (1234 # 100)) |} in
  let m := RoundedPnL.metrics [row; row; row] in
  RoundedPnL.worstTradePnl m = Binary64.lit (1234 # 100) /\
  RoundedPnL.bestTradePnl m = Binary64.lit (1234 # 100) /\
  jslt (RoundedPnL.avgTradePnl m) (Fin (RoundedPnL.worstTradePnl m)) = true.
Proof. repeat split; vm_compute; reflexivity. Qed.

(** [calculateTodaysPnL] reports at most six results, only for the
    symbol/strategy pairs it does not skip and in its loop order;
    whatever the database holds, every result for [naked_positions] or
    [credit_spreads] has all metrics 0, since rows are only ever read
    for [atm_trades]; without a configured store it reports nothing. *)
Theorem todays_pnl_reads_atm_trades_only
    (configured : bool) (query : PnL.Symbol -> PnL.Strategy -> PnL.Query) :
  let results := PnL.calculateTodaysPnL configured query in
  (length results <= 6)%nat /\
  (forall symbol strategy m,
     In (symbol, strategy, m) results ->
     PnL.compatible symbol strategy = true /\
     (strategy <> PnL.atm_trades ->
      m = PnL.metrics [] /\ PnL.totalSignals m = 0%nat /\
      PnL.netPnl m == 0 /\ PnL.winRate m == 0)) /\
  (configured = false -> results = []).
Proof.
  cbv zeta. unfold PnL.calculateTodaysPnL. split; [|split].
  - destruct configured; simpl; [|lia].
    destruct (query PnL.SPY PnL.atm_trades) as [|[?|]],
             (query PnL.QQQ PnL.atm_trades) as [|[?|]]; simpl; lia.
  - intros symbol strategy m Hin.
    destruct configured; simpl in Hin; [|destruct Hin].
    destruct (query PnL.SPY PnL.atm_trades) as [|[?|]],
             (query PnL.QQQ PnL.atm_trades) as [|[?|]]; simpl in Hin;
      repeat (destruct Hin as [Hin|Hin];
              [inversion Hin; subst; split; [reflexivity|];
               intro Hne; try congruence;
               repeat split; reflexivity|]);
      destruct Hin.
  - intros ->. reflexivity.
Qed.

Definition three_trades : list PnL.SignalRow :=
  [ {| PnL.executed := true; PnL.profit_loss := Some 150 |};
    {| PnL.executed := true; PnL.profit_loss := Some (-50) |};
    {| PnL.executed := false; PnL.profit_loss := None |} ].

Lemma todays_pnl_reads_atm_trades_only_witness :
  let results :=
    PnL.calculateTodaysPnL true (fun _ _ => PnL.QueryData (Some three_trades)) in
  map (fun r => (fst (fst r), snd (fst r), Qred (PnL.netPnl (snd r)))) results
  = [ (PnL.SPY, PnL.naked_positions, 0); (PnL.SPY, PnL.atm_trades, 100);
      (PnL.QQQ, PnL.naked_positions, 0); (PnL.QQQ, PnL.atm_trades, 100);
      (PnL.SPX, PnL.naked_positions, 0); (PnL.SPX, PnL.credit_spreads, 0) ] /\
  forall symbol strategy m,
    In (symbol, strategy, m) results -> strategy <> PnL.atm_trades ->
    PnL.netPnl m == 0.
Proof.
  cbv zeta. split; [reflexivity|].
  intros symbol strategy m Hin Hne.
  apply (todays_pnl_reads_atm_trades_only true
           (fun _ _ => PnL.QueryData (Some three_trades)) ) in Hin.
  destruct Hin as [_ H]. apply H. exact Hne.
Defined.

(* ================================================================== *)
(** * services/ai-orchestrator.ts: execute *)
(* ================================================================== *)

Module AIOrchestrator.

Inductive AITaskType : Type :=
| CREDIT_SPREAD_ANALYSIS
| TRADE_PREDICTION
| PATTERN_RECOGNITION
| RISK_ASSESSMENT
| MARKET_SENTIMENT
| PORTFOLIO_OPTIMIZATION.

Inductive Provider : Type := openai | gemini.

Record ModelStrategy : Type := {
  primary : Provider;
  fallback : option Provider
}.

Definition getModelStrategy (taskType : AITaskType) : ModelStrategy :=
  match taskType with
  | CREDIT_SPREAD_ANALYSIS => {| primary := openai; fallback := Some gemini |}
  | TRADE_PREDICTION => {| primary := gemini; fallback := Some openai |}
  | PATTERN_RECOGNITION => {| primary := gemini; fallback := Some openai |}
  | RISK_ASSESSMENT => {| primary := openai; fallback := Some gemini |}
  | MARKET_SENTIMENT => {| primary := gemini; fallback := Some openai |}
  | PORTFOLIO_OPTIMIZATION => {| primary := openai; fallback := Some gemini |}
  end.

(** What [callOpenAI] / [callGemini] resolve to. *)
Record CallResult : Type := {
  response : string;
  tokensUsed : Q;
  latencyMs : Q
}.

(** What [execute] resolves to. *)
Record Answer : Type := {
  ans_response : string;
  ans_model : string;
  ans_tokensUsed : Q;
  ans_latencyMs : Q
}.

(** Row of [ai_orchestration_log]. *)
Record LogRow : Type := {
  task_type : AITaskType;
  model_used : string;
  via_fallback : bool;
  latency_ms : Q;
  tokens_used : Q;
  success : bool
}.

Inductive ExecuteError : Type :=
| AllModelsFailed   (* new Error('All AI models failed') *)
| PrimaryFailed.    (* the primary model's error, rethrown *)

Inductive Outcome : Type :=
| Resolved (a : Answer)
| Rejected (e : ExecuteError).

Section Execute.
Variable openaiModel geminiModel : string.
(** The [n]-th model call of one [execute]: its result, or [None] when
    it throws. *)
Variable callModel : nat -> Provider -> option CallResult.

Definition providerName (p : Provider) : string :=
  match p with openai => "openai" | gemini => "gemini" end.

(** [`${p}-${p === 'openai' ? this.openaiModel : this.geminiModel}`]. *)
Definition modelName (p : Provider) : string :=
  (providerName p ++ "-" ++ match p with openai => openaiModel | gemini => geminiModel end)%string.

Definition answerOf (p : Provider) (r : CallResult) : Answer :=
  {| ans_response := response r; ans_model := modelName p;
     ans_tokensUsed := tokensUsed r; ans_latencyMs := latencyMs r |}.

(** Returns the outcome and the rows handed to [logAICall]. *)
Definition execute (taskType : AITaskType) (log : list LogRow) : Outcome * list LogRow :=
  let strategy := getModelStrategy taskType in
  match callModel 0 (primary strategy) with
  | Some result =>
      (Resolved (answerOf (primary strategy) result),
       log ++ [ {| task_type := taskType; model_used := modelName (primary strategy);
                   via_fallback := false; latency_ms := latencyMs result;
                   tokens_used := tokensUsed result; success := true |} ])
  | None =>
      match fallback strategy with
      | Some fb =>
          match callModel 1 fb with
          | Some result =>
              (Resolved (answerOf fb result),
               log ++ [ {| task_type := taskType; model_used := modelName fb;
                           via_fallback := true; latency_ms := latencyMs result;
                           tokens_used := tokensUsed result; success := true |} ])
          | None =>
              (Rejected AllModelsFailed,
               log ++ [ {| task_type := taskType; model_used := modelName fb;
                           via_fallback := true; latency_ms := 0;
                           tokens_used := 0; success := false |} ])
          end
      | None =>
          (Rejected PrimaryFailed,
           log ++ [ {| task_type := taskType; model_used := modelName (primary strategy);
                       via_fallback := false; latency_ms := 0;
                       tokens_used := 0; success := false |} ])
      end
  end.

End Execute.
End AIOrchestrator.

Lemma strategy_has_other_fallback (taskType : AIOrchestrator.AITaskType) :
  exists fb,
    AIOrchestrator.fallback (AIOrchestrator.getModelStrategy taskType) = Some fb /\
    fb <> AIOrchestrator.primary (AIOrchestrator.getModelStrategy taskType).
Proof.
  destruct taskType; eexists; (split; [reflexivity|discriminate]).
Qed.

